(** * pytube.request: a shallow embedding of the transport layer

    The development follows [src/pytube/request.py]: the fronting address
    override, the request executor, the chunked retrying stream reader and
    the sequential segment reader with its size prober. The exception
    classes of [src/pytube/exceptions.py] are embedded in the module
    [Exceptions].

    Python values are embedded as follows.
    - [str] is [string]; [bytes] is [list byte]; [int] is [Z].
    - A [dict] of headers is a [gmap string string]; the query dictionary,
      whose iteration order reaches [urlencode], is an ordered association
      list.
    - Exceptions are values of [exn]; a computation is a state transformer
      that also collects the chunks a generator yields. A generator is run
      until it returns or raises, as a consumer that iterates it to the end
      sees it.
    - The [while] loops that the code does not bound take a fuel argument;
      running out of fuel is the distinguished outcome [OutOfFuel].
    - What the module imports from the Python standard library, from the
      network and from [pytube.helpers] is gathered in the class
      [Platform]. The address override is the function
      [_patched_getaddrinfo] itself; the calls that [urlopen] makes to it
      once it is installed in [socket] belong to the network.
    - The log messages of [request.py] are not modelled, and one thread
      runs at a time. *)

From Stdlib Require Import ZArith QArith String Ascii List Lia.
From Stdlib Require Import Strings.Byte.
From stdpp Require Import base gmap strings list pretty.

Import ListNotations.
Local Open Scope Z_scope.

(** ** Strings and bytes *)

Abbreviation bytes := (list byte).

(** [b'...'] literals. *)
Definition b (s : string) : bytes := String.list_byte_of_string s.

(** [len(x)] as a Python integer. *)
Definition len {A} (l : list A) : Z := Z.of_nat (length l).

(** The lower-case form of a character: the letters A to Z and, among the
    code points 128 to 255, the capital letters 192 to 222 except the
    multiplication sign 215. *)
Definition lower_char (c : ascii) : ascii :=
  let n := nat_of_ascii c in
  if orb (andb (Nat.leb 65 n) (Nat.leb n 90))
         (andb (andb (Nat.leb 192 n) (Nat.leb n 222)) (negb (Nat.eqb n 215)))
  then ascii_of_nat (n + 32) else c.

(** [s.lower()] on the 8-bit strings of the model. *)
Fixpoint lower (s : string) : string :=
  match s with
  | EmptyString => EmptyString
  | String c s' => String (lower_char c) (lower s')
  end.

(** [s.startswith(p)]. *)
Definition startswith (s p : string) : bool := String.prefix p s.

(** [needle in hay] for two strings. *)
Fixpoint contains (needle hay : string) : bool :=
  if String.prefix needle hay then true
  else match hay with
       | EmptyString => false
       | String _ hay' => contains needle hay'
       end.

(** [str(n)] and the [{n}] of an f-string, for an integer. *)
Definition str_of_int (n : Z) : string := pretty n.

Definition is_digit (c : ascii) : bool :=
  let n := nat_of_ascii c in andb (Nat.leb 48 n) (Nat.leb n 57).

Definition digit_value (c : ascii) : Z := Z.of_nat (nat_of_ascii c) - 48.

(** The characters [int()] strips around a number given as text: ASCII
    white space, NEL and the no-break space; around a number given as
    bytes, ASCII white space only. *)
Definition is_ascii_space (c : ascii) : bool :=
  let n := nat_of_ascii c in
  orb (andb (Nat.leb 9 n) (Nat.leb n 13)) (Nat.eqb n 32).

Definition is_space (c : ascii) : bool :=
  let n := nat_of_ascii c in
  orb (is_ascii_space c) (orb (Nat.eqb n 133) (Nat.eqb n 160)).

Fixpoint lstrip (space : ascii -> bool) (s : string) : string :=
  match s with
  | String c s' => if space c then lstrip space s' else s
  | EmptyString => EmptyString
  end.

(** Digits with single underscores between them, then optional white space
    up to the end of the text. [seen] tells that the character before was a
    digit. *)
Fixpoint int_digits (space : ascii -> bool) (acc : Z) (seen : bool) (s : string)
    : option Z :=
  match s with
  | EmptyString => if seen then Some acc else None
  | String c s' =>
      if is_digit c then int_digits space (10 * acc + digit_value c) true s'
      else if Ascii.eqb c "_" then
        (if seen then
           match s' with
           | String d _ => if is_digit d then int_digits space acc false s' else None
           | EmptyString => None
           end
         else None)
      else if space c then
        (if seen then
           match lstrip space s' with EmptyString => Some acc | _ => None end
         else None)
      else None
  end.

Definition int_literal (space : ascii -> bool) (s : string) : option Z :=
  match lstrip space s with
  | String "+" s' => int_digits space 0 false s'
  | String "-" s' => option_map Z.opp (int_digits space 0 false s')
  | s' => int_digits space 0 false s'
  end.

(** [int(text)] in base ten: [None] stands for the [ValueError] raised on
    text that is not a decimal integer. The interpreter's limit on the
    number of digits is not modelled. *)
Definition py_int (s : string) : option Z := int_literal is_space s.

(** [int(x)] for a [bytes] value. *)
Definition py_int_bytes (x : bytes) : option Z :=
  int_literal is_ascii_space (String.string_of_list_byte x).

Definition is_digit_byte (x : byte) : bool := is_digit (ascii_of_byte x).

(** The longest run of decimal digits at the head of [l], and what follows. *)
Fixpoint span_digits (l : bytes) : bytes * bytes :=
  match l with
  | x :: l' =>
      if is_digit_byte x then
        let '(ds, rest) := span_digits l' in (x :: ds, rest)
      else ([], l)
  | [] => ([], [])
  end.

Fixpoint strip_prefix (p l : bytes) : option bytes :=
  match p, l with
  | [], _ => Some l
  | x :: p', y :: l' => if Byte.eqb x y then strip_prefix p' l' else None
  | _ :: _, [] => None
  end.

(** [re.compile(lit + b'(\\d+)').search(line)]: group 1 of the leftmost
    match, the digits being taken greedily; [None] when nothing matches. *)
Fixpoint search_digits_after (lit line : bytes) : option bytes :=
  let here :=
    match strip_prefix lit line with
    | Some rest =>
        match fst (span_digits rest) with
        | [] => None
        | ds => Some ds
        end
    | None => None
    end in
  match here with
  | Some ds => Some ds
  | None =>
      match line with
      | [] => None
      | _ :: line' => search_digits_after lit line'
      end
  end.

(** [data.split(b'\r\n')]: [cur] is the piece being read, reversed. *)
Fixpoint split_crlf_from (cur : bytes) (l : bytes) : list bytes :=
  match l with
  | x :: l' =>
      match l' with
      | y :: l'' =>
          if andb (Byte.eqb x "013") (Byte.eqb y "010")
          then rev cur :: split_crlf_from [] l''
          else split_crlf_from (x :: cur) l'
      | [] => [rev (x :: cur)]
      end
  | [] => [rev cur]
  end.

Definition split_crlf (l : bytes) : list bytes := split_crlf_from [] l.

(** ** Exceptions *)

(** The [reason] of a [URLError]: [isinstance(e.reason, socket.timeout)]
    holds for [socket_timeout] only. *)
Inductive url_reason :=
  | socket_timeout
  | other_reason (description : string).

Inductive exn :=
  | URLError (reason : url_reason)
  | HTTPError (code : Z) (msg : string)       (* a subclass of URLError *)
  | IncompleteRead
  | MaxRetriesExceeded
  | RegexMatchError (caller : string) (pattern : bytes)
  | ValueError (msg : string)
  | TypeError (msg : string)
  | KeyError (key : string)
  | IndexError (msg : string)
  | UnboundLocalError (name : string)
  | OtherError (description : string).

(** ** Requests, responses and the platform *)

Inductive Timeout :=
  | _GLOBAL_DEFAULT_TIMEOUT
  | seconds (t : Q).

#[warnings="-register-all"]
Inductive json :=
  | JNull
  | JBool (v : bool)
  | JNum (n : Z)
  | JStr (s : string)
  | JList (l : list json)
  | JObject (members : list (string * json)).

(** The [data] argument of a request: raw bytes or a JSON-like object;
    [None] is [DataJson JNull]. *)
Inductive pydata :=
  | DataBytes (x : bytes)
  | DataJson (j : json).

(** [bool(data)] as [if data:] evaluates it. *)
Definition truthy (d : pydata) : bool :=
  match d with
  | DataBytes [] => false
  | DataBytes _ => true
  | DataJson JNull => false
  | DataJson (JBool v) => v
  | DataJson (JNum n) => negb (n =? 0)
  | DataJson (JStr s) => negb (String.eqb s "")
  | DataJson (JList []) => false
  | DataJson (JList _) => true
  | DataJson (JObject []) => false
  | DataJson (JObject _) => true
  end.

(** What [Request(front_url, headers=..., method=..., data=...)] is built
    from. *)
Record Request := mkRequest {
  full_url : string;
  headers : gmap string string;
  method : option string;
  data : pydata
}.

(** A response handle: [info()] is the header list in arrival order,
    [body] the bytes that [read] delivers, and [failure] the exception that
    [read] raises once they are delivered, when the connection breaks
    before the end of the data. *)
Record Response := mkResponse {
  info : list (string * string);
  body : bytes;
  failure : option exn
}.

(** One [urlopen] call; every call of the module passes
    [context=unverified_context]. *)
Definition Exchange : Type := Request * Timeout.

Record SplitResult := mkSplit {
  scheme : string;
  netloc : string;
  path : string;
  query : string;
  fragment : string
}.

(** Values of the query dictionary: [parse_qsl] gives text, the code
    stores the integer sequence number under ['sq']. *)
Inductive qvalue :=
  | QStr (s : string)
  | QInt (n : Z).

Record dns_entry := mkEntry {
  name : string;
  data_ : string
}.

(** The parsed DoH answer: [json_data["Question"]] and
    [json_data["Answer"]], each possibly missing. *)
Record dns_json := mkDns {
  Question : option (list string);
  Answer : option (list dns_entry)
}.

Inductive sockaddr :=
  | addr2 (host : string) (port : Z)
  | addr4 (host : string) (port flowinfo scope_id : Z).

(** One 5-tuple of a [getaddrinfo] result. *)
Record addrinfo := mkAddrinfo {
  ai_family : Z;
  ai_type : Z;
  ai_proto : Z;
  ai_canonname : string;
  ai_sockaddr : sockaddr
}.

(** The collaborators of the module: the helpers imported from
    [pytube.helpers], the [urllib]/[json]/[codecs] functions it calls, the
    network behind [urlopen] (which may answer according to the calls made
    before) and the resolver saved as [_orig_getaddrinfo]. *)
Class Platform := {
  get_ident : nat;
  make_fronted_url : string -> string * option string;
  split_redirector_url : string -> list string;
  urlsplit : string -> exn + SplitResult;
  parse_qsl : string -> list (string * string);
  urlencode : list (string * qvalue) -> string;
  json_dumps : json -> string;
  json_loads : string -> exn + dns_json;
  decode_utf8 : bytes -> exn + string;
  urlopen : list Exchange -> Request -> Timeout -> exn + Response;
  _orig_getaddrinfo : string -> Z -> Z -> Z -> Z -> Z -> exn + list addrinfo
}.

(** ** Module state *)

Abbreviation loc := nat (only parsing).

Record State := mkState {
  last_url : gmap nat string;            (* last_url, keyed by thread id *)
  heap : gmap loc (gmap string string);  (* header dicts owned by callers *)
  log : list Exchange;                   (* the urlopen calls, oldest first *)
  lookups : list (string * Z);           (* the _orig_getaddrinfo calls *)
  dns_cache : list (string * string);    (* lru_cache of get_dns_ip *)
  filesize_cache : list (string * Z);    (* lru_cache of filesize *)
  seq_filesize_cache : list (string * Z) (* lru_cache of seq_filesize *)
}.

Definition set_last_url (f : gmap nat string -> gmap nat string) (st : State) : State :=
  mkState (f (last_url st)) (heap st) (log st) (lookups st) (dns_cache st)
          (filesize_cache st) (seq_filesize_cache st).

Definition set_heap (f : gmap loc (gmap string string) -> gmap loc (gmap string string))
    (st : State) : State :=
  mkState (last_url st) (f (heap st)) (log st) (lookups st) (dns_cache st)
          (filesize_cache st) (seq_filesize_cache st).

Definition set_log (f : list Exchange -> list Exchange) (st : State) : State :=
  mkState (last_url st) (heap st) (f (log st)) (lookups st) (dns_cache st)
          (filesize_cache st) (seq_filesize_cache st).

Definition set_lookups (f : list (string * Z) -> list (string * Z)) (st : State) : State :=
  mkState (last_url st) (heap st) (log st) (f (lookups st)) (dns_cache st)
          (filesize_cache st) (seq_filesize_cache st).

Definition set_dns_cache (c : list (string * string)) (st : State) : State :=
  mkState (last_url st) (heap st) (log st) (lookups st) c
          (filesize_cache st) (seq_filesize_cache st).

Definition set_filesize_cache (c : list (string * Z)) (st : State) : State :=
  mkState (last_url st) (heap st) (log st) (lookups st) (dns_cache st)
          c (seq_filesize_cache st).

Definition set_seq_filesize_cache (c : list (string * Z)) (st : State) : State :=
  mkState (last_url st) (heap st) (log st) (lookups st) (dns_cache st)
          (filesize_cache st) c.

(** ** Computations *)

Inductive outcome (A : Type) :=
  | Return (a : A)
  | Raise (e : exn)
  | OutOfFuel.
Arguments Return {A} a.
Arguments Raise {A} e.
Arguments OutOfFuel {A}.

(** A finished run: the chunks yielded so far, how the run ended, and the
    state it left. A function that is not a generator yields nothing. *)
Record run (A : Type) := Run {
  yielded : list bytes;
  result : outcome A;
  final : State
}.
Arguments Run {A} yielded result final.
Arguments yielded {A} r.
Arguments result {A} r.
Arguments final {A} r.

Definition M (A : Type) : Type := State -> run A.

Definition ret {A} (a : A) : M A := fun st => Run [] (Return a) st.

Definition raise {A} (e : exn) : M A := fun st => Run [] (Raise e) st.

Definition out_of_fuel {A} : M A := fun st => Run [] OutOfFuel st.

Definition bind {A B} (m : M A) (k : A -> M B) : M B :=
  fun st =>
    let r := m st in
    match result r with
    | Return a =>
        let r' := k a (final r) in
        Run (yielded r ++ yielded r') (result r') (final r')
    | Raise e => Run (yielded r) (Raise e) (final r)
    | OutOfFuel => Run (yielded r) OutOfFuel (final r)
    end.

(** [try: m / except ... as e: handler e / else: k a]. The handler
    re-raises what its clauses do not catch. *)
Definition try_except {A B} (m : M A) (handler : exn -> M B) (k : A -> M B) : M B :=
  fun st =>
    let r := m st in
    match result r with
    | Return a =>
        let r' := k a (final r) in
        Run (yielded r ++ yielded r') (result r') (final r')
    | Raise e =>
        let r' := handler e (final r) in
        Run (yielded r ++ yielded r') (result r') (final r')
    | OutOfFuel => Run (yielded r) OutOfFuel (final r)
    end.

(** [yield chunk]. *)
Definition yield_ (chunk : bytes) : M unit := fun st => Run [chunk] (Return tt) st.

Definition get_state : M State := fun st => Run [] (Return st) st.

Definition modify (f : State -> State) : M unit := fun st => Run [] (Return tt) (f st).

(** [response.read()]: the whole body, unless the connection breaks. *)
Definition read_all (response : Response) : M bytes :=
  match failure response with
  | Some e => raise e
  | None => ret (body response)
  end.

(** A call that either raises or returns, with no effect on the state. *)
Definition lift {A} (x : exn + A) : M A :=
  match x with
  | inl e => raise e
  | inr a => ret a
  end.

Declare Scope py_scope.
Delimit Scope py_scope with py.
Notation "x <- m ;; k" := (bind m (fun x => k))
  (at level 100, m at next level, right associativity) : py_scope.
Notation "m ;;; k" := (bind m (fun _ => k))
  (at level 100, right associativity) : py_scope.
Local Open Scope py_scope.

Definition lift_outcome {A} (o : outcome A) : M A := fun st => Run [] o st.

(** [int(x)] of a parsed literal, raising [ValueError] when there is none. *)
Definition int_or_raise (x : option Z) : M Z :=
  match x with
  | Some n => ret n
  | None => raise (ValueError "invalid literal for int() with base 10")
  end.

(** ** Dictionaries *)

(** [d[k] = v] on an insertion-ordered dictionary. *)
Fixpoint dict_set {V} (k : string) (v : V) (d : list (string * V)) : list (string * V) :=
  match d with
  | [] => [(k, v)]
  | (k', v') :: d' =>
      if String.eqb k k' then (k, v) :: d' else (k', v') :: dict_set k v d'
  end.

(** [dict(pairs)]. *)
Definition dict_of_pairs {V} (pairs : list (string * V)) : list (string * V) :=
  fold_left (fun d kv => dict_set (fst kv) (snd kv) d) pairs [].

(** [message[name]] on the header list of a response: the first field
    whose name is [name] up to case, [None] when there is none. *)
Fixpoint message_get (name : string) (fields : list (string * string)) : option string :=
  match fields with
  | [] => None
  | (k, v) :: fields' =>
      if String.eqb (lower k) (lower name) then Some v else message_get name fields'
  end.

(** [{k.lower(): v for k, v in fields}]: a later field replaces an earlier
    one of the same lowered name. *)
Definition lowercase_keys (fields : list (string * string)) : gmap string string :=
  fold_left (fun d kv => <[lower (fst kv) := snd kv]> d) fields ∅.

(** ** [functools.lru_cache] with the default [maxsize] of 128 *)

Definition lru_maxsize : nat := 128.

Fixpoint cache_find {V} (k : string) (c : list (string * V)) : option V :=
  match c with
  | [] => None
  | (k', v) :: c' => if String.eqb k k' then Some v else cache_find k c'
  end.

Definition cache_drop {V} (k : string) (c : list (string * V)) : list (string * V) :=
  List.filter (fun kv => negb (String.eqb k (fst kv))) c.

(** The most recently used entry is at the head; a miss runs the wrapped
    function and stores its result only when it returns. *)
Definition lru_cache {V} (cache : State -> list (string * V))
    (set_cache : list (string * V) -> State -> State)
    (wrapped : string -> M V) (k : string) : M V :=
  st <- get_state ;;
  match cache_find k (cache st) with
  | Some v => modify (set_cache ((k, v) :: cache_drop k (cache st))) ;;; ret v
  | None =>
      v <- wrapped k ;;
      st' <- get_state ;;
      modify (set_cache (firstn lru_maxsize ((k, v) :: cache st'))) ;;;
      ret v
  end.

(** ** Constants of the module *)

Definition default_range_size : Z := 9437184.

Definition _dns_resolver : string * string :=
  ("google-public-dns-a.google.com", "216.239.36.36").

(** [response.read(32768)]. *)
Definition chunk_size : nat := Z.to_nat 32768.
Arguments chunk_size : simpl never.

Definition digits_group : bytes := b "(\d+)".

(** [b'Segment-Count: (\\d+)']. *)
Definition segment_regex : bytes := b "Segment-Count: (\d+)".

(** The literal text in front of the final digit group of a pattern. *)
Definition literal_of (pattern : bytes) : bytes :=
  firstn (length pattern - length digits_group)%nat pattern.

(** Modelled from the spec: [pytube.helpers.regex_search] is not among the
    sources. The spec has the size prober look for the
    [Segment-Count: <N>] marker in a line and fail with a regex-match error
    when it is absent; the helper searches [string] for [pattern] (a
    literal followed by one group of digits), returns the group and raises
    [RegexMatchError] when nothing matches. *)
Definition regex_search (pattern string_ : bytes) (group : Z) : exn + bytes :=
  match search_digits_after (literal_of pattern) string_ with
  | Some ds => inr ds
  | None => inl (RegexMatchError "regex_search" pattern)
  end.

(** ** The functions of [request.py] *)

Section Request.
Context {P : Platform}.

(** One pass of [for answer in json_data["Answer"]]: the working value and
    whether some entry matched. *)
Definition scan_answers (answers : list dns_entry) (ip : string) (search : bool)
    : string * bool :=
  fold_left
    (fun acc answer =>
       if String.eqb (fst acc) (name answer) then (data_ answer, true) else acc)
    answers (ip, search).

(** [while search:] with [search] true on entry. *)
Fixpoint follow_answers (fuel : nat) (answers : list dns_entry) (ip : string)
    : outcome string :=
  match fuel with
  | O => OutOfFuel
  | S fuel' =>
      let '(ip', search) := scan_answers answers ip false in
      if search then follow_answers fuel' answers ip' else Return ip'
  end.

Definition _read_ip_from_dns_answer (fuel : nat) (json_data : dns_json)
    : outcome string :=
  match Question json_data with
  | None => Raise (KeyError "Question")
  | Some [] => Raise (IndexError "list index out of range")
  | Some (ip :: _) =>
      match Answer json_data with
      | None => Raise (KeyError "Answer")
      | Some answers => follow_answers fuel answers ip
      end
  end.

(** [urlopen(request, timeout=timeout, context=unverified_context)]: the
    call is recorded, then the network answers. *)
Definition do_urlopen (request : Request) (timeout : Timeout) : M Response :=
  fun st =>
    Run []
        (match urlopen (log st) request timeout with
         | inl e => Raise e
         | inr response => Return response
         end)
        (set_log (fun l => l ++ [(request, timeout)]) st).

Definition get_dns_ip_wrapped (fuel : nat) (domain_name : string) : M string :=
  let url := "https://www.google.com/resolve?name=" +:+ domain_name in
  let request :=
    mkRequest url
      (<["User-Agent" := "Mozilla/5.0"]>
         (<["accept-language" := "en-US,en"]>
            (<["Host" := fst _dns_resolver]> ∅)))
      None (DataJson JNull) in
  modify (set_last_url <[get_ident := url]>) ;;;
  res <- do_urlopen request _GLOBAL_DEFAULT_TIMEOUT ;;
  raw <- read_all res ;;
  text <- lift (decode_utf8 raw) ;;
  json_data <- lift (json_loads text) ;;
  lift_outcome (_read_ip_from_dns_answer fuel json_data).

Definition get_dns_ip (fuel : nat) : string -> M string :=
  lru_cache dns_cache set_dns_cache (get_dns_ip_wrapped fuel).

(** [res = [list(res[0])]; res[0][4] = (addr, 443)]. *)
Definition readdress (entry : addrinfo) (addr : string) : list addrinfo :=
  [mkAddrinfo (ai_family entry) (ai_type entry) (ai_proto entry)
              (ai_canonname entry) (addr2 addr 443)].

(** [_orig_getaddrinfo(host, port, family, type, proto, flags)]: the
    lookup is recorded, then the platform resolver answers. *)
Definition do_getaddrinfo (host : string) (port family type proto flags : Z)
    : M (list addrinfo) :=
  modify (set_lookups (fun l => l ++ [(host, port)])) ;;;
  lift (_orig_getaddrinfo host port family type proto flags).

Definition _patched_getaddrinfo (fuel : nat) (host : string)
    (port family type proto flags : Z) : M (list addrinfo) :=
  res <- do_getaddrinfo host port family type proto flags ;;
  st <- get_state ;;
  match last_url st !! get_ident with
  | None => ret res
  | Some url =>
      if String.eqb url "" then ret res
      else if contains "/resolve" url then
        match res with
        | [] => raise (IndexError "list index out of range")
        | entry :: _ => ret (readdress entry (snd _dns_resolver))
        end
      else if contains "googlevideo.com" url then
        match res with
        | [] => raise (IndexError "list index out of range")
        | entry :: _ =>
            match split_redirector_url url with
            | [] => raise (IndexError "list index out of range")
            | domain :: _ =>
                addr <- get_dns_ip fuel domain ;;
                ret (readdress entry addr)
            end
        end
      else ret res
  end.

(** The request [_execute_request] hands to [urlopen]: the fronted url,
    the caller's headers merged over the base set, and the encoded body. *)
Definition build_request (url : string) (method : option string)
    (headers : option (gmap string string)) (data : pydata) : Request :=
  let '(front_url, host) := make_fronted_url url in
  let base_headers : gmap string string :=
    <["User-Agent" := "Mozilla/5.0"]> (<["accept-language" := "en-US,en"]> ∅) in
  let base_headers :=
    match host with
    | Some h => <["Host" := h]> base_headers
    | None => base_headers
    end in
  let base_headers :=
    match headers with
    | Some hs => if decide (hs = ∅) then base_headers else hs ∪ base_headers
    | None => base_headers
    end in
  let data :=
    if truthy data then
      match data with
      | DataBytes _ => data
      | DataJson j => DataBytes (b (json_dumps j))
      end
    else data in
  mkRequest front_url base_headers method data.

Definition _execute_request (url : string) (method : option string)
    (headers : option (gmap string string)) (data : pydata) (timeout : Timeout)
    : M Response :=
  modify (set_last_url <[get_ident := url]>) ;;;
  let request := build_request url method headers data in
  if startswith (lower (full_url request)) "http" then do_urlopen request timeout
  else raise (ValueError "Invalid URL").

(** The dictionary a header argument denotes: [{}] for [None], the
    caller's object otherwise. *)
Definition deref (l : loc) : M (gmap string string) :=
  st <- get_state ;; ret (default ∅ (heap st !! l)).

Definition get (url : string) (extra_headers : option loc) (timeout : Timeout)
    : M string :=
  extra_headers <- match extra_headers with
                   | None => ret ∅
                   | Some l => deref l
                   end ;;
  response <- _execute_request url None (Some extra_headers) (DataJson JNull) timeout ;;
  raw <- read_all response ;;
  lift (decode_utf8 raw).

Definition post (url : string) (extra_headers : option loc) (data : pydata)
    (timeout : Timeout) : M string :=
  let data := match data with
              | DataJson JNull => DataJson (JObject [])
              | _ => data
              end in
  extra_headers <-
    match extra_headers with
    | None => ret (<["Content-Type" := "application/json"]> ∅)
    | Some l =>
        d <- deref l ;;
        let d' := <["Content-Type" := "application/json"]> d in
        modify (set_heap <[l := d']>) ;;;
        ret d'
    end ;;
  response <- _execute_request url None (Some extra_headers) data timeout ;;
  raw <- read_all response ;;
  lift (decode_utf8 raw).

(** The suffix [stream] appends to the url of every attempt. *)
Definition range_suffix (start_byte_pos : Z) : string :=
  if start_byte_pos =? 0 then ""
  else "&range=" +:+ str_of_int start_byte_pos +:+ "-99999999999".

(** The call every attempt of [stream] makes. *)
Definition attempt (url : string) (timeout : Timeout) (start_byte_pos : Z) : M Response :=
  _execute_request (url +:+ range_suffix start_byte_pos) (Some "GET") None
                   (DataJson JNull) timeout.

(** The [while True:] retry loop of [stream]. *)
Fixpoint attempt_loop (fuel : nat) (url : string) (timeout : Timeout)
    (max_retries start_byte_pos tries : Z) : M Response :=
  match fuel with
  | O => out_of_fuel
  | S fuel' =>
      if 1 + max_retries <=? tries then raise MaxRetriesExceeded
      else
        try_except
          (attempt url timeout start_byte_pos)
          (fun e =>
             match e with
             | URLError socket_timeout =>
                 attempt_loop fuel' url timeout max_retries start_byte_pos (tries + 1)
             | URLError (other_reason _) => raise e
             | HTTPError _ _ => raise e
             | IncompleteRead =>
                 attempt_loop fuel' url timeout max_retries start_byte_pos (tries + 1)
             | _ => raise e
             end)
          (fun response => ret response)
  end.

(** The chunk loop: [rest] is what the response has not delivered yet,
    [broken] the exception that takes the place of the end of the data. *)
Fixpoint read_loop (fuel : nat) (broken : option exn) (rest : bytes) (downloaded : Z)
    : M Z :=
  match fuel with
  | O => out_of_fuel
  | S fuel' =>
      let chunk := firstn chunk_size rest in
      match chunk with
      | [] =>
          match broken with
          | Some e => raise e
          | None => ret downloaded
          end
      | _ =>
          yield_ chunk ;;;
          read_loop fuel' broken (skipn chunk_size rest) (downloaded + len chunk)
      end
  end.

(** [while downloaded < file_size:]. The error the code logs when the
    length does not parse leaves no trace in the model. *)
Fixpoint stream_loop (fuel : nat) (url : string) (timeout : Timeout)
    (max_retries start_byte_pos file_size downloaded : Z) : M unit :=
  match fuel with
  | O => out_of_fuel
  | S fuel' =>
      if downloaded <? file_size then
        response <- attempt_loop fuel' url timeout max_retries start_byte_pos 0 ;;
        sizes <-
          (if file_size =? default_range_size then
             match message_get "Content-Length" (info response) with
             | None =>
                 raise (TypeError "int() argument must be a string, a bytes-like object or a real number, not 'NoneType'")
             | Some content_range =>
                 match py_int content_range with
                 | Some n => ret (n, start_byte_pos)
                 | None => ret (file_size, downloaded)
                 end
             end
           else ret (file_size, downloaded)) ;;
        downloaded <- read_loop fuel' (failure response) (body response) (snd sizes) ;;
        stream_loop fuel' url timeout max_retries start_byte_pos (fst sizes) downloaded
      else ret tt
  end.

Definition stream (fuel : nat) (url : string) (timeout : Timeout)
    (max_retries start_byte_pos : Z) : M unit :=
  stream_loop fuel url timeout max_retries start_byte_pos default_range_size 0.

Definition head (url : string) : M (gmap string string) :=
  response <- _execute_request url (Some "HEAD") None (DataJson JNull)
                               _GLOBAL_DEFAULT_TIMEOUT ;;
  let response_headers := info response in
  ret (lowercase_keys response_headers).

Definition filesize_wrapped (url : string) : M Z :=
  h <- head url ;;
  match h !! "content-length" with
  | None => raise (KeyError "content-length")
  | Some v => int_or_raise (py_int v)
  end.

Definition filesize : string -> M Z :=
  lru_cache filesize_cache set_filesize_cache filesize_wrapped.

(** [base_url] and the query dictionary that [seq_stream] and
    [seq_filesize] derive from the url. *)
Definition base_url_of (split_url : SplitResult) : string :=
  scheme split_url +:+ "://" +:+ netloc split_url +:+ "/" +:+ path split_url +:+ "?".

Definition querys_of (split_url : SplitResult) : list (string * qvalue) :=
  dict_of_pairs (map (fun kv => (fst kv, QStr (snd kv))) (parse_qsl (query split_url))).

(** [for chunk in m: yield chunk; segment_data += chunk]. *)
Definition collect (m : M unit) : M bytes :=
  fun st =>
    let r := m st in
    Run (yielded r)
        (match result r with
         | Return _ => Return (concat (yielded r))
         | Raise e => Raise e
         | OutOfFuel => OutOfFuel
         end)
        (final r).

(** The loop over [stream_info] in [seq_stream]; [segment_count] is
    [None] while the variable is unbound. *)
Fixpoint find_segment_count (stream_info : list bytes) (segment_count : option Z)
    : M (option Z) :=
  match stream_info with
  | [] => ret segment_count
  | line :: stream_info' =>
      match search_digits_after (literal_of segment_regex) line with
      | Some ds =>
          n <- int_or_raise (py_int (String.string_of_list_byte ds)) ;;
          find_segment_count stream_info' (Some n)
      | None => find_segment_count stream_info' segment_count
      end
  end.

(** [while seq_num <= segment_count:] in [seq_stream]. *)
Fixpoint segment_loop (fuel : nat) (base_url : string) (querys : list (string * qvalue))
    (timeout : Timeout) (max_retries : Z) (segment_count : option Z) (seq_num : Z)
    : M unit :=
  match fuel with
  | O => out_of_fuel
  | S fuel' =>
      match segment_count with
      | None => raise (UnboundLocalError "segment_count")
      | Some count =>
          if seq_num <=? count then
            let querys := dict_set "sq" (QInt seq_num) querys in
            stream fuel' (base_url +:+ urlencode querys) timeout max_retries 0 ;;;
            segment_loop fuel' base_url querys timeout max_retries segment_count
                         (seq_num + 1)
          else ret tt
      end
  end.

Definition seq_stream (fuel : nat) (url : string) (timeout : Timeout)
    (max_retries : Z) : M unit :=
  split_url <- lift (urlsplit url) ;;
  let base_url := base_url_of split_url in
  let querys := dict_set "sq" (QInt 0) (querys_of split_url) in
  let url := base_url +:+ urlencode querys in
  segment_data <- collect (stream fuel url timeout max_retries 0) ;;
  segment_count <- find_segment_count (split_crlf segment_data) None ;;
  segment_loop fuel base_url querys timeout max_retries segment_count 1.

(** The loop over [stream_info] in [seq_filesize]. *)
Fixpoint count_segments (stream_info : list bytes) (segment_count : Z) : M Z :=
  match stream_info with
  | [] => ret segment_count
  | line :: stream_info' =>
      segment_count <-
        try_except
          (ds <- lift (regex_search segment_regex line 1) ;;
           int_or_raise (py_int_bytes ds))
          (fun e =>
             match e with
             | RegexMatchError _ _ => ret segment_count
             | _ => raise e
             end)
          (fun n => ret n) ;;
      count_segments stream_info' segment_count
  end.

(** [while seq_num <= segment_count:] in [seq_filesize]. *)
Fixpoint size_loop (fuel : nat) (base_url : string) (querys : list (string * qvalue))
    (segment_count seq_num total_filesize : Z) : M Z :=
  match fuel with
  | O => out_of_fuel
  | S fuel' =>
      if seq_num <=? segment_count then
        let querys := dict_set "sq" (QInt seq_num) querys in
        h <- head (base_url +:+ urlencode querys) ;;
        match h !! "content-length" with
        | None => raise (KeyError "content-length")
        | Some v =>
            n <- int_or_raise (py_int v) ;;
            size_loop fuel' base_url querys segment_count (seq_num + 1)
                      (total_filesize + n)
        end
      else ret total_filesize
  end.

Definition seq_filesize_wrapped (fuel : nat) (url : string) : M Z :=
  let total_filesize := 0 in
  split_url <- lift (urlsplit url) ;;
  let base_url := base_url_of split_url in
  let querys := dict_set "sq" (QInt 0) (querys_of split_url) in
  let url := base_url +:+ urlencode querys in
  response <- _execute_request url (Some "GET") None (DataJson JNull)
                               _GLOBAL_DEFAULT_TIMEOUT ;;
  response_value <- read_all response ;;
  let total_filesize := total_filesize + len response_value in
  segment_count <- count_segments (split_crlf response_value) 0 ;;
  if segment_count =? 0 then raise (RegexMatchError "seq_filesize" segment_regex)
  else size_loop fuel base_url querys segment_count 1 total_filesize.

Definition seq_filesize (fuel : nat) : string -> M Z :=
  lru_cache seq_filesize_cache set_seq_filesize_cache (seq_filesize_wrapped fuel).

(** The url of segment [sq] of a url split as [split_url], and the request
    that [stream] issues at every attempt. *)
Definition seq_url (split_url : SplitResult) (sq : Z) : string :=
  base_url_of split_url +:+
  urlencode (dict_set "sq" (QInt sq) (querys_of split_url)).

Definition stream_request (url : string) (start_byte_pos : Z) : Request :=
  build_request (url +:+ range_suffix start_byte_pos) (Some "GET") None (DataJson JNull).

Definition head_request (url : string) : Request :=
  build_request url (Some "HEAD") None (DataJson JNull).

Definition get_request (url : string) : Request :=
  build_request url (Some "GET") None (DataJson JNull).

(** The test [_execute_request] applies before it opens the url. *)
Definition recognized (request : Request) : bool :=
  startswith (lower (full_url request)) "http".

(** A server that answers every [GET] of [url] with [response], and one
    that answers every [HEAD] of [url] with [response]. *)
Definition answers_get (url : string) (timeout : Timeout) (response : Response) : Prop :=
  recognized (get_request url) = true /\
  forall history, urlopen history (get_request url) timeout = inr response.

Definition answers_head (url : string) (response : Response) : Prop :=
  recognized (head_request url) = true /\
  forall history,
    urlopen history (head_request url) _GLOBAL_DEFAULT_TIMEOUT = inr response.

(** The same test, told of the url a caller passes to the executor:
    [front_url.lower().startswith("http")]. *)
Definition accepts (url : string) : bool :=
  startswith (lower (fst (make_fronted_url url))) "http".

End Request.

(** ** Pure readings of the loops *)

(** The successive non-empty results of [read(32768)] on a body. *)
Fixpoint chunks_upto (n : nat) (rest : bytes) : list bytes :=
  match n with
  | O => []
  | S n' =>
      match firstn chunk_size rest with
      | [] => []
      | chunk => chunk :: chunks_upto n' (skipn chunk_size rest)
      end
  end.

Definition chunks (body : bytes) : list bytes := chunks_upto (length body) body.

(** The value of a run of decimal digits. *)
Definition digits_value (ds : bytes) : Z :=
  fold_left (fun acc d => 10 * acc + digit_value (ascii_of_byte d)) ds 0.

(** The number a line announces after [Segment-Count: ], if any. *)
Definition marker_of (line : bytes) : option Z :=
  option_map digits_value (search_digits_after (b "Segment-Count: ") line).

(** What both scanning loops keep: the number of the last marked line,
    [found] when no line is marked. *)
Definition last_marker (lines : list bytes) (found : option Z) : option Z :=
  fold_left (fun acc line => match marker_of line with Some n => Some n | None => acc end)
            lines found.

(** The segment count a body announces: that of its last line carrying a
    marker, [None] when no line carries one. *)
Definition segment_count_in (body : bytes) : option Z :=
  last_marker (split_crlf body) None.

(** A response that arrives whole and declares the length of its body. *)
Definition declares_length (response : Response) : Prop :=
  failure response = None /\
  exists v, message_get "Content-Length" (info response) = Some v /\
            py_int v = Some (len (body response)).

(** The length a [HEAD] response declares, as [head] and [int] read it. *)
Definition declared_size (response : Response) (size : Z) : Prop :=
  exists v, lowercase_keys (info response) !! "content-length" = Some v /\
            py_int v = Some size.

(** [sizes 1 + ... + sizes n]. *)
Definition sum_sizes (sizes : nat -> Z) (n : nat) : Z :=
  fold_right Z.add 0 (map sizes (seq 1 n)).

(** Whether a request carries a header named [Range], in any letter case. *)
Definition has_range_header (request : Request) : bool :=
  existsb (fun kv => String.eqb (lower (fst kv)) "range") (map_to_list (headers request)).

(** One link of a DoH answer chain: an entry named [x] whose data is [y]. *)
Definition links (answers : list dns_entry) (x y : string) : Prop :=
  exists answer, In answer answers /\ name answer = x /\ data_ answer = y.

Inductive chain (answers : list dns_entry) : string -> string -> Prop :=
  | chain_refl x : chain answers x x
  | chain_step x y z : links answers x y -> chain answers y z -> chain answers x z.

(** The states reachable from [st] by repeating one call. *)
Definition repeats (ex : Exchange) (st st' : State) : Prop :=
  exists k : nat, log st' = log st ++ repeat ex k.

Definition init_state : State := mkState ∅ ∅ [] [] [] [] [].

(** A run started in [st] that ends in the invalid-request error without
    yielding and without a call of [urlopen]. *)
Definition refused {A} (st : State) (r : run A) : Prop :=
  result r = Raise (ValueError "Invalid URL") /\ yielded r = [] /\ log (final r) = log st.

(** ** Further readings *)

(** A chunk as a caller of [stream] receives it: not empty, and of at most
    the 32768 bytes that one [read] asks for. *)
Definition chunk_ok (chunk : bytes) : Prop := 0 < len chunk <= 32768.

(** The two failures of an attempt that [stream] retries. *)
Definition transient (e : exn) : Prop := e = URLError socket_timeout \/ e = IncompleteRead.

(** A computation that leaves a component of the state as it found it. *)
Definition keeps {A T} (component : State -> T) (m : M A) : Prop :=
  forall st, component (final (m st)) = component st.

(** The headers [_execute_request] starts from, read as a function of the
    name: the two fixed ones and, when the url is fronted, [Host]. *)
Definition base_header (host : option string) (k : string) : option string :=
  if String.eqb k "Host" then host
  else if String.eqb k "User-Agent" then Some "Mozilla/5.0"
  else if String.eqb k "accept-language" then Some "en-US,en"
  else None.


(** The three memo tables hold no more entries than [lru_cache] allows. *)
Definition caches_bounded (st : State) : Prop :=
  (length (dns_cache st) <= lru_maxsize)%nat /\
  (length (filesize_cache st) <= lru_maxsize)%nat /\
  (length (seq_filesize_cache st) <= lru_maxsize)%nat.

(** The url and the request of a DoH lookup, as [get_dns_ip] builds them. *)
Definition doh_url (domain_name : string) : string :=
  "https://www.google.com/resolve?name=" +:+ domain_name.

Definition doh_request (domain_name : string) : Request :=
  mkRequest (doh_url domain_name)
    (<["User-Agent" := "Mozilla/5.0"]>
       (<["accept-language" := "en-US,en"]>
          (<["Host" := fst _dns_resolver]> ∅)))
    None (DataJson JNull).



(** ** The exceptions of [exceptions.py] *)

Module Exceptions.

Inductive class :=
  | PytubeError
  | MaxRetriesExceeded
  | HTMLParseError
  | ExtractError
  | RegexMatchError
  | VideoUnavailable
  | AgeRestrictedError
  | LiveStreamError
  | VideoPrivate
  | RecordingUnavailable
  | BotDetection
  | PoTokenRequired
  | LoginRequired
  | MembersOnly
  | VideoRegionBlocked
  | AgeCheckRequiredError
  | AgeCheckRequiredAccountError
  | UnknownVideoError.

#[global] Instance class_eq_dec : EqDecision class.
Proof. solve_decision. Defined.

Definition classes : list class :=
  [PytubeError; MaxRetriesExceeded; HTMLParseError; ExtractError; RegexMatchError;
   VideoUnavailable; AgeRestrictedError; LiveStreamError; VideoPrivate;
   RecordingUnavailable; BotDetection; PoTokenRequired; LoginRequired; MembersOnly;
   VideoRegionBlocked; AgeCheckRequiredError; AgeCheckRequiredAccountError;
   UnknownVideoError].

(** The class each [class] statement derives from; [None] is the built-in
    [Exception]. *)
Definition base (c : class) : option class :=
  match c with
  | PytubeError => None
  | MaxRetriesExceeded => Some PytubeError
  | HTMLParseError => Some PytubeError
  | ExtractError => Some PytubeError
  | RegexMatchError => Some ExtractError
  | VideoUnavailable => Some PytubeError
  | AgeRestrictedError => Some VideoUnavailable
  | LiveStreamError => Some VideoUnavailable
  | VideoPrivate => Some VideoUnavailable
  | RecordingUnavailable => Some VideoUnavailable
  | BotDetection => Some VideoUnavailable
  | PoTokenRequired => Some VideoUnavailable
  | LoginRequired => Some VideoUnavailable
  | MembersOnly => Some VideoUnavailable
  | VideoRegionBlocked => Some VideoUnavailable
  | AgeCheckRequiredError => Some VideoUnavailable
  | AgeCheckRequiredAccountError => Some VideoUnavailable
  | UnknownVideoError => Some VideoUnavailable
  end.

(** The class and the classes above it, nearest first. *)
Fixpoint ancestors (depth : nat) (c : class) : list class :=
  match depth with
  | O => []
  | S depth' =>
      c :: match base c with
           | Some parent => ancestors depth' parent
           | None => []
           end
  end.

Definition mro (c : class) : list class := ancestors (length classes) c.

(** [issubclass(c, d)]: what [except d] catches. *)
Definition issubclass (c d : class) : bool :=
  existsb (fun x => bool_decide (x = d)) (mro c).

(** The values the constructors are given: text, or [None]. *)
Inductive value :=
  | NoneValue
  | Str (s : string).

(** [f'{v}']. *)
Definition format (v : value) : string :=
  match v with
  | NoneValue => "None"
  | Str s => s
  end.

Record instance := mkInstance {
  class_of : class;
  attributes : gmap string value;   (* the instance dictionary *)
  args : list value                 (* what [str(e)] prints *)
}.

Definition setattr (self : instance) (n : string) (v : value) : instance :=
  mkInstance (class_of self) (<[n := v]> (attributes self)) (args self).

(** [f'{self.n}']; [None] stands for the [AttributeError] of a missing
    attribute. *)
Definition formatted (self : instance) (n : string) : option string :=
  format <$> attributes self !! n.

(** The [error_string] property, as the class of the instance defines or
    overrides it. *)
Definition error_string (self : instance) : option string :=
  match class_of self with
  | VideoUnavailable =>
      video_id ← formatted self "video_id";
      Some (video_id +:+ " is unavailable")
  | AgeRestrictedError =>
      video_id ← formatted self "video_id";
      Some (video_id +:+ " is age restricted, and can't be accessed without logging in.")
  | LiveStreamError =>
      video_id ← formatted self "video_id";
      Some (video_id +:+ " is streaming live and cannot be loaded")
  | VideoPrivate =>
      video_id ← formatted self "video_id";
      Some (video_id +:+ " is a private video")
  | RecordingUnavailable =>
      video_id ← formatted self "video_id";
      Some (video_id +:+ " does not have a live stream recording available")
  | BotDetection =>
      video_id ← formatted self "video_id";
      Some (video_id +:+ " This request was detected as a bot. Use `use_po_token=True` to view. " +:+
            "See more details at https://github.com/JuanBindez/pytubefix/pull/209")
  | PoTokenRequired =>
      video_id ← formatted self "video_id";
      client_name ← formatted self "client_name";
      Some (video_id +:+ " The " +:+ client_name +:+
            " client requires PoToken to obtain functional streams, " +:+
            "See more details at https://github.com/JuanBindez/pytubefix/pull/209")
  | LoginRequired =>
      video_id ← formatted self "video_id";
      reason ← formatted self "reason";
      Some (video_id +:+ " requires login to view, YouTube reason: " +:+ reason)
  | MembersOnly =>
      video_id ← formatted self "video_id";
      Some (video_id +:+ " is a members-only video")
  | VideoRegionBlocked =>
      video_id ← formatted self "video_id";
      Some (video_id +:+ " is not available in your region")
  | AgeCheckRequiredError =>
      video_id ← formatted self "video_id";
      Some (video_id +:+ " has age restrictions and cannot be accessed without confirmation.")
  | AgeCheckRequiredAccountError =>
      video_id ← formatted self "video_id";
      Some (video_id +:+ " may be inappropriate for " +:+
            "some users. Sign in to your primary account to confirm your age.")
  | UnknownVideoError =>
      video_id ← formatted self "video_id";
      Some (video_id +:+ " has an unknown error, check logs for more info")
  | PytubeError | MaxRetriesExceeded | HTMLParseError | ExtractError | RegexMatchError =>
      None
  end.

(** [Exception.__init__(self, message)]. *)
Definition Exception_init (self : instance) (message : string) : instance :=
  mkInstance (class_of self) (attributes self) [Str message].

(** [VideoUnavailable.__init__(self, video_id)]. *)
Definition VideoUnavailable_init (self : instance) (video_id : value) : option instance :=
  let self := setattr self "video_id" video_id in
  message ← error_string self;
  Some (Exception_init self message).

(** [super().__init__(self.video_id)] in a subclass. *)
Definition super_init (self : instance) : option instance :=
  video_id ← attributes self !! "video_id";
  VideoUnavailable_init self video_id.

(** [RegexMatchError.__init__(self, caller, pattern)], for a pattern
    given as text. *)
Definition RegexMatchError_init (self : instance) (caller pattern : value) : instance :=
  let self :=
    Exception_init self (format caller +:+ ": could not find match for " +:+ format pattern) in
  let self := setattr self "caller" caller in
  setattr self "pattern" pattern.

(** [UnknownVideoError.__init__]: the instance, and the warnings it
    logs. *)
Definition UnknownVideoError_init (self : instance)
    (video_id status reason developer_message : value) : option instance * list string :=
  let self := setattr self "video_id" video_id in
  let self := setattr self "status" status in
  let self := setattr self "reason" reason in
  let self := setattr self "developer_message" developer_message in
  (super_init self,
   [ "Unknown Video Error";
     "Video ID: " +:+ format video_id;
     "Status: " +:+ format status;
     "Reason: " +:+ format reason;
     "Developer Message: " +:+ format developer_message;
     "Please open an issue at " +:+
     "https://github.com/JuanBindez/pytubefix/issues " +:+
     "and provide the above log output." ]).

(** The call [c(arguments)]: the new instance and the warnings logged on the way;
    [None] when the call raises, for a wrong number of arguments. *)
Definition new (c : class) (arguments : list value) : option (instance * list string) :=
  let self := mkInstance c ∅ arguments in
  match c with
  | PytubeError | MaxRetriesExceeded | HTMLParseError | ExtractError =>
      Some (self, [])
  | RegexMatchError =>
      match arguments with
      | [caller; pattern] => Some (RegexMatchError_init self caller pattern, [])
      | _ => None
      end
  | VideoUnavailable =>
      match arguments with
      | [video_id] => e ← VideoUnavailable_init self video_id; Some (e, [])
      | _ => None
      end
  | AgeRestrictedError | LiveStreamError | VideoPrivate | RecordingUnavailable
  | BotDetection | MembersOnly | VideoRegionBlocked | AgeCheckRequiredError
  | AgeCheckRequiredAccountError =>
      match arguments with
      | [video_id] => e ← super_init (setattr self "video_id" video_id); Some (e, [])
      | _ => None
      end
  | PoTokenRequired =>
      match arguments with
      | [video_id; client_name] =>
          e ← super_init (setattr (setattr self "video_id" video_id)
                                  "client_name" client_name);
          Some (e, [])
      | _ => None
      end
  | LoginRequired =>
      match arguments with
      | [video_id; reason] =>
          e ← super_init (setattr (setattr self "video_id" video_id) "reason" reason);
          Some (e, [])
      | _ => None
      end
  | UnknownVideoError =>
      let run v s r d :=
        let '(e, warnings) := UnknownVideoError_init self v s r d in
        e ← e; Some (e, warnings) in
      match arguments with
      | [v] => run v NoneValue NoneValue NoneValue
      | [v; s] => run v s NoneValue NoneValue
      | [v; s; r] => run v s r NoneValue
      | [v; s; r; d] => run v s r d
      | _ => None
      end
  end.

(** [str(e)] for an exception built with one positional argument. *)
Definition str (e : instance) : option string :=
  match args e with
  | [v] => Some (format v)
  | _ => None
  end.

End Exceptions.

(** ** A test double of the platform

    A small platform on which the functions run: plain urls without
    escapes, an ASCII codec, identity fronting, and a scripted network. On
    such urls its [urlsplit], [parse_qsl] and [urlencode] return what the
    [urllib.parse] functions of the same names return. *)

Module Mock.

Definition CR : byte := "013"%byte.
Definition LF : byte := "010"%byte.

Definition is_scheme_char (c : ascii) : bool :=
  let n := nat_of_ascii c in
  orb (orb (andb (Nat.leb 97 n) (Nat.leb n 122)) (andb (Nat.leb 65 n) (Nat.leb n 90)))
      (orb (is_digit c) (orb (Ascii.eqb c "+") (orb (Ascii.eqb c "-") (Ascii.eqb c ".")))).

Definition is_letter (c : ascii) : bool :=
  let n := nat_of_ascii c in
  orb (andb (Nat.leb 97 n) (Nat.leb n 122)) (andb (Nat.leb 65 n) (Nat.leb n 90)).

(** [s.split(c, 1)]: the text before the first [c] and the text after it. *)
Fixpoint cut (c : ascii) (s : string) : option (string * string) :=
  match s with
  | EmptyString => None
  | String x s' =>
      if Ascii.eqb x c then Some (EmptyString, s')
      else match cut c s' with
           | Some (l, r) => Some (String x l, r)
           | None => None
           end
  end.

Fixpoint all_chars (f : ascii -> bool) (s : string) : bool :=
  match s with
  | EmptyString => true
  | String x s' => andb (f x) (all_chars f s')
  end.

(** The text up to the first of [/], [?] and [#], and the rest. *)
Fixpoint split_netloc (s : string) : string * string :=
  match s with
  | EmptyString => (EmptyString, EmptyString)
  | String x s' =>
      if orb (Ascii.eqb x "/") (orb (Ascii.eqb x "?") (Ascii.eqb x "#"))
      then (EmptyString, s)
      else let '(l, r) := split_netloc s' in (String x l, r)
  end.

(** [url.lstrip(...)] of the control characters and the space. *)
Fixpoint strip_leading (url : string) : string :=
  match url with
  | String c url' => if Nat.leb (nat_of_ascii c) 32 then strip_leading url' else url
  | EmptyString => EmptyString
  end.

(** The url without its tabs, carriage returns and line feeds. *)
Fixpoint remove_unsafe (url : string) : string :=
  match url with
  | String c url' =>
      let n := nat_of_ascii c in
      if orb (Nat.eqb n 9) (orb (Nat.eqb n 10) (Nat.eqb n 13)) then remove_unsafe url'
      else String c (remove_unsafe url')
  | EmptyString => EmptyString
  end.

(** [urlsplit] on urls whose host has no bracket. *)
Definition plain_urlsplit (url : string) : exn + SplitResult :=
  let url := remove_unsafe (strip_leading url) in
  let '(scheme, url) :=
    match cut ":" url with
    | Some (String c l, r) =>
        if andb (is_letter c) (all_chars is_scheme_char l)
        then (lower (String c l), r) else (EmptyString, url)
    | _ => (EmptyString, url)
    end in
  let '(netloc, url) :=
    match url with
    | String "/" (String "/" rest) => split_netloc rest
    | _ => (EmptyString, url)
    end in
  let '(url, fragment) :=
    match cut "#" url with
    | Some (l, r) => (l, r)
    | None => (url, EmptyString)
    end in
  let '(url, query) :=
    match cut "?" url with
    | Some (l, r) => (l, r)
    | None => (url, EmptyString)
    end in
  inr (mkSplit scheme netloc url query fragment).

Fixpoint split_on (fuel : nat) (c : ascii) (s : string) : list string :=
  match fuel with
  | O => [s]
  | S fuel' =>
      match cut c s with
      | Some (l, r) => l :: split_on fuel' c r
      | None => [s]
      end
  end.

(** Fields without [=] or with an empty value are dropped, as
    [parse_qsl] does by default. *)
Definition plain_parse_qsl (qs : string) : list (string * string) :=
  flat_map
    (fun field =>
       match cut "=" field with
       | Some (k, v) => if String.eqb v "" then [] else [(k, v)]
       | None => []
       end)
    (split_on (String.length qs) "&" qs).

Definition qvalue_text (v : qvalue) : string :=
  match v with
  | QStr s => s
  | QInt n => str_of_int n
  end.

Fixpoint plain_urlencode (query : list (string * qvalue)) : string :=
  match query with
  | [] => ""
  | [(k, v)] => k +:+ "=" +:+ qvalue_text v
  | (k, v) :: query' => k +:+ "=" +:+ qvalue_text v +:+ "&" +:+ plain_urlencode query'
  end.

Definition decode_ascii (x : bytes) : exn + string :=
  if forallb (fun c => N.ltb (Byte.to_N c) 128) x
  then inr (String.string_of_list_byte x)
  else inl (OtherError "UnicodeDecodeError").

(** The platform resolver of the scenarios: one IPv4 stream entry. *)
Definition resolver (host : string) (port family type proto flags : Z)
    : exn + list addrinfo :=
  inr [mkAddrinfo 2 1 6 "" (addr2 "142.250.0.1" port)].

(** No scenario encodes a JSON body or decodes a DoH answer. *)
Definition platform (network : list Exchange -> Request -> Timeout -> exn + Response)
    : Platform :=
  {| get_ident := 0%nat;
     make_fronted_url := fun url => (url, None);
     split_redirector_url := fun url => [url];
     urlsplit := plain_urlsplit;
     parse_qsl := plain_parse_qsl;
     urlencode := plain_urlencode;
     json_dumps := fun _ => "{}";
     json_loads := fun _ => inl (OtherError "JSONDecodeError");
     decode_utf8 := decode_ascii;
     urlopen := network;
     _orig_getaddrinfo := resolver |}.

(** A server whose every connection times out. *)
Definition always_timeout (history : list Exchange) (request : Request)
    (timeout : Timeout) : exn + Response :=
  inl (URLError socket_timeout).

(** A server that refuses every request. *)
Definition forbidden (history : list Exchange) (request : Request)
    (timeout : Timeout) : exn + Response :=
  inl (HTTPError 403 "Forbidden").

Fixpoint find_file (url : string) (files : list (string * bytes)) : option bytes :=
  match files with
  | [] => None
  | (u, content) :: files' => if String.eqb url u then Some content else find_file url files'
  end.

(** A server of fixed files; every answer declares its length, and the
    answer to a [HEAD] request has no body. *)
Definition file_server (files : list (string * bytes)) (history : list Exchange)
    (request : Request) (timeout : Timeout) : exn + Response :=
  match find_file (full_url request) files with
  | Some content =>
      inr (mkResponse [("Content-Length", str_of_int (len content))]
                      (match method request with
                       | Some "HEAD" => []
                       | _ => content
                       end)
                      None)
  | None => inl (HTTPError 404 "Not Found")
  end.

Definition video_url : string := "http://example.com/v?x=1".

(** [urlsplit(video_url)]. *)
Definition video_split : SplitResult := mkSplit "http" "example.com" "/v" "x=1" "".

Definition segment_urls (n : nat) : string :=
  "http://example.com//v?x=1&sq=" +:+ str_of_int (Z.of_nat n).

(** Four segments, the first announcing three more. *)
Definition segment_body (k : nat) : bytes :=
  match k with
  | 0%nat => b "Segment-Count: 3" ++ [CR; LF] ++ b "header"
  | 1%nat => b "first"
  | 2%nat => b "second"
  | _ => b "third"
  end.

Definition segmented : list (string * bytes) :=
  map (fun k => (segment_urls k, segment_body k)) [0; 1; 2; 3]%nat.

(** What [file_server segmented] answers to a [GET] and to a [HEAD] of
    segment [k]. *)
Definition segment_response (k : nat) : Response :=
  mkResponse [("Content-Length", str_of_int (len (segment_body k)))] (segment_body k) None.

Definition segment_head (k : nat) : Response :=
  mkResponse [("Content-Length", str_of_int (len (segment_body k)))] [] None.

(** A thread whose last url is a DoH lookup. *)
Definition probe_state : State :=
  mkState {[ 0%nat := "https://www.google.com/resolve?name=r1.example" ]} ∅ [] [] [] [] [].

(** A caller that owns one header dictionary, at location 0. *)
Definition caller_state : State :=
  mkState ∅ {[ 0%nat := {[ "X-Client" := "1" ]} ]} [] [] [] [] [].

(** A first segment that announces nothing. *)
Definition unannounced : list (string * bytes) :=
  [ (segment_urls 0, b "no marker here") ].

(** A first segment that announces zero segments. *)
Definition announces_zero : list (string * bytes) :=
  [ (segment_urls 0, b "Segment-Count: 0") ].

Definition plain_file : list (string * bytes) :=
  [ (video_url, b "0123456789");
    ("http://example.com/v?x=1&range=5-99999999999", b "56789") ].

(** An answer whose single entry points at itself. *)
Definition self_referring : dns_json :=
  mkDns (Some ["loop.example."]) (Some [mkEntry "loop.example." "loop.example."]).

(** An alias followed by its address. *)
Definition aliased : dns_json :=
  mkDns (Some ["r1.example."])
        (Some [mkEntry "r1.example." "r1.l.example."; mkEntry "r1.l.example." "203.0.113.7"]).

Definition answer_rank (s : string) : nat :=
  if String.eqb s "r1.example." then 2%nat
  else if String.eqb s "r1.l.example." then 1%nat else 0%nat.

(** The opener of [urllib]: it knows the http and https schemes and
    refuses every other one before any connection is made. *)
Definition opener (files : list (string * bytes)) (history : list Exchange)
    (request : Request) (timeout : Timeout) : exn + Response :=
  match plain_urlsplit (full_url request) with
  | inr parts =>
      if orb (String.eqb (scheme parts) "http") (String.eqb (scheme parts) "https")
      then file_server files history request timeout
      else inl (URLError (other_reason ("unknown url type: " +:+ scheme parts)))
  | inl e => inl e
  end.

(** A server whose connection breaks after four bytes of a body declared
    to be ten bytes long. *)
Definition breaking (history : list Exchange) (request : Request) (timeout : Timeout)
    : exn + Response :=
  inr (mkResponse [("Content-Length", "10")] (b "0123") (Some IncompleteRead)).

(** The platforms of the scenarios. *)
Definition timing_out : Platform := platform always_timeout.
Definition refusing : Platform := platform forbidden.
Definition segments : Platform := platform (file_server segmented).
Definition silent : Platform := platform (file_server unannounced).
Definition zero : Platform := platform (file_server announces_zero).
Definition plain : Platform := platform (file_server plain_file).
Definition broken_link : Platform := platform breaking.
Definition strict : Platform := platform (opener plain_file).

(** A server whose first [failures] connections time out and which serves
    the files afterwards. *)
Definition flaky (failures : nat) (files : list (string * bytes)) (history : list Exchange)
    (request : Request) (timeout : Timeout) : exn + Response :=
  if Nat.ltb (length history) failures then inl (URLError socket_timeout)
  else file_server files history request timeout.

(** A server whose answers carry no header. *)
Definition headerless (history : list Exchange) (request : Request) (timeout : Timeout)
    : exn + Response :=
  inr (mkResponse [] (b "0123456789") None).

(** A server that declares ten bytes and delivers four, without a
    failure. *)
Definition short_body (history : list Exchange) (request : Request) (timeout : Timeout)
    : exn + Response :=
  inr (mkResponse [("Content-Length", "10")] (b "0123") None).

(** A server whose declared length is not a number. *)
Definition unreadable_length (history : list Exchange) (request : Request)
    (timeout : Timeout) : exn + Response :=
  inr (mkResponse [("Content-Length", "ten")] (b "0123") None).

(** A server that declares ten bytes and delivers none. *)
Definition empty_body (history : list Exchange) (request : Request) (timeout : Timeout)
    : exn + Response :=
  inr (mkResponse [("Content-Length", "10")] [] None).

(** A server that states the length twice, differently. *)
Definition two_lengths (history : list Exchange) (request : Request) (timeout : Timeout)
    : exn + Response :=
  inr (mkResponse [("Content-Length", "10"); ("content-length", "20")]
                  (match method request with
                   | Some "HEAD" => []
                   | _ => b "0123456789"
                   end)
                  None).

(** The first two of the four segments: the others are not found. *)
Definition half_served : list (string * bytes) := firstn 2 segmented.

(** A table of [filesize] with 128 entries. *)
Definition full_cache : list (string * Z) :=
  map (fun n => ("http://example.com/" +:+ str_of_int (Z.of_nat n), 7)) (seq 0 128).

Definition full_state : State := mkState ∅ ∅ [] [] [] full_cache [].

(** The DoH answer for a media host: an alias, then its address. *)
Definition media_answer : dns_json :=
  mkDns (Some ["r1.googlevideo.com."])
        (Some [mkEntry "r1.googlevideo.com." "r1.l.google.com.";
               mkEntry "r1.l.google.com." "203.0.113.7"]).

Definition media_text : string := "{doh answer for r1.googlevideo.com}".

(** The resolver behind the fronted lookup url. *)
Definition doh_server (history : list Exchange) (request : Request) (timeout : Timeout)
    : exn + Response :=
  if String.eqb (full_url request) "https://www.google.com/resolve?name=r1.googlevideo.com"
  then inr (mkResponse [] (b media_text) None)
  else inl (HTTPError 404 "Not Found").

(** A network on which the resolver is not found. *)
Definition forbidden_lookup (history : list Exchange) (request : Request)
    (timeout : Timeout) : exn + Response :=
  inl (HTTPError 404 "Not Found").

(** A platform that reads the host of a media url and parses the one
    DoH answer above. *)
Definition resolving : Platform :=
  {| get_ident := 0%nat;
     make_fronted_url := fun url => (url, None);
     split_redirector_url :=
       fun url => match plain_urlsplit url with
                  | inr parts => [netloc parts]
                  | inl _ => []
                  end;
     urlsplit := plain_urlsplit;
     parse_qsl := plain_parse_qsl;
     urlencode := plain_urlencode;
     json_dumps := fun _ => "{}";
     json_loads := fun text => if String.eqb text media_text then inr media_answer
                               else inl (OtherError "JSONDecodeError");
     decode_utf8 := decode_ascii;
     urlopen := doh_server;
     _orig_getaddrinfo := resolver |}.

Definition media_url : string := "https://r1.googlevideo.com/videoplayback?id=1".

(** A thread whose last url is that of a media host. *)
Definition media_state : State :=
  mkState {[ 0%nat := media_url ]} ∅ [] [] [] [] [].

(** The same thread, with the address of the host in the table. *)
Definition media_cached : State :=
  mkState {[ 0%nat := media_url ]} ∅ [] [] [("r1.googlevideo.com", "203.0.113.7")] [] [].

Definition recovering : Platform := platform (flaky 2 plain_file).
Definition bare : Platform := platform headerless.
Definition short : Platform := platform short_body.
Definition unreadable : Platform := platform unreadable_length.
Definition stalling : Platform := platform empty_body.
Definition doubled : Platform := platform two_lengths.
Definition halved : Platform := platform (file_server half_served).

Definition unreachable : Platform := platform forbidden_lookup.

End Mock.

(** * Properties *)

Arguments _execute_request : simpl never.
Arguments build_request : simpl never.
Arguments stream : simpl never.
Arguments head : simpl never.

(** ** Running a sequence *)

Lemma bind_Return {A B} (m : M A) (k : A -> M B) st ys a st' :
  m st = Run ys (Return a) st' ->
  bind m k st = Run (ys ++ yielded (k a st')) (result (k a st')) (final (k a st')).
Proof. intros H. unfold bind. rewrite H. reflexivity. Qed.

Lemma bind_Raise {A B} (m : M A) (k : A -> M B) st ys e st' :
  m st = Run ys (Raise e) st' -> bind m k st = Run ys (Raise e) st'.
Proof. intros H. unfold bind. rewrite H. reflexivity. Qed.

Lemma bind_OutOfFuel {A B} (m : M A) (k : A -> M B) st ys st' :
  m st = Run ys OutOfFuel st' -> bind m k st = Run ys OutOfFuel st'.
Proof. intros H. unfold bind. rewrite H. reflexivity. Qed.

(** A pure step in front of a computation. *)
Lemma bind_pure {A B} (m : M A) (k : A -> M B) st a st' :
  m st = Run [] (Return a) st' -> bind m k st = k a st'.
Proof. intros H. rewrite (bind_Return _ _ _ _ _ _ H). cbn. destruct (k a st'); reflexivity. Qed.

Lemma run_eta {A} (r : run A) : Run (yielded r) (result r) (final r) = r.
Proof. destruct r; reflexivity. Qed.

(** ** The executor *)

Section Executor.
Context {P : Platform}.

(** What a call of the executor does: it records the url, then either
    refuses it or opens it and records the call. *)
Lemma execute_request_run url method headers data timeout st :
  _execute_request url method headers data timeout st =
  let request := build_request url method headers data in
  let st1 := set_last_url <[get_ident := url]> st in
  if recognized request then
    Run [] (match urlopen (log st) request timeout with
            | inl e => Raise e
            | inr response => Return response
            end)
        (set_log (fun l => l ++ [(request, timeout)]) st1)
  else Run [] (Raise (ValueError "Invalid URL")) st1.
Proof.
  unfold _execute_request, recognized, bind, modify. cbn.
  destruct (startswith _ _); reflexivity.
Qed.

Lemma execute_request_yields url method headers data timeout st :
  yielded (_execute_request url method headers data timeout st) = [].
Proof. rewrite execute_request_run. cbn. destruct (recognized _); reflexivity. Qed.

Lemma execute_request_heap url method headers data timeout st :
  heap (final (_execute_request url method headers data timeout st)) = heap st.
Proof. rewrite execute_request_run. cbn. destruct (recognized _); reflexivity. Qed.

(** A refused url never reaches the network. *)
Lemma execute_request_refused url method headers data timeout st :
  recognized (build_request url method headers data) = false ->
  _execute_request url method headers data timeout st =
  Run [] (Raise (ValueError "Invalid URL")) (set_last_url <[get_ident := url]> st).
Proof. intros H. rewrite execute_request_run. cbn. rewrite H. reflexivity. Qed.

Lemma execute_request_opened url method headers data timeout st :
  recognized (build_request url method headers data) = true ->
  _execute_request url method headers data timeout st =
  Run [] (match urlopen (log st) (build_request url method headers data) timeout with
          | inl e => Raise e
          | inr response => Return response
          end)
      (set_log (fun l => l ++ [(build_request url method headers data, timeout)])
               (set_last_url <[get_ident := url]> st)).
Proof. intros H. rewrite execute_request_run. cbn. rewrite H. reflexivity. Qed.

(** C10. [post] updates the caller's header dictionary in place: whatever
    the outcome of the call, the dictionary the caller passed holds
    ['Content-Type': 'application/json'] afterwards, so it is changed
    unless it held that entry already. *)
Theorem post_mutates_caller_headers url (l : loc) (d : gmap string string)
    payload timeout st :
  heap st !! l = Some d ->
  let r := post url (Some l) payload timeout st in
  heap (final r) !! l = Some (<["Content-Type" := "application/json"]> d) /\
  (d !! "Content-Type" <> Some "application/json" -> heap (final r) !! l <> Some d).
Proof.
  intros Hl r.
  assert (Hr : heap (final r) !! l = Some (<["Content-Type" := "application/json"]> d)).
  { subst r. unfold post.
    erewrite bind_pure; cycle 1.
    { unfold bind, deref, get_state, modify, ret. cbn. rewrite Hl. reflexivity. }
    unfold bind.
    match goal with
    | |- context [_execute_request ?u ?m ?h ?dd ?t ?s] =>
        pose proof (execute_request_heap u m h dd t s) as Hh;
        destruct (_execute_request u m h dd t s) as [ys [a|e|] st']
    end; cbn in *.
    - unfold read_all. destruct (failure a); cbn; [rewrite Hh; apply lookup_insert_eq|].
      destruct (decode_utf8 (body a)); cbn; rewrite Hh; apply lookup_insert_eq.
    - rewrite Hh. apply lookup_insert_eq.
    - rewrite Hh. apply lookup_insert_eq. }
  split; [exact Hr|].
  intros Hne Heq. rewrite Hr in Heq. inversion Heq as [Hd].
  apply Hne. rewrite <- Hd. apply lookup_insert_eq.
Qed.

End Executor.

(** ** The address override and the DoH answer chain *)

Section Resolver.
Context {P : Platform}.

Lemma contains_nonempty needle hay :
  needle <> "" -> contains needle hay = true -> String.eqb hay "" = false.
Proof.
  intros Hn Hc. destruct hay; [|reflexivity].
  destruct needle; [congruence|]. cbn in Hc. discriminate.
Qed.

(** C8, as amended. When the url recorded for the current thread contains
    the DoH lookup path and the platform resolver, which the override
    consults first, has answered, the override returns a single entry whose
    address is the fixed ['216.239.36.36'], port 443, whatever address the
    platform gave. Apart from the record of that one platform lookup the
    state is as it was: no request is sent, so no DoH round trip takes
    place, and the resolver cache is not touched. *)
Theorem probe_resolves_to_fixed_address fuel host port family type proto flags
    st url entry others :
  last_url st !! get_ident = Some url ->
  contains "/resolve" url = true ->
  _orig_getaddrinfo host port family type proto flags = inr (entry :: others) ->
  let r := _patched_getaddrinfo fuel host port family type proto flags st in
  result r =
    Return [mkAddrinfo (ai_family entry) (ai_type entry) (ai_proto entry)
                       (ai_canonname entry) (addr2 "216.239.36.36" 443)] /\
  final r = set_lookups (fun l => l ++ [(host, port)]) st /\
  log (final r) = log st /\
  dns_cache (final r) = dns_cache st.
Proof.
  intros Hurl Hprobe Hres r. subst r.
  unfold _patched_getaddrinfo, do_getaddrinfo. rewrite Hres.
  unfold bind, lift, ret, get_state, modify. cbn. rewrite Hurl.
  rewrite (contains_nonempty "/resolve" url) by (congruence || assumption).
  rewrite Hprobe. cbn. auto.
Qed.

(** The override gives nothing when the platform resolver fails, even for
    the lookup url of the resolver. *)
Lemma probe_resolver_failure_propagates fuel host port family type proto flags st e :
  _orig_getaddrinfo host port family type proto flags = inl e ->
  result (_patched_getaddrinfo fuel host port family type proto flags st) = Raise e.
Proof.
  intros Hres. unfold _patched_getaddrinfo, do_getaddrinfo. rewrite Hres. reflexivity.
Qed.

Lemma chain_trans answers x y z :
  chain answers x y -> chain answers y z -> chain answers x z.
Proof.
  induction 1 as [x|x y w Hl Hc IH]; intros Hz; [assumption|].
  eapply chain_step; [exact Hl|]. apply IH. assumption.
Qed.

Lemma chain_link answers x y : links answers x y -> chain answers x y.
Proof. intros Hl. eapply chain_step; [exact Hl|apply chain_refl]. Qed.

(** One pass over the entries. The working value only moves along links;
    a pass that matched has moved it strictly down any rank that the
    entries decrease, and a pass without a match has left a value that no
    entry names. *)
Lemma scan_answers_spec (rank : string -> nat) all answers :
  (forall answer, In answer answers -> In answer all) ->
  (forall answer, In answer all -> (rank (data_ answer) < rank (name answer))%nat) ->
  forall ip search,
    let r := scan_answers answers ip search in
    chain all ip (fst r) /\
    (rank (fst r) <= rank ip)%nat /\
    (snd r = true -> search = true \/ (rank (fst r) < rank ip)%nat) /\
    (snd r = false ->
       search = false /\ fst r = ip /\
       forall answer, In answer answers -> name answer <> ip).
Proof.
  intros Hsub Hrank. induction answers as [|a answers IH]; intros ip search r.
  - subst r. cbn. split; [apply chain_refl|]. split; [lia|]. split.
    + intros ->. left; reflexivity.
    + intros ->. split; [reflexivity|]. split; [reflexivity|]. intros ? [].
  - assert (Hsub' : forall answer, In answer answers -> In answer all).
    { intros x Hx. apply Hsub. right. exact Hx. }
    specialize (IH Hsub').
    subst r. unfold scan_answers. cbn [fold_left fst].
    destruct (String.eqb ip (name a)) eqn:Heq.
    + apply String.eqb_eq in Heq. subst ip.
      specialize (IH (data_ a) true). cbn zeta in IH.
      unfold scan_answers in IH.
      destruct IH as (Hc & Hle & _ & Hf).
      assert (Ha : In a all) by (apply Hsub; left; reflexivity).
      pose proof (Hrank a Ha) as Hlt.
      split; [eapply chain_step; [|exact Hc]; exists a; auto|].
      split; [lia|]. split.
      * intros _. right. lia.
      * intros H0. apply Hf in H0. destruct H0 as [H0 _]. discriminate.
    + apply String.eqb_neq in Heq.
      specialize (IH ip search). cbn zeta in IH. unfold scan_answers in IH.
      destruct IH as (Hc & Hle & Ht & Hf).
      split; [assumption|]. split; [assumption|]. split; [assumption|].
      intros H0. apply Hf in H0. destruct H0 as (Hs & He & Hn).
      split; [assumption|]. split; [assumption|].
      intros x [<-|Hx]; [congruence|]. apply Hn. exact Hx.
Qed.

Lemma follow_answers_more_fuel answers fuel :
  forall ip resolved,
    follow_answers fuel answers ip = Return resolved ->
    forall fuel', (fuel <= fuel')%nat -> follow_answers fuel' answers ip = Return resolved.
Proof.
  induction fuel as [|fuel IH]; intros ip resolved H fuel' Hle; [discriminate|].
  destruct fuel' as [|fuel']; [lia|]. cbn in *.
  destruct (scan_answers answers ip false) as [ip' [|]]; [|assumption].
  apply IH with (fuel' := fuel') in H; [assumption|lia].
Qed.

Lemma follow_answers_terminates (rank : string -> nat) answers :
  (forall answer, In answer answers -> (rank (data_ answer) < rank (name answer))%nat) ->
  forall fuel ip, (rank ip < fuel)%nat ->
    exists resolved,
      follow_answers fuel answers ip = Return resolved /\
      chain answers ip resolved /\
      (forall answer, In answer answers -> name answer <> resolved).
Proof.
  intros Hrank. induction fuel as [|fuel IH]; intros ip Hlt; [lia|].
  cbn. pose proof (scan_answers_spec rank answers answers (fun _ H => H) Hrank ip false) as Hs.
  cbn zeta in Hs. destruct (scan_answers answers ip false) as [ip' [|]]; cbn in Hs.
  - destruct Hs as (Hc & _ & Ht & _). destruct (Ht eq_refl) as [?|Hdown]; [discriminate|].
    destruct (IH ip') as (resolved & Hr & Hc' & Hn); [lia|].
    exists resolved. repeat split; try assumption.
    eapply chain_trans; eassumption.
  - destruct Hs as (Hc & _ & _ & Hf). destruct (Hf eq_refl) as (_ & -> & Hn).
    exists ip. repeat split; [apply chain_refl|assumption].
Qed.

(** C9, as amended. For a well-formed answer whose entries decrease some
    rank from name to data (the name-to-data links have no cycle), the
    chain-following loop terminates: with enough fuel it returns one value,
    reached from [Question[0].name] along links of the answer, which no
    entry names. *)
Theorem dns_chain_terminates (json_data : dns_json) ip questions answers
    (rank : string -> nat) :
  Question json_data = Some (ip :: questions) ->
  Answer json_data = Some answers ->
  (forall answer, In answer answers -> (rank (data_ answer) < rank (name answer))%nat) ->
  exists resolved,
    (forall fuel, (rank ip < fuel)%nat ->
       _read_ip_from_dns_answer fuel json_data = Return resolved) /\
    chain answers ip resolved /\
    (forall answer, In answer answers -> name answer <> resolved).
Proof.
  intros Hq Ha Hrank.
  destruct (follow_answers_terminates rank answers Hrank (S (rank ip)) ip) as
    (resolved & Hr & Hc & Hn); [lia|].
  exists resolved. repeat split; try assumption.
  intros fuel Hfuel. unfold _read_ip_from_dns_answer. rewrite Hq, Ha.
  eapply follow_answers_more_fuel; [exact Hr|lia].
Qed.

(** An entry that names itself keeps the loop running for ever. *)
Lemma follow_self_reference fuel :
  follow_answers fuel [mkEntry "loop.example." "loop.example."] "loop.example." = OutOfFuel.
Proof. induction fuel as [|fuel IH]; [reflexivity|]. cbn. exact IH. Qed.

End Resolver.

(** ** The chunked retrying reader *)

Section Stream.
Context {P : Platform}.

(** One turn of the retry loop while the budget lasts. *)
Lemma attempt_loop_step fuel url timeout max_retries start tries st :
  tries < 1 + max_retries ->
  attempt_loop (S fuel) url timeout max_retries start tries st =
  let r := attempt url timeout start st in
  match result r with
  | Return response => Run [] (Return response) (final r)
  | Raise (URLError socket_timeout) =>
      attempt_loop fuel url timeout max_retries start (tries + 1) (final r)
  | Raise IncompleteRead =>
      attempt_loop fuel url timeout max_retries start (tries + 1) (final r)
  | Raise e => Run [] (Raise e) (final r)
  | OutOfFuel => Run [] OutOfFuel (final r)
  end.
Proof.
  intros Hlt. cbn [attempt_loop].
  replace (1 + max_retries <=? tries) with false by (symmetry; apply Z.leb_gt; lia).
  unfold try_except, attempt. cbn zeta.
  pose proof (execute_request_yields (url +:+ range_suffix start) (Some "GET") None
                (DataJson JNull) timeout st) as Hy.
  destruct (_execute_request _ _ _ _ _ st) as [ys [response|e|] st']; cbn in *; subst ys.
  - reflexivity.
  - destruct e as [[|]| | | | | | | | | |]; cbn; try reflexivity; apply run_eta.
  - reflexivity.
Qed.

Lemma attempt_loop_exhausted fuel url timeout max_retries start tries st :
  1 + max_retries <= tries ->
  attempt_loop (S fuel) url timeout max_retries start tries st =
  Run [] (Raise MaxRetriesExceeded) st.
Proof.
  intros Hle. cbn [attempt_loop].
  replace (1 + max_retries <=? tries) with true by (symmetry; apply Z.leb_le; lia).
  reflexivity.
Qed.

Lemma attempt_loop_yields fuel url timeout max_retries start :
  forall tries st, yielded (attempt_loop fuel url timeout max_retries start tries st) = [].
Proof.
  induction fuel as [|fuel IH]; intros tries st; [reflexivity|].
  destruct (Z_lt_le_dec tries (1 + max_retries)) as [Hlt|Hle].
  - rewrite attempt_loop_step by assumption. cbn zeta.
    destruct (result _) as [response|e|]; try reflexivity.
    destruct e as [[|]| | | | | | | | | |]; try reflexivity; apply IH.
  - rewrite attempt_loop_exhausted by assumption. reflexivity.
Qed.

(** Whatever ends the retry loop with an exception ends this turn of the
    download loop with the same exception, before any chunk is read. *)
Lemma stream_loop_raises fuel url timeout max_retries start file_size downloaded st e :
  downloaded < file_size ->
  result (attempt_loop fuel url timeout max_retries start 0 st) = Raise e ->
  stream_loop (S fuel) url timeout max_retries start file_size downloaded st =
  Run [] (Raise e) (final (attempt_loop fuel url timeout max_retries start 0 st)).
Proof.
  intros Hlt He. cbn [stream_loop].
  replace (downloaded <? file_size) with true by (symmetry; apply Z.ltb_lt; lia).
  pose proof (attempt_loop_yields fuel url timeout max_retries start 0 st) as Hy.
  destruct (attempt_loop fuel url timeout max_retries start 0 st) as [ys o st'] eqn:Hrun.
  cbn in *. subst. erewrite bind_Raise; [reflexivity|]. exact Hrun.
Qed.

(** C2. Inside the retry loop exactly two failures of an attempt are
    retried: a [URLError] whose reason is a socket timeout, and
    [IncompleteRead]; the loop then goes on with one more try counted and
    raises nothing at that point. Any other exception leaves the loop at
    once, unchanged, in the state the failed attempt left (no further
    attempt, no try counted), and leaves [stream] without a chunk being
    yielded in between. *)
Theorem stream_transient_errors fuel url timeout max_retries start tries st e :
  tries < 1 + max_retries ->
  result (_execute_request (url +:+ range_suffix start) (Some "GET") None
                           (DataJson JNull) timeout st) = Raise e ->
  let failed := final (_execute_request (url +:+ range_suffix start) (Some "GET") None
                                        (DataJson JNull) timeout st) in
  (e = URLError socket_timeout \/ e = IncompleteRead ->
   attempt_loop (S fuel) url timeout max_retries start tries st =
   attempt_loop fuel url timeout max_retries start (tries + 1) failed) /\
  (e <> URLError socket_timeout -> e <> IncompleteRead ->
   attempt_loop (S fuel) url timeout max_retries start tries st = Run [] (Raise e) failed) /\
  (forall fuel0 st0 file_size downloaded,
     attempt_loop fuel0 url timeout max_retries start 0 st0 =
     attempt_loop (S fuel) url timeout max_retries start tries st ->
     downloaded < file_size ->
     e <> URLError socket_timeout -> e <> IncompleteRead ->
     stream_loop (S fuel0) url timeout max_retries start file_size downloaded st0 =
     Run [] (Raise e) failed).
Proof.
  intros Hlt He failed.
  pose proof (attempt_loop_step fuel url timeout max_retries start tries st Hlt) as Hstep.
  cbn zeta in Hstep. unfold attempt in Hstep. rewrite He in Hstep. fold failed in Hstep.
  assert (Hother : e <> URLError socket_timeout -> e <> IncompleteRead ->
            attempt_loop (S fuel) url timeout max_retries start tries st =
            Run [] (Raise e) failed).
  { intros H1 H2. rewrite Hstep.
    destruct e as [[|]| | | | | | | | | |]; try reflexivity; congruence. }
  split; [|split].
  - intros [->| ->]; exact Hstep.
  - exact Hother.
  - intros fuel0 st0 file_size downloaded Hreach Hd H1 H2.
    rewrite stream_loop_raises with (e := e) by (rewrite ?Hreach, ?Hother; auto).
    rewrite Hreach, Hother by assumption. reflexivity.
Qed.

(** With every connection timing out, the retry loop spends its whole
    budget: [k] tries are left, [k] calls are made, then it gives up. *)
Lemma attempt_loop_all_timeouts url timeout max_retries start :
  recognized (stream_request url start) = true ->
  (forall history,
     urlopen history (stream_request url start) timeout = inl (URLError socket_timeout)) ->
  forall (k fuel : nat) tries st,
    (k < fuel)%nat -> tries + Z.of_nat k = 1 + max_retries ->
    let r := attempt_loop fuel url timeout max_retries start tries st in
    result r = Raise MaxRetriesExceeded /\ yielded r = [] /\
    log (final r) = log st ++ repeat (stream_request url start, timeout) k.
Proof.
  intros Hrec Hnet. induction k as [|k IH]; intros fuel tries st Hfuel Hk r; subst r.
  - destruct fuel as [|fuel]; [lia|].
    rewrite attempt_loop_exhausted by lia. cbn.
    rewrite app_nil_r. auto.
  - destruct fuel as [|fuel]; [lia|].
    rewrite attempt_loop_step by lia. cbn zeta. unfold attempt.
    rewrite execute_request_opened by exact Hrec.
    fold (stream_request url start). rewrite Hnet. cbn [result final].
    destruct (IH fuel (tries + 1)
                (set_log (fun l => l ++ [(stream_request url start, timeout)])
                         (set_last_url <[get_ident := url +:+ range_suffix start]> st)))
      as (Hr & Hy & Hl); [lia|lia|].
    split; [exact Hr|]. split; [exact Hy|].
    rewrite Hl. cbn [log set_log set_last_url repeat].
    rewrite <- app_assoc. reflexivity.
Qed.

(** C1. If the url is accepted by the executor and every connection times
    out, [stream] with [max_retries = n >= 0] makes exactly [n + 1] calls
    and then raises [MaxRetriesExceeded], having yielded nothing. *)
Theorem stream_retry_exhaustion fuel url timeout max_retries start st :
  0 <= max_retries ->
  recognized (stream_request url start) = true ->
  (forall history,
     urlopen history (stream_request url start) timeout = inl (URLError socket_timeout)) ->
  (Z.to_nat max_retries + 3 <= fuel)%nat ->
  let r := stream fuel url timeout max_retries start st in
  result r = Raise MaxRetriesExceeded /\
  yielded r = [] /\
  log (final r) =
    log st ++ repeat (stream_request url start, timeout) (Z.to_nat (max_retries + 1)) /\
  len (log (final r)) = len (log st) + (max_retries + 1).
Proof.
  intros Hn Hrec Hnet Hfuel r. subst r.
  destruct fuel as [|fuel]; [lia|].
  destruct (attempt_loop_all_timeouts url timeout max_retries start Hrec Hnet
              (Z.to_nat (max_retries + 1)) fuel 0 st) as (Hr & Hy & Hl); [lia|lia|].
  unfold stream.
  rewrite stream_loop_raises with (e := MaxRetriesExceeded)
    by (try exact Hr; unfold default_range_size; lia).
  cbn [result yielded final]. split; [reflexivity|]. split; [reflexivity|].
  split; [exact Hl|].
  rewrite Hl. unfold len. rewrite length_app, repeat_length. lia.
Qed.

(** ** Where the range travels *)

Lemma repeats_refl ex st : repeats ex st st.
Proof. exists 0%nat. cbn. rewrite app_nil_r. reflexivity. Qed.

Lemma repeats_trans ex st1 st2 st3 :
  repeats ex st1 st2 -> repeats ex st2 st3 -> repeats ex st1 st3.
Proof.
  intros [k1 H1] [k2 H2]. exists (k1 + k2)%nat.
  rewrite H2, H1, <- app_assoc, repeat_app. reflexivity.
Qed.

Lemma repeats_bind {A B} ex (m : M A) (k : A -> M B) st :
  repeats ex st (final (m st)) ->
  (forall a st1, repeats ex st1 (final (k a st1))) ->
  repeats ex st (final (bind m k st)).
Proof.
  intros Hm Hk. unfold bind.
  destruct (m st) as [ys [a|e|] st1]; cbn in *; try assumption.
  eapply repeats_trans; [exact Hm|apply Hk].
Qed.

Lemma attempt_repeats url timeout start st :
  repeats (stream_request url start, timeout) st (final (attempt url timeout start st)).
Proof.
  unfold attempt. rewrite execute_request_run. cbn zeta.
  fold (stream_request url start).
  destruct (recognized _); cbn.
  - exists 1%nat. reflexivity.
  - exists 0%nat. cbn. rewrite app_nil_r. reflexivity.
Qed.

Lemma attempt_loop_repeats fuel url timeout max_retries start :
  forall tries st,
    repeats (stream_request url start, timeout) st
            (final (attempt_loop fuel url timeout max_retries start tries st)).
Proof.
  induction fuel as [|fuel IH]; intros tries st; [apply repeats_refl|].
  destruct (Z_lt_le_dec tries (1 + max_retries)) as [Hlt|Hle].
  - rewrite attempt_loop_step by assumption. cbn zeta.
    pose proof (attempt_repeats url timeout start st) as Ha.
    destruct (result _) as [response|e|]; try exact Ha.
    destruct e as [[|]| | | | | | | | | |]; try exact Ha;
      (eapply repeats_trans; [exact Ha|apply IH]).
  - rewrite attempt_loop_exhausted by assumption. apply repeats_refl.
Qed.

Lemma read_loop_state fuel broken :
  forall rest downloaded st, final (read_loop fuel broken rest downloaded st) = st.
Proof.
  induction fuel as [|fuel IH]; intros rest downloaded st; [reflexivity|].
  cbn [read_loop]. destruct (firstn chunk_size rest) as [|x chunk];
    [destruct broken; reflexivity|].
  unfold bind, yield_. cbn.
  specialize (IH (skipn chunk_size rest) (downloaded + len (x :: chunk)) st).
  destruct (read_loop fuel _ _ _ st) as [ys [a|e|] st']; cbn in *; exact IH.
Qed.

Lemma stream_loop_repeats fuel url timeout max_retries start :
  forall file_size downloaded st,
    repeats (stream_request url start, timeout) st
            (final (stream_loop fuel url timeout max_retries start file_size downloaded st)).
Proof.
  induction fuel as [|fuel IH]; intros file_size downloaded st; [apply repeats_refl|].
  cbn [stream_loop]. destruct (downloaded <? file_size); [|apply repeats_refl].
  apply repeats_bind; [apply attempt_loop_repeats|]. intros response st1.
  apply repeats_bind.
  { destruct (file_size =? default_range_size); [|apply repeats_refl].
    destruct (message_get _ _); [|apply repeats_refl].
    destruct (py_int _); apply repeats_refl. }
  intros sizes st2. apply repeats_bind.
  { rewrite read_loop_state. apply repeats_refl. }
  intros downloaded' st3. apply IH.
Qed.

Lemma append_empty s : s +:+ "" = s.
Proof.
  induction s as [|c s IH]; [reflexivity|].
  change (String c (s +:+ "") = String c s). rewrite IH. reflexivity.
Qed.

Lemma stream_request_headers url start k :
  lower k = "range" -> headers (stream_request url start) !! k = None.
Proof.
  intros Hk. unfold stream_request, build_request.
  destruct (make_fronted_url _) as [front_url [h|]]; cbn.
  - rewrite !lookup_insert_ne; [apply lookup_empty| | |]; intros <-; discriminate.
  - rewrite !lookup_insert_ne; [apply lookup_empty| |]; intros <-; discriminate.
Qed.

(** C3, as amended. Every call [stream] makes is the same [GET] request,
    built from the url followed by ['&range=<start_byte_pos>-99999999999']
    when [start_byte_pos] is not 0 and from the url itself when it is 0: the
    range travels in the query string, and the request has no [Range]
    header in either case. *)
Theorem stream_range_in_url fuel url timeout max_retries start st :
  (exists k : nat,
     log (final (stream fuel url timeout max_retries start st)) =
     log st ++ repeat (stream_request url start, timeout) k) /\
  method (stream_request url start) = Some "GET" /\
  full_url (stream_request url start) =
    fst (make_fronted_url (url +:+ range_suffix start)) /\
  (forall k, lower k = "range" -> headers (stream_request url start) !! k = None) /\
  (start <> 0 ->
   url +:+ range_suffix start = url +:+ "&range=" +:+ str_of_int start +:+ "-99999999999") /\
  (start = 0 -> url +:+ range_suffix start = url).
Proof.
  split; [apply stream_loop_repeats|].
  split; [unfold stream_request, build_request; destruct (make_fronted_url _); reflexivity|].
  split; [unfold stream_request, build_request; destruct (make_fronted_url _); reflexivity|].
  split; [apply stream_request_headers|].
  split.
  - intros Hs. unfold range_suffix.
    replace (start =? 0) with false by (symmetry; apply Z.eqb_neq; exact Hs). reflexivity.
  - intros ->. cbn. apply append_empty.
Qed.

End Stream.

(** ** Urls the executor refuses *)

Section Refusal.
Context {P : Platform}.

Lemma recognized_build_request url method headers data :
  recognized (build_request url method headers data) = accepts url.
Proof.
  unfold recognized, accepts, build_request.
  destruct (make_fronted_url url) as [front_url host]. reflexivity.
Qed.

Lemma execute_request_refuses url method headers data timeout st :
  accepts url = false ->
  _execute_request url method headers data timeout st =
  Run [] (Raise (ValueError "Invalid URL")) (set_last_url <[get_ident := url]> st).
Proof.
  intros H. apply execute_request_refused. rewrite recognized_build_request. exact H.
Qed.

Lemma head_refuses url st :
  accepts url = false ->
  head url st = Run [] (Raise (ValueError "Invalid URL")) (set_last_url <[get_ident := url]> st).
Proof.
  intros H. unfold head. erewrite bind_Raise; [reflexivity|].
  apply execute_request_refuses. exact H.
Qed.

Lemma stream_refuses fuel url timeout max_retries start st :
  accepts (url +:+ range_suffix start) = false ->
  0 <= max_retries ->
  stream (S (S fuel)) url timeout max_retries start st =
  Run [] (Raise (ValueError "Invalid URL"))
      (set_last_url <[get_ident := url +:+ range_suffix start]> st).
Proof.
  intros H Hn. unfold stream.
  assert (Ha : attempt_loop (S fuel) url timeout max_retries start 0 st =
               Run [] (Raise (ValueError "Invalid URL"))
                   (set_last_url <[get_ident := url +:+ range_suffix start]> st)).
  { rewrite attempt_loop_step by lia. cbn zeta. unfold attempt.
    rewrite execute_request_refuses by exact H. reflexivity. }
  rewrite stream_loop_raises with (e := ValueError "Invalid URL")
    by (rewrite ?Ha; try reflexivity; unfold default_range_size; lia).
  rewrite Ha. reflexivity.
Qed.

(** C7, as amended. A url is refused when the url handed to the executor
    does not begin, after fronting and in lower case, with the four
    letters of http: that is the url they are given for [get], [post],
    [head], [filesize] and [stream] (with the range suffix, for [stream]),
    and the url of segment 0 rebuilt from its parts for [seq_stream] and
    [seq_filesize]. The operation then raises [ValueError('Invalid URL')]
    at its first request, yields nothing, and [urlopen] is never called,
    so nothing is retried. The memoised size functions are taken at a url
    they have not cached, and the retry budget of the streams is not
    negative. *)
Theorem invalid_url_rejected url st :
  (accepts url = false ->
     (forall extra_headers timeout, refused st (get url extra_headers timeout st)) /\
     (forall extra_headers payload timeout,
        refused st (post url extra_headers payload timeout st)) /\
     refused st (head url st) /\
     (cache_find url (filesize_cache st) = None -> refused st (filesize url st))) /\
  (forall start fuel timeout max_retries,
     accepts (url +:+ range_suffix start) = false ->
     0 <= max_retries -> (2 <= fuel)%nat ->
     refused st (stream fuel url timeout max_retries start st)) /\
  (forall split_url,
     urlsplit url = inr split_url ->
     accepts (seq_url split_url 0) = false ->
     (forall fuel timeout max_retries,
        0 <= max_retries -> (2 <= fuel)%nat ->
        refused st (seq_stream fuel url timeout max_retries st)) /\
     (forall fuel,
        cache_find url (seq_filesize_cache st) = None ->
        refused st (seq_filesize fuel url st))).
Proof.
  split; [|split].
  - intros H. split; [|split; [|split]].
    + intros extra_headers timeout. unfold get.
      destruct extra_headers as [l|].
      * erewrite bind_pure by (unfold deref, bind, get_state, ret; cbn; reflexivity).
        erewrite bind_Raise by (apply execute_request_refuses; exact H).
        repeat split.
      * erewrite bind_pure by reflexivity.
        erewrite bind_Raise by (apply execute_request_refuses; exact H).
        repeat split.
    + intros extra_headers payload timeout. unfold post.
      destruct extra_headers as [l|].
      * erewrite bind_pure
          by (unfold deref, bind, get_state, modify, ret; cbn; reflexivity).
        erewrite bind_Raise by (apply execute_request_refuses; exact H).
        repeat split.
      * erewrite bind_pure by reflexivity.
        erewrite bind_Raise by (apply execute_request_refuses; exact H).
        repeat split.
    + rewrite head_refuses by exact H. repeat split.
    + intros Hmiss. unfold filesize, lru_cache.
      erewrite bind_pure by reflexivity. rewrite Hmiss.
      erewrite bind_Raise
        by (unfold filesize_wrapped;
            erewrite bind_Raise by (apply head_refuses; exact H); reflexivity).
      repeat split.
  - intros start fuel timeout max_retries H Hn Hfuel.
    destruct fuel as [|[|fuel]]; try lia.
    rewrite stream_refuses by assumption. repeat split.
  - intros split_url Hsplit H. split.
    + intros fuel timeout max_retries Hn Hfuel.
      destruct fuel as [|[|fuel]]; try lia.
      unfold seq_stream. rewrite Hsplit. erewrite bind_pure by reflexivity.
      erewrite bind_Raise
        by (unfold collect; fold (seq_url split_url 0);
            rewrite stream_refuses
              by (cbn; rewrite ?append_empty; assumption);
            reflexivity).
      repeat split.
    + intros fuel Hmiss. unfold seq_filesize, lru_cache.
      erewrite bind_pure by reflexivity. rewrite Hmiss.
      erewrite bind_Raise
        by (unfold seq_filesize_wrapped; rewrite Hsplit;
            erewrite bind_pure by reflexivity;
            erewrite bind_Raise
              by (fold (seq_url split_url 0); apply execute_request_refuses; exact H);
            reflexivity).
      repeat split.
Qed.

End Refusal.

(** ** Reading the segment count *)

Section Marker.

Lemma digit_leading_int space c s :
  is_digit c = true -> space c = false ->
  int_literal space (String c s) = int_digits space 0 false (String c s).
Proof.
  intros H Hs. unfold int_literal. cbn [lstrip]. rewrite Hs.
  destruct c as [[] [] [] [] [] [] [] []]; vm_compute in H; try discriminate H;
    reflexivity.
Qed.

Lemma digit_not_space c : is_digit c = true -> is_space c = false.
Proof.
  intros H.
  destruct c as [[] [] [] [] [] [] [] []]; vm_compute in H; try discriminate H;
    reflexivity.
Qed.

Lemma digit_not_ascii_space c : is_digit c = true -> is_ascii_space c = false.
Proof.
  intros H.
  destruct c as [[] [] [] [] [] [] [] []]; vm_compute in H; try discriminate H;
    reflexivity.
Qed.

Lemma int_digits_all space ds :
  forall acc seen,
    forallb is_digit_byte ds = true ->
    ds <> [] \/ seen = true ->
    int_digits space acc seen (String.string_of_list_byte ds) =
    Some (fold_left (fun acc d => 10 * acc + digit_value (ascii_of_byte d)) ds acc).
Proof.
  induction ds as [|d ds IH]; intros acc seen Hall Hne.
  - destruct Hne as [Hne| ->]; [congruence|reflexivity].
  - cbn in Hall. apply andb_prop in Hall as [Hd Hall].
    change (String.string_of_list_byte (d :: ds))
      with (String (ascii_of_byte d) (String.string_of_list_byte ds)).
    cbn [int_digits fold_left]. unfold is_digit_byte in Hd. rewrite Hd.
    apply IH; auto.
Qed.

Lemma int_literal_digits space ds :
  (forall c, is_digit c = true -> space c = false) ->
  ds <> [] -> forallb is_digit_byte ds = true ->
  int_literal space (String.string_of_list_byte ds) = Some (digits_value ds).
Proof.
  intros Hspace Hne Hall. destruct ds as [|d ds]; [congruence|].
  pose proof Hall as Hall'. cbn in Hall'. apply andb_prop in Hall' as [Hd _].
  change (String.string_of_list_byte (d :: ds))
    with (String (ascii_of_byte d) (String.string_of_list_byte ds)).
  rewrite digit_leading_int by (try apply Hspace; exact Hd).
  change (String (ascii_of_byte d) (String.string_of_list_byte ds))
    with (String.string_of_list_byte (d :: ds)).
  rewrite int_digits_all by auto. reflexivity.
Qed.

(** [int()] of a run of digits, as text or as bytes, is its decimal
    value. *)
Lemma py_int_digits ds :
  ds <> [] -> forallb is_digit_byte ds = true ->
  py_int (String.string_of_list_byte ds) = Some (digits_value ds).
Proof. apply int_literal_digits. exact digit_not_space. Qed.

Lemma py_int_bytes_digits ds :
  ds <> [] -> forallb is_digit_byte ds = true ->
  py_int_bytes ds = Some (digits_value ds).
Proof. apply int_literal_digits. exact digit_not_ascii_space. Qed.

Lemma span_digits_all l : forallb is_digit_byte (fst (span_digits l)) = true.
Proof.
  induction l as [|x l IH]; [reflexivity|]. cbn.
  destruct (is_digit_byte x) eqn:Hx; [|reflexivity].
  destruct (span_digits l) as [ds rest]. cbn in *. rewrite Hx. exact IH.
Qed.

Lemma search_digits_after_digits lit line ds :
  search_digits_after lit line = Some ds ->
  ds <> [] /\ forallb is_digit_byte ds = true.
Proof.
  induction line as [|x line IH]; cbn [search_digits_after]; intros H.
  - destruct (strip_prefix lit []) as [rest|]; [|discriminate].
    pose proof (span_digits_all rest) as Hall.
    destruct (fst (span_digits rest)) as [|d ds']; [discriminate|].
    inversion H; subst. split; [discriminate|exact Hall].
  - destruct (strip_prefix lit (x :: line)) as [rest|].
    + pose proof (span_digits_all rest) as Hall.
      destruct (fst (span_digits rest)) as [|d ds']; [apply IH; exact H|].
      inversion H; subst. split; [discriminate|exact Hall].
    + apply IH; exact H.
Qed.

Lemma segment_literal : literal_of segment_regex = b "Segment-Count: ".
Proof. reflexivity. Qed.

Lemma last_marker_from lines :
  forall found,
    last_marker lines found =
    match last_marker lines None with Some n => Some n | None => found end.
Proof.
  induction lines as [|line lines IH]; intros found; [reflexivity|].
  unfold last_marker in *. cbn [fold_left].
  destruct (marker_of line) as [n|].
  - rewrite (IH (Some n)). destruct (fold_left _ lines None); reflexivity.
  - apply IH.
Qed.

Lemma last_marker_split content :
  last_marker (split_crlf content) None = segment_count_in content.
Proof. reflexivity. Qed.

Lemma last_marker_cons line lines found :
  last_marker (line :: lines) found =
  last_marker lines (match marker_of line with Some n => Some n | None => found end).
Proof. reflexivity. Qed.

Lemma marker_of_search line :
  marker_of line = option_map digits_value (search_digits_after (b "Segment-Count: ") line).
Proof. reflexivity. Qed.

(** When some line announces [n] and no line announces anything else,
    [n] is the count that is kept. *)
Lemma last_marker_agreed lines n :
  forall found,
    (forall line m, In line lines -> marker_of line = Some m -> m = n) ->
    found = Some n \/ (exists line, In line lines /\ marker_of line = Some n) ->
    last_marker lines found = Some n.
Proof.
  induction lines as [|l lines IH]; intros found Hagree Hsome.
  - destruct Hsome as [->|(line & [] & _)]. reflexivity.
  - rewrite last_marker_cons. apply IH.
    + intros line m Hin. apply Hagree. right. exact Hin.
    + destruct (marker_of l) as [k|] eqn:Hl.
      * left. f_equal. apply (Hagree l k); [left; reflexivity|exact Hl].
      * destruct Hsome as [->|(line & [<-|Hin] & Hline)].
        -- left. reflexivity.
        -- congruence.
        -- right. exists line. split; assumption.
Qed.

Lemma segment_count_agreed content n :
  (exists line, In line (split_crlf content) /\ marker_of line = Some n) ->
  (forall line m, In line (split_crlf content) -> marker_of line = Some m -> m = n) ->
  segment_count_in content = Some n.
Proof.
  intros Hsome Hagree. unfold segment_count_in.
  apply last_marker_agreed; [exact Hagree|right; exact Hsome].
Qed.

(** When no line carries a marker, no count is read. *)
Lemma segment_count_absent content :
  (forall line, In line (split_crlf content) -> marker_of line = None) ->
  segment_count_in content = None.
Proof.
  unfold segment_count_in. generalize (split_crlf content) as lines.
  induction lines as [|l lines IH]; intros Hnone; [reflexivity|].
  rewrite last_marker_cons, (Hnone l) by (left; reflexivity).
  apply IH. intros line Hin. apply Hnone. right. exact Hin.
Qed.

(** The loop of [seq_stream] over the lines. *)
Lemma find_segment_count_run lines :
  forall found st,
    find_segment_count lines found st = Run [] (Return (last_marker lines found)) st.
Proof.
  induction lines as [|line lines IH]; intros found st; [reflexivity|].
  cbn [find_segment_count]. rewrite segment_literal.
  rewrite last_marker_cons, marker_of_search.
  destruct (search_digits_after _ line) as [ds|] eqn:Hs; cbn [option_map].
  - destruct (search_digits_after_digits _ _ _ Hs) as [Hne Hall].
    rewrite py_int_digits by assumption.
    erewrite bind_pure by reflexivity. apply IH.
  - apply IH.
Qed.

(** The loop of [seq_filesize] over the lines. *)
Lemma count_segments_run lines :
  forall count st,
    count_segments lines count st =
    Run [] (Return (default count (last_marker lines None))) st.
Proof.
  induction lines as [|line lines IH]; intros count st; [reflexivity|].
  cbn [count_segments]. unfold regex_search. rewrite segment_literal.
  rewrite last_marker_cons, marker_of_search.
  destruct (search_digits_after _ line) as [ds|] eqn:Hs; cbn [option_map].
  - destruct (search_digits_after_digits _ _ _ Hs) as [Hne Hall].
    erewrite bind_pure; cycle 1.
    { unfold try_except, bind, lift, ret. cbn.
      rewrite py_int_bytes_digits by assumption. reflexivity. }
    rewrite IH. rewrite (last_marker_from lines (Some (digits_value ds))).
    destruct (last_marker lines None); reflexivity.
  - erewrite bind_pure by reflexivity. rewrite IH. reflexivity.
Qed.

End Marker.

(** ** Streaming one well-served url *)

Arguments read_loop : simpl never.
Arguments attempt_loop : simpl never.
Arguments stream_loop : simpl never.

Section Whole.
Context {P : Platform}.

Lemma chunk_size_pos : (0 < chunk_size)%nat.
Proof. unfold chunk_size. lia. Qed.

Lemma first_chunk_cons (x : byte) (rest : bytes) :
  exists c : nat,
    firstn chunk_size (x :: rest) = x :: firstn c rest /\
    skipn chunk_size (x :: rest) = skipn c rest.
Proof.
  pose proof chunk_size_pos as Hpos.
  destruct chunk_size as [|c]; [lia|]. exists c. split; reflexivity.
Qed.

Lemma split_length (n : nat) (l : bytes) :
  (length (firstn n l) + length (skipn n l) = length l)%nat.
Proof. rewrite <- length_app, firstn_skipn. reflexivity. Qed.

Lemma read_loop_unfold fuel broken rest downloaded :
  read_loop (S fuel) broken rest downloaded =
  match firstn chunk_size rest with
  | [] => match broken with Some e => raise e | None => ret downloaded end
  | _ :: _ =>
      bind (yield_ (firstn chunk_size rest))
           (fun _ => read_loop fuel broken (skipn chunk_size rest)
                               (downloaded + len (firstn chunk_size rest)))
  end.
Proof. reflexivity. Qed.

Lemma chunks_upto_unfold n rest :
  chunks_upto (S n) rest =
  match firstn chunk_size rest with
  | [] => []
  | x :: chunk => (x :: chunk) :: chunks_upto n (skipn chunk_size rest)
  end.
Proof. reflexivity. Qed.

(** The chunk loop delivers the body in pieces of at most [chunk_size]
    bytes and counts every byte. *)
Lemma read_loop_run n :
  forall fuel rest downloaded st,
    (length rest <= n)%nat -> (n < fuel)%nat ->
    read_loop fuel None rest downloaded st =
    Run (chunks_upto n rest) (Return (downloaded + len rest)) st.
Proof.
  induction n as [|n IH]; intros fuel rest downloaded st Hlen Hfuel;
    (destruct fuel as [|fuel]; [lia|]); rewrite read_loop_unfold.
  - destruct rest; [|cbn in Hlen; lia]. rewrite firstn_nil.
    change (chunks_upto 0 []) with (@nil bytes).
    change (len (@nil byte)) with 0. rewrite Z.add_0_r. reflexivity.
  - rewrite chunks_upto_unfold. destruct rest as [|x rest].
    + rewrite firstn_nil.
      change (len (@nil byte)) with 0. rewrite Z.add_0_r. reflexivity.
    + destruct (first_chunk_cons x rest) as (c & -> & ->).
      pose proof (split_length c rest) as Hsplit.
      assert (Hz : downloaded + len (x :: firstn c rest) + len (skipn c rest)
                   = downloaded + len (x :: rest)).
      { unfold len. cbn [length]. lia. }
      assert (Hl : (length (skipn c rest) <= n)%nat) by (cbn [length] in Hlen; lia).
      assert (Hf : (n < fuel)%nat) by lia.
      unfold bind, yield_. cbn [result final yielded].
      rewrite (IH fuel (skipn c rest) _ _ Hl Hf).
      cbn [result final yielded app]. rewrite Hz. reflexivity.
Qed.

Lemma concat_chunks_upto n :
  forall rest, (length rest <= n)%nat -> concat (chunks_upto n rest) = rest.
Proof.
  induction n as [|n IH]; intros rest Hlen.
  - destruct rest; [reflexivity|cbn in Hlen; lia].
  - rewrite chunks_upto_unfold. destruct rest as [|x rest].
    + rewrite firstn_nil. reflexivity.
    + destruct (first_chunk_cons x rest) as (c & -> & ->).
      pose proof (split_length c rest) as Hsplit.
      assert (Hl : (length (skipn c rest) <= n)%nat) by (cbn [length] in Hlen; lia).
      cbn [concat]. rewrite (IH _ Hl).
      change ((x :: firstn c rest) ++ skipn c rest) with (x :: (firstn c rest ++ skipn c rest)).
      rewrite firstn_skipn. reflexivity.
Qed.

(** Chunk reassembly: the pieces of a body, joined, are the body. *)
Lemma concat_chunks content : concat (chunks content) = content.
Proof. apply concat_chunks_upto. lia. Qed.

Lemma stream_request_zero url : stream_request url 0 = get_request url.
Proof. unfold stream_request, get_request. cbn. rewrite append_empty. reflexivity. Qed.

Lemma stream_loop_unfold fuel url timeout max_retries start file_size downloaded :
  stream_loop (S fuel) url timeout max_retries start file_size downloaded =
  if downloaded <? file_size then
    bind (attempt_loop fuel url timeout max_retries start 0)
      (fun response =>
         bind (if file_size =? default_range_size then
                 match message_get "Content-Length" (info response) with
                 | None =>
                     raise (TypeError "int() argument must be a string, a bytes-like object or a real number, not 'NoneType'")
                 | Some content_range =>
                     match py_int content_range with
                     | Some n => ret (n, start)
                     | None => ret (file_size, downloaded)
                     end
                 end
               else ret (file_size, downloaded))
           (fun sizes =>
              bind (read_loop fuel (failure response) (body response) (snd sizes))
                (fun downloaded =>
                   stream_loop fuel url timeout max_retries start (fst sizes) downloaded)))
  else ret tt.
Proof. reflexivity. Qed.

(** A server that answers the url with a body of the length it declares
    is read in one request: the chunks of the body are yielded and the
    generator returns. *)
Lemma stream_whole fuel url timeout max_retries response st :
  answers_get url timeout response ->
  declares_length response ->
  0 <= max_retries ->
  (length (body response) + 3 <= fuel)%nat ->
  stream fuel url timeout max_retries 0 st =
  Run (chunks (body response)) (Return tt)
      (set_log (fun l => l ++ [(get_request url, timeout)])
               (set_last_url <[get_ident := url]> st)).
Proof.
  intros [Hrec Hnet] (Hwhole & v & Hv & Hint) Hn Hfuel.
  destruct fuel as [|[|fuel]]; try lia.
  unfold stream. rewrite stream_loop_unfold.
  change (0 <? default_range_size) with true. cbn match.
  erewrite bind_pure; cycle 1.
  { rewrite attempt_loop_step by lia. cbn zeta. unfold attempt.
    change (range_suffix 0) with "". rewrite append_empty.
    rewrite execute_request_opened by exact Hrec.
    fold (get_request url). rewrite Hnet. reflexivity. }
  rewrite Z.eqb_refl, Hv, Hint.
  erewrite bind_pure by reflexivity. cbn [fst snd]. rewrite Hwhole.
  erewrite bind_Return;
    [|apply (read_loop_run (length (body response))); lia].
  destruct fuel as [|fuel]; [lia|].
  rewrite stream_loop_unfold.
  replace (0 + len (body response) <? len (body response)) with false
    by (symmetry; apply Z.ltb_ge; lia).
  cbn. rewrite app_nil_r. reflexivity.
Qed.

End Whole.

(** ** Segmented payloads *)

Arguments segment_loop : simpl never.
Arguments size_loop : simpl never.

Section Segments.
Context {P : Platform}.

Lemma dict_set_twice {V} k (v1 v2 : V) d :
  dict_set k v2 (dict_set k v1 d) = dict_set k v2 d.
Proof.
  induction d as [|[k' v'] d IH]; cbn.
  - rewrite String.eqb_refl. reflexivity.
  - destruct (String.eqb k k') eqn:Hk; cbn.
    + rewrite String.eqb_refl. reflexivity.
    + rewrite Hk, IH. reflexivity.
Qed.

Lemma segment_loop_unfold fuel base_url querys timeout max_retries count seq_num :
  segment_loop (S fuel) base_url querys timeout max_retries (Some count) seq_num =
  if seq_num <=? count then
    bind (stream fuel (base_url +:+ urlencode (dict_set "sq" (QInt seq_num) querys))
                 timeout max_retries 0)
         (fun _ => segment_loop fuel base_url (dict_set "sq" (QInt seq_num) querys)
                                timeout max_retries (Some count) (seq_num + 1))
  else ret tt.
Proof. reflexivity. Qed.

Lemma concat_flat_map_chunks (responses : nat -> Response) (l : list nat) :
  concat (flat_map (fun k => chunks (body (responses k))) l) =
  flat_map (fun k => body (responses k)) l.
Proof.
  induction l as [|k l IH]; [reflexivity|].
  cbn [flat_map]. rewrite concat_app, concat_chunks, IH. reflexivity.
Qed.

Section Served.
Variables (split_url : SplitResult) (timeout : Timeout) (max_retries : Z).
Variables (responses : nat -> Response) (count : nat) (enough : nat).
Hypothesis retries : 0 <= max_retries.
Hypothesis served :
  forall k, (k <= count)%nat ->
    answers_get (seq_url split_url (Z.of_nat k)) timeout (responses k) /\
    declares_length (responses k).
Hypothesis sized :
  forall k, (k <= count)%nat -> (length (body (responses k)) + 3 <= enough)%nat.

(** The segments from [seq_num] on, streamed one after the other. *)
Lemma segment_loop_run (k : nat) :
  forall (seq_num fuel : nat) (v : qvalue) st,
    (seq_num + k = S count)%nat ->
    (k + enough < fuel)%nat ->
    exists st',
      segment_loop fuel (base_url_of split_url) (dict_set "sq" v (querys_of split_url)) timeout
                   max_retries (Some (Z.of_nat count)) (Z.of_nat seq_num) st =
      Run (flat_map (fun j => chunks (body (responses j))) (seq seq_num k)) (Return tt) st' /\
      log st' =
      log st ++ map (fun j => (get_request (seq_url split_url (Z.of_nat j)), timeout)) (seq seq_num k).
Proof.
  induction k as [|k IH]; intros seq_num fuel v st Hk Hfuel;
    (destruct fuel as [|fuel]; [lia|]); rewrite segment_loop_unfold.
  - replace (Z.of_nat seq_num <=? Z.of_nat count) with false
      by (symmetry; apply Z.leb_gt; lia).
    exists st. cbn. rewrite app_nil_r. auto.
  - replace (Z.of_nat seq_num <=? Z.of_nat count) with true
      by (symmetry; apply Z.leb_le; lia).
    rewrite dict_set_twice. fold (seq_url split_url (Z.of_nat seq_num)).
    destruct (served seq_num) as [Hget Hlen]; [lia|].
    pose proof (sized seq_num ltac:(lia)) as Hsize.
    erewrite bind_Return; [|apply stream_whole; try eassumption; lia].
    replace (Z.of_nat seq_num + 1) with (Z.of_nat (S seq_num)) by lia.
    edestruct (IH (S seq_num) fuel (QInt (Z.of_nat seq_num))) as (st' & Hrun & Hlog);
      [lia|lia|].
    rewrite Hrun. cbn [yielded result final]. exists st'. split; [reflexivity|].
    rewrite Hlog. cbn [log set_log set_last_url seq map].
    rewrite <- app_assoc. reflexivity.
Qed.

End Served.

(** C4. When a line of the body of segment 0 carries the marker
    [Segment-Count: count] (and no line announces another count) and the
    server answers each segment url from 0 to [count] with a body of the
    length it declares, [seq_stream] requests the segments 0, 1, ...,
    [count] in that order, once each, yields the chunks of each in that
    order, and returns; what it yielded, joined, is the bodies of the
    segments joined in order. *)
Theorem seq_stream_reassembles fuel url split_url timeout max_retries
    (responses : nat -> Response) (count : nat) st :
  urlsplit url = inr split_url ->
  0 <= max_retries ->
  (forall k, (k <= count)%nat ->
     answers_get (seq_url split_url (Z.of_nat k)) timeout (responses k) /\
     declares_length (responses k)) ->
  (exists line,
     In line (split_crlf (body (responses 0%nat))) /\
     marker_of line = Some (Z.of_nat count)) ->
  (forall line m,
     In line (split_crlf (body (responses 0%nat))) ->
     marker_of line = Some m -> m = Z.of_nat count) ->
  (forall k, (k <= count)%nat -> (length (body (responses k)) + count + 4 <= fuel)%nat) ->
  let r := seq_stream fuel url timeout max_retries st in
  result r = Return tt /\
  yielded r = flat_map (fun k => chunks (body (responses k))) (seq 0 (S count)) /\
  concat (yielded r) = flat_map (fun k => body (responses k)) (seq 0 (S count)) /\
  log (final r) =
    log st ++ map (fun k => (get_request (seq_url split_url (Z.of_nat k)), timeout))
                  (seq 0 (S count)).
Proof.
  intros Hsplit Hn Hserved Hmarked Hagreed Hfuel r.
  pose proof (segment_count_agreed _ _ Hmarked Hagreed) as Hcount.
  assert (Hr : exists st',
             seq_stream fuel url timeout max_retries st =
             Run (flat_map (fun k => chunks (body (responses k))) (seq 0 (S count)))
                 (Return tt) st' /\
             log st' = log st ++ map (fun k => (get_request (seq_url split_url (Z.of_nat k)), timeout))
                                      (seq 0 (S count))).
  { unfold seq_stream. rewrite Hsplit. erewrite bind_pure by reflexivity.
    fold (seq_url split_url 0).
    destruct (Hserved 0%nat) as [Hget Hlen]; [lia|].
    change (Z.of_nat 0) with 0 in Hget.
    pose proof (Hfuel 0%nat ltac:(lia)) as Hf0.
    erewrite bind_Return; cycle 1.
    { unfold collect.
      rewrite (stream_whole fuel _ timeout max_retries (responses 0%nat))
        by (try eassumption; lia).
      cbn [yielded result final]. rewrite concat_chunks. reflexivity. }
    erewrite bind_pure by apply find_segment_count_run.
    rewrite last_marker_split, Hcount.
    assert (Hsized : forall k, (k <= count)%nat ->
                       (length (body (responses k)) + 3 <= fuel - count - 1)%nat).
    { intros k Hk. pose proof (Hfuel k Hk). lia. }
    destruct (segment_loop_run split_url timeout max_retries responses count
                (fuel - count - 1) Hn Hserved Hsized count 1%nat fuel (QInt 0)
                (set_log (fun l => l ++ [(get_request (seq_url split_url 0), timeout)])
                         (set_last_url <[get_ident := seq_url split_url 0]> st)))
      as (st' & Hrun & Hlog); [lia|lia|].
    change (Z.of_nat 1) with 1 in Hrun. rewrite Hrun.
    cbn [yielded result final]. eexists. split; [reflexivity|].
    rewrite Hlog. cbn [log set_log set_last_url seq map].
    rewrite <- app_assoc. reflexivity. }
  destruct Hr as (st' & Hrun & Hlog). subst r. rewrite Hrun.
  cbn [yielded result final]. split; [reflexivity|]. split; [reflexivity|].
  split; [apply concat_flat_map_chunks|exact Hlog].
Qed.

(** C5. When no line of the body of segment 0 carries a marker,
    [segment_count] is never bound: the generator yields the chunks of
    segment 0 and then, at the test of its [while] loop, raises
    [UnboundLocalError]; it does not return. *)
Theorem seq_stream_without_marker_raises fuel url split_url timeout max_retries
    response st :
  urlsplit url = inr split_url ->
  0 <= max_retries ->
  answers_get (seq_url split_url 0) timeout response ->
  declares_length response ->
  (forall line, In line (split_crlf (body response)) -> marker_of line = None) ->
  (length (body response) + 3 <= fuel)%nat ->
  let r := seq_stream fuel url timeout max_retries st in
  yielded r = chunks (body response) /\
  result r = Raise (UnboundLocalError "segment_count") /\
  result r <> Return tt.
Proof.
  intros Hsplit Hn Hget Hlen Hunmarked Hfuel r. subst r.
  pose proof (segment_count_absent _ Hunmarked) as Hnone.
  unfold seq_stream. rewrite Hsplit. erewrite bind_pure by reflexivity.
  fold (seq_url split_url 0).
  erewrite bind_Return; cycle 1.
  { unfold collect.
    rewrite (stream_whole fuel _ timeout max_retries response) by (try eassumption; lia).
    cbn [yielded result final]. rewrite concat_chunks. reflexivity. }
  erewrite bind_pure by apply find_segment_count_run.
  rewrite last_marker_split, Hnone.
  destruct fuel as [|fuel]; [lia|]. cbn. rewrite app_nil_r.
  split; [reflexivity|]. split; [reflexivity|discriminate].
Qed.

End Segments.

(** ** The size of a segmented payload *)

Section Sizes.
Context {P : Platform}.

Lemma head_run url response st :
  answers_head url response ->
  head url st =
  Run [] (Return (lowercase_keys (info response)))
      (set_log (fun l => l ++ [(head_request url, _GLOBAL_DEFAULT_TIMEOUT)])
               (set_last_url <[get_ident := url]> st)).
Proof.
  intros [Hrec Hnet]. unfold head.
  erewrite bind_pure; [reflexivity|].
  rewrite execute_request_opened by exact Hrec.
  fold (head_request url). rewrite Hnet. reflexivity.
Qed.

Lemma size_loop_unfold fuel base_url querys count seq_num total :
  size_loop (S fuel) base_url querys count seq_num total =
  if seq_num <=? count then
    bind (head (base_url +:+ urlencode (dict_set "sq" (QInt seq_num) querys)))
      (fun h =>
         match h !! "content-length" with
         | None => raise (KeyError "content-length")
         | Some v =>
             bind (int_or_raise (py_int v))
               (fun n => size_loop fuel base_url (dict_set "sq" (QInt seq_num) querys)
                                   count (seq_num + 1) (total + n))
         end)
  else ret total.
Proof. reflexivity. Qed.

(** The [HEAD] requests for the segments from [seq_num] on, and the sum
    of the sizes they declare. *)
Lemma size_loop_run split_url (heads : nat -> Response) (sizes : nat -> Z) (count : nat) :
  (forall k, (1 <= k <= count)%nat ->
     answers_head (seq_url split_url (Z.of_nat k)) (heads k) /\ declared_size (heads k) (sizes k)) ->
  forall (k seq_num fuel : nat) (v : qvalue) total st,
    (1 <= seq_num)%nat -> (seq_num + k = S count)%nat -> (k < fuel)%nat ->
    exists st',
      size_loop fuel (base_url_of split_url) (dict_set "sq" v (querys_of split_url))
                (Z.of_nat count) (Z.of_nat seq_num) total st =
      Run [] (Return (total + fold_right Z.add 0 (map sizes (seq seq_num k)))) st' /\
      log st' =
      log st ++ map (fun j => (head_request (seq_url split_url (Z.of_nat j)), _GLOBAL_DEFAULT_TIMEOUT))
                    (seq seq_num k).
Proof.
  intros Hheads. induction k as [|k IH]; intros seq_num fuel v total st H1 Hk Hfuel;
    (destruct fuel as [|fuel]; [lia|]); rewrite size_loop_unfold.
  - replace (Z.of_nat seq_num <=? Z.of_nat count) with false
      by (symmetry; apply Z.leb_gt; lia).
    exists st. cbn. rewrite app_nil_r, Z.add_0_r. auto.
  - replace (Z.of_nat seq_num <=? Z.of_nat count) with true
      by (symmetry; apply Z.leb_le; lia).
    rewrite dict_set_twice. fold (seq_url split_url (Z.of_nat seq_num)).
    destruct (Hheads seq_num) as [Hhead (w & Hw & Hint)]; [lia|].
    erewrite bind_pure by (apply head_run; exact Hhead).
    rewrite Hw, Hint. erewrite bind_pure by reflexivity.
    replace (Z.of_nat seq_num + 1) with (Z.of_nat (S seq_num)) by lia.
    edestruct (IH (S seq_num) fuel (QInt (Z.of_nat seq_num))) as (st' & Hrun & Hlog);
      [lia|lia|lia|].
    rewrite Hrun. exists st'. split.
    + cbn [seq map fold_right]. rewrite Z.add_assoc. reflexivity.
    + rewrite Hlog. cbn [log set_log set_last_url seq map].
      rewrite <- app_assoc. reflexivity.
Qed.

Lemma fold_digits_nonneg ds :
  forall acc, 0 <= acc -> forallb is_digit_byte ds = true ->
    0 <= fold_left (fun acc d => 10 * acc + digit_value (ascii_of_byte d)) ds acc.
Proof.
  induction ds as [|d ds IH]; intros a Ha Hall; [exact Ha|].
  cbn in Hall. apply andb_prop in Hall as [Hd Hall]. cbn [fold_left].
  apply IH; [|exact Hall].
  unfold is_digit_byte, is_digit in Hd. apply andb_prop in Hd as [Hlo _].
  apply Nat.leb_le in Hlo. unfold digit_value. lia.
Qed.

Lemma marker_of_nonneg line n : marker_of line = Some n -> 0 <= n.
Proof.
  rewrite marker_of_search.
  destruct (search_digits_after _ line) as [ds|] eqn:Hs; [|discriminate].
  intros [= <-]. destruct (search_digits_after_digits _ _ _ Hs) as [_ Hall].
  apply fold_digits_nonneg; [lia|exact Hall].
Qed.

Lemma last_marker_nonneg lines :
  forall found n,
    (forall m, found = Some m -> 0 <= m) ->
    last_marker lines found = Some n -> 0 <= n.
Proof.
  induction lines as [|line lines IH]; intros found n Hfound H.
  - apply Hfound. exact H.
  - rewrite last_marker_cons in H. eapply IH; [|exact H].
    intros m Hm. destruct (marker_of line) as [k|] eqn:Hk.
    + inversion Hm; subst. eapply marker_of_nonneg. exact Hk.
    + apply Hfound. exact Hm.
Qed.

(** A segment count read from a body is never negative. *)
Lemma segment_count_nonneg content n : segment_count_in content = Some n -> 0 <= n.
Proof.
  rewrite <- last_marker_split. apply last_marker_nonneg. intros m [=].
Qed.

Lemma seq_filesize_miss fuel url st :
  cache_find url (seq_filesize_cache st) = None ->
  result (seq_filesize fuel url st) = result (seq_filesize_wrapped fuel url st) /\
  log (final (seq_filesize fuel url st)) = log (final (seq_filesize_wrapped fuel url st)).
Proof.
  intros Hmiss. unfold seq_filesize, lru_cache.
  erewrite bind_pure by reflexivity. rewrite Hmiss. unfold bind.
  destruct (seq_filesize_wrapped fuel url st) as [ys [v|e|] st']; cbn; auto.
Qed.

(** The first request of the size prober and the count it reads. *)
Lemma seq_filesize_wrapped_start fuel url split_url response st :
  urlsplit url = inr split_url ->
  answers_get (seq_url split_url 0) _GLOBAL_DEFAULT_TIMEOUT response ->
  failure response = None ->
  seq_filesize_wrapped fuel url st =
  let st1 := set_log (fun l => l ++ [(get_request (seq_url split_url 0), _GLOBAL_DEFAULT_TIMEOUT)])
                     (set_last_url <[get_ident := seq_url split_url 0]> st) in
  let count := default 0 (segment_count_in (body response)) in
  if count =? 0 then Run [] (Raise (RegexMatchError "seq_filesize" segment_regex)) st1
  else size_loop fuel (base_url_of split_url) (dict_set "sq" (QInt 0) (querys_of split_url)) count 1
                 (0 + len (body response)) st1.
Proof.
  intros Hsplit [Hrec Hnet] Hwhole. unfold seq_filesize_wrapped.
  rewrite Hsplit. erewrite bind_pure by reflexivity. fold (seq_url split_url 0).
  erewrite bind_pure; cycle 1.
  { rewrite execute_request_opened by exact Hrec.
    fold (get_request (seq_url split_url 0)). rewrite Hnet. reflexivity. }
  erewrite bind_pure by (unfold read_all; rewrite Hwhole; reflexivity).
  erewrite bind_pure by apply count_segments_run.
  rewrite last_marker_split. cbn zeta.
  destruct (default 0 (segment_count_in (body response)) =? 0); reflexivity.
Qed.

(** C6, as amended. After a [GET] of segment 0 answered whole, [seq_filesize]
    (at a url it has not cached) raises [RegexMatchError] exactly when the
    count it read is 0: when no line of the body carries the marker, and
    also when the last marker announces 0. When the marker announces
    [count > 0] and every [HEAD] request for the segments 1 to [count] is
    answered with a parsable content length, it returns the byte length of
    the body of segment 0 plus the sum of those lengths, after one [GET]
    and [count] [HEAD] requests in order. A count is never negative, so the
    two cases are all there is. *)
Theorem seq_filesize_sums fuel url split_url response st :
  cache_find url (seq_filesize_cache st) = None ->
  urlsplit url = inr split_url ->
  answers_get (seq_url split_url 0) _GLOBAL_DEFAULT_TIMEOUT response ->
  failure response = None ->
  let r := seq_filesize fuel url st in
  (segment_count_in (body response) = None \/ segment_count_in (body response) = Some 0 ->
   result r = Raise (RegexMatchError "seq_filesize" segment_regex) /\
   log (final r) = log st ++ [(get_request (seq_url split_url 0), _GLOBAL_DEFAULT_TIMEOUT)]) /\
  (forall (count : nat) (heads : nat -> Response) (sizes : nat -> Z),
     segment_count_in (body response) = Some (Z.of_nat count) ->
     (0 < count)%nat ->
     (forall k, (1 <= k <= count)%nat ->
        answers_head (seq_url split_url (Z.of_nat k)) (heads k) /\
        declared_size (heads k) (sizes k)) ->
     (count < fuel)%nat ->
     result r = Return (len (body response) + sum_sizes sizes count) /\
     log (final r) =
       log st ++ (get_request (seq_url split_url 0), _GLOBAL_DEFAULT_TIMEOUT)
              :: map (fun k => (head_request (seq_url split_url (Z.of_nat k)),
                                _GLOBAL_DEFAULT_TIMEOUT))
                     (seq 1 count)) /\
  (forall n, segment_count_in (body response) = Some n -> 0 <= n).
Proof.
  intros Hmiss Hsplit Hget Hwhole r.
  destruct (seq_filesize_miss fuel url st Hmiss) as [Hres Hlog].
  pose proof (seq_filesize_wrapped_start fuel url split_url response st Hsplit Hget Hwhole)
    as Hstart.
  cbn zeta in Hstart. subst r. rewrite Hres, Hlog, Hstart.
  split; [|split].
  - intros [Hnone|Hzero]; [rewrite Hnone|rewrite Hzero]; cbn; auto.
  - intros count heads sizes Hcount Hpos Hheads Hfuel.
    rewrite Hcount. cbn [default from_option id].
    replace (Z.of_nat count =? 0) with false by (symmetry; apply Z.eqb_neq; lia).
    destruct (size_loop_run split_url heads sizes count Hheads count 1%nat fuel (QInt 0)
                (0 + len (body response))
                (set_log (fun l => l ++ [(get_request (seq_url split_url 0), _GLOBAL_DEFAULT_TIMEOUT)])
                         (set_last_url <[get_ident := seq_url split_url 0]> st)))
      as (st' & Hrun & Hl); [lia|lia|lia|].
    change (Z.of_nat 1) with 1 in Hrun. rewrite Hrun. cbn [result final].
    split; [reflexivity|].
    rewrite Hl. cbn [log set_log set_last_url]. rewrite <- app_assoc. reflexivity.
  - apply segment_count_nonneg.
Qed.

End Sizes.

(** ** The reader on other servers *)

Section Reader.
Context {P : Platform}.

Lemma Forall_yielded_bind {A B} (Q : bytes -> Prop) (m : M A) (k : A -> M B) st :
  Forall Q (yielded (m st)) ->
  (forall a st1, Forall Q (yielded (k a st1))) ->
  Forall Q (yielded (bind m k st)).
Proof.
  intros Hm Hk. unfold bind.
  destruct (m st) as [ys [a|e|] st1]; cbn in *; try assumption.
  apply Forall_app. split; [exact Hm|apply Hk].
Qed.

Lemma first_chunk_ok (rest : bytes) x chunk :
  firstn chunk_size rest = x :: chunk -> chunk_ok (x :: chunk).
Proof.
  intros H. pose proof (firstn_le_length chunk_size rest) as Hle.
  rewrite H in Hle. unfold chunk_ok, len.
  assert (Hc : Z.of_nat chunk_size = 32768) by (unfold chunk_size; lia).
  cbn [length] in *. lia.
Qed.

Lemma read_loop_chunks fuel broken :
  forall rest downloaded st,
    Forall chunk_ok (yielded (read_loop fuel broken rest downloaded st)).
Proof.
  induction fuel as [|fuel IH]; intros rest downloaded st; [constructor|].
  rewrite read_loop_unfold.
  destruct (firstn chunk_size rest) as [|x chunk] eqn:Hc.
  - destruct broken; constructor.
  - apply Forall_yielded_bind.
    + constructor; [|constructor]. eapply first_chunk_ok. exact Hc.
    + intros _ st1. apply IH.
Qed.

Lemma stream_loop_chunks fuel url timeout max_retries start :
  forall file_size downloaded st,
    Forall chunk_ok
      (yielded (stream_loop fuel url timeout max_retries start file_size downloaded st)).
Proof.
  induction fuel as [|fuel IH]; intros file_size downloaded st; [constructor|].
  rewrite stream_loop_unfold. destruct (downloaded <? file_size); [|constructor].
  apply Forall_yielded_bind; [rewrite attempt_loop_yields; constructor|].
  intros response st1. apply Forall_yielded_bind.
  { destruct (file_size =? default_range_size); [|constructor].
    destruct (message_get _ _); [|constructor].
    destruct (py_int _); constructor. }
  intros sizes st2. apply Forall_yielded_bind; [apply read_loop_chunks|].
  intros downloaded' st3. apply IH.
Qed.

Lemma segment_loop_chunks fuel base_url timeout max_retries count :
  forall querys seq_num st,
    Forall chunk_ok
      (yielded (segment_loop fuel base_url querys timeout max_retries count seq_num st)).
Proof.
  induction fuel as [|fuel IH]; intros querys seq_num st; [constructor|].
  destruct count as [count|]; [|constructor].
  rewrite segment_loop_unfold. destruct (seq_num <=? count); [|constructor].
  apply Forall_yielded_bind; [apply stream_loop_chunks|].
  intros _ st1. apply IH.
Qed.

(** X1. Whatever the server does, every chunk that [stream] and
    [seq_stream] yield is non-empty and holds at most 32768 bytes. *)
Theorem yielded_chunks_bounded fuel url timeout max_retries st :
  (forall start,
     Forall chunk_ok (yielded (stream fuel url timeout max_retries start st))) /\
  Forall chunk_ok (yielded (seq_stream fuel url timeout max_retries st)).
Proof.
  split; [intros start; apply stream_loop_chunks|].
  unfold seq_stream. apply Forall_yielded_bind.
  { destruct (urlsplit url); constructor. }
  intros split_url st1. apply Forall_yielded_bind.
  { unfold collect. cbn [yielded]. apply stream_loop_chunks. }
  intros segment_data st2. apply Forall_yielded_bind.
  { rewrite find_segment_count_run. constructor. }
  intros count st3. apply segment_loop_chunks.
Qed.


(** The chunk loop on a connection that breaks: what arrived is yielded,
    then the failure surfaces. *)
Lemma read_loop_broken e n :
  forall fuel rest downloaded st,
    (length rest <= n)%nat -> (n < fuel)%nat ->
    read_loop fuel (Some e) rest downloaded st = Run (chunks_upto n rest) (Raise e) st.
Proof.
  induction n as [|n IH]; intros fuel rest downloaded st Hlen Hfuel;
    (destruct fuel as [|fuel]; [lia|]); rewrite read_loop_unfold.
  - destruct rest; [|cbn in Hlen; lia]. rewrite firstn_nil. reflexivity.
  - rewrite chunks_upto_unfold. destruct rest as [|x rest].
    + rewrite firstn_nil. reflexivity.
    + destruct (first_chunk_cons x rest) as (c & -> & ->).
      pose proof (split_length c rest) as Hsplit.
      assert (Hl : (length (skipn c rest) <= n)%nat) by (cbn [length] in Hlen; lia).
      assert (Hf : (n < fuel)%nat) by lia.
      unfold bind, yield_. cbn [result final yielded].
      rewrite (IH fuel (skipn c rest) _ _ Hl Hf). reflexivity.
Qed.

(** One attempt that the network answers. *)
Lemma attempt_answered url timeout start response st :
  recognized (stream_request url start) = true ->
  urlopen (log st) (stream_request url start) timeout = inr response ->
  attempt url timeout start st =
  Run [] (Return response)
      (set_log (fun l => l ++ [(stream_request url start, timeout)])
               (set_last_url <[get_ident := url +:+ range_suffix start]> st)).
Proof.
  intros Hrec Hnet. unfold attempt.
  rewrite execute_request_opened by exact Hrec.
  fold (stream_request url start). rewrite Hnet. reflexivity.
Qed.

Lemma attempt_failed url timeout start e st :
  recognized (stream_request url start) = true ->
  urlopen (log st) (stream_request url start) timeout = inl e ->
  attempt url timeout start st =
  Run [] (Raise e)
      (set_log (fun l => l ++ [(stream_request url start, timeout)])
               (set_last_url <[get_ident := url +:+ range_suffix start]> st)).
Proof.
  intros Hrec Hnet. unfold attempt.
  rewrite execute_request_opened by exact Hrec.
  fold (stream_request url start). rewrite Hnet. reflexivity.
Qed.

(** The retry loop on a connection that fails [failures] times in a row
    with a retried failure and then answers. *)
Lemma attempt_loop_recovers url timeout max_retries start response :
  recognized (stream_request url start) = true ->
  forall (failures fuel : nat) tries st,
    tries + Z.of_nat failures < 1 + max_retries ->
    (failures < fuel)%nat ->
    (forall i, (i < failures)%nat ->
       exists e, transient e /\
         urlopen (log st ++ repeat (stream_request url start, timeout) i)
                 (stream_request url start) timeout = inl e) ->
    urlopen (log st ++ repeat (stream_request url start, timeout) failures)
            (stream_request url start) timeout = inr response ->
    exists st',
      attempt_loop fuel url timeout max_retries start tries st =
      Run [] (Return response) st' /\
      log st' = log st ++ repeat (stream_request url start, timeout) (S failures) /\
      heap st' = heap st.
Proof.
  intros Hrec. induction failures as [|failures IH]; intros fuel tries st Hb Hfuel Hfail Hok;
    (destruct fuel as [|fuel]; [lia|]); rewrite attempt_loop_step by lia; cbn zeta.
  - cbn [repeat] in Hok. rewrite app_nil_r in Hok.
    rewrite (attempt_answered _ _ _ _ _ Hrec Hok). cbn [result final].
    eexists. split; [reflexivity|]. split; reflexivity.
  - destruct (Hfail 0%nat) as (e & He & Hnet); [lia|].
    cbn [repeat] in Hnet. rewrite app_nil_r in Hnet.
    rewrite (attempt_failed _ _ _ _ _ Hrec Hnet). cbn [result final].
    set (st1 := set_log _ _).
    destruct (IH fuel (tries + 1) st1) as (st' & Hrun & Hlog & Hheap).
    + lia.
    + lia.
    + intros i Hi. destruct (Hfail (S i)) as (e' & He' & Hnet'); [lia|].
      exists e'. split; [exact He'|].
      subst st1. cbn [log set_log set_last_url]. rewrite <- app_assoc. exact Hnet'.
    + subst st1. cbn [log set_log set_last_url]. rewrite <- app_assoc. exact Hok.
    + exists st'. split; [|split].
      * destruct He as [->| ->]; exact Hrun.
      * rewrite Hlog. subst st1. cbn [log set_log set_last_url].
        rewrite <- app_assoc. reflexivity.
      * rewrite Hheap. reflexivity.
Qed.

(** After the response that answers the first round, when it declares the
    length of its body and arrives whole. *)
Lemma stream_first_response fuel url timeout max_retries start response st st1 :
  attempt_loop fuel url timeout max_retries start 0 st = Run [] (Return response) st1 ->
  declares_length response ->
  0 <= start ->
  (length (body response) + 2 <= fuel)%nat ->
  stream (S fuel) url timeout max_retries start st =
  Run (chunks (body response)) (Return tt) st1.
Proof.
  intros Hfirst (Hwhole & v & Hv & Hint) Hstart Hfuel.
  unfold stream. rewrite stream_loop_unfold.
  change (0 <? default_range_size) with true. cbn match.
  erewrite bind_pure by exact Hfirst.
  rewrite Z.eqb_refl, Hv, Hint.
  erewrite bind_pure by reflexivity. cbn [fst snd]. rewrite Hwhole.
  erewrite bind_Return;
    [|apply (read_loop_run (length (body response))); lia].
  destruct fuel as [|fuel]; [lia|].
  rewrite stream_loop_unfold.
  replace (start + len (body response) <? len (body response)) with false
    by (symmetry; apply Z.ltb_ge; lia).
  cbn. rewrite app_nil_r. reflexivity.
Qed.

(** X2. A response that arrives whole and declares the length of its body
    is read in one request, from any start position that is not negative:
    the chunks of the body are yielded in order, they join to the body,
    and the generator returns. *)
Theorem stream_one_request fuel url timeout max_retries start response st :
  recognized (stream_request url start) = true ->
  urlopen (log st) (stream_request url start) timeout = inr response ->
  declares_length response ->
  0 <= max_retries ->
  0 <= start ->
  (length (body response) + 3 <= fuel)%nat ->
  let r := stream fuel url timeout max_retries start st in
  result r = Return tt /\
  yielded r = chunks (body response) /\
  concat (yielded r) = body response /\
  log (final r) = log st ++ [(stream_request url start, timeout)].
Proof.
  intros Hrec Hnet Hlen Hn Hstart Hfuel r. subst r.
  destruct fuel as [|[|fuel]]; try lia.
  erewrite stream_first_response; try eassumption; try lia; cycle 1.
  { rewrite attempt_loop_step by lia. cbn zeta.
    rewrite (attempt_answered _ _ _ _ _ Hrec Hnet). reflexivity. }
  cbn [result yielded final]. rewrite concat_chunks. auto.
Qed.

(** X3. Retries are invisible in the output: when the first [failures]
    attempts fail with a socket timeout or an [IncompleteRead], the budget
    allows that many retries, and the next attempt is answered whole,
    [stream] yields the chunks of that answer and returns, after
    [failures + 1] requests. *)
Theorem stream_recovers fuel url timeout max_retries start response (failures : nat) st :
  recognized (stream_request url start) = true ->
  Z.of_nat failures <= max_retries ->
  (forall i, (i < failures)%nat ->
     exists e, transient e /\
       urlopen (log st ++ repeat (stream_request url start, timeout) i)
               (stream_request url start) timeout = inl e) ->
  urlopen (log st ++ repeat (stream_request url start, timeout) failures)
          (stream_request url start) timeout = inr response ->
  declares_length response ->
  0 <= start ->
  (failures + length (body response) + 3 <= fuel)%nat ->
  let r := stream fuel url timeout max_retries start st in
  result r = Return tt /\
  yielded r = chunks (body response) /\
  concat (yielded r) = body response /\
  log (final r) = log st ++ repeat (stream_request url start, timeout) (S failures).
Proof.
  intros Hrec Hb Hfail Hok Hlen Hstart Hfuel r. subst r.
  destruct fuel as [|fuel]; [lia|].
  destruct (attempt_loop_recovers url timeout max_retries start response Hrec
              failures fuel 0 st) as (st' & Hrun & Hlog & _); try assumption; try lia.
  erewrite stream_first_response; try eassumption; try lia.
  cbn [result yielded final]. rewrite concat_chunks. auto.
Qed.

(** X4. A response without a [Content-Length] field ends the generator
    with a [TypeError]: the lookup gives [None], [int(None)] is not among
    the exceptions the code catches, and nothing has been yielded. *)
Theorem stream_without_content_length fuel url timeout max_retries start response st :
  recognized (stream_request url start) = true ->
  urlopen (log st) (stream_request url start) timeout = inr response ->
  message_get "Content-Length" (info response) = None ->
  0 <= max_retries ->
  (2 <= fuel)%nat ->
  let r := stream fuel url timeout max_retries start st in
  (exists msg, result r = Raise (TypeError msg)) /\
  yielded r = [] /\
  log (final r) = log st ++ [(stream_request url start, timeout)].
Proof.
  intros Hrec Hnet Hnone Hn Hfuel r. subst r.
  destruct fuel as [|[|fuel]]; try lia.
  unfold stream. rewrite stream_loop_unfold.
  change (0 <? default_range_size) with true. cbn match.
  erewrite bind_pure; cycle 1.
  { rewrite attempt_loop_step by lia. cbn zeta.
    rewrite (attempt_answered _ _ _ _ _ Hrec Hnet). reflexivity. }
  rewrite Z.eqb_refl, Hnone.
  erewrite bind_Raise by reflexivity.
  cbn [result yielded final log set_log set_last_url].
  split; [eexists; reflexivity|]. auto.
Qed.

(** X5. A failure while the body is read is never retried, whatever the
    retry budget: the chunks that arrived are yielded, then the exception
    of the broken connection leaves the generator, after one request. *)
Theorem stream_read_failure_propagates fuel url timeout max_retries start response e v st :
  recognized (stream_request url start) = true ->
  urlopen (log st) (stream_request url start) timeout = inr response ->
  message_get "Content-Length" (info response) = Some v ->
  failure response = Some e ->
  0 <= max_retries ->
  (length (body response) + 3 <= fuel)%nat ->
  let r := stream fuel url timeout max_retries start st in
  result r = Raise e /\
  yielded r = chunks (body response) /\
  log (final r) = log st ++ [(stream_request url start, timeout)].
Proof.
  intros Hrec Hnet Hv Hbroken Hn Hfuel r. subst r.
  destruct fuel as [|[|fuel]]; try lia.
  unfold stream. rewrite stream_loop_unfold.
  change (0 <? default_range_size) with true. cbn match.
  erewrite bind_pure; cycle 1.
  { rewrite attempt_loop_step by lia. cbn zeta.
    rewrite (attempt_answered _ _ _ _ _ Hrec Hnet). reflexivity. }
  rewrite Z.eqb_refl, Hv, Hbroken.
  destruct (py_int v) as [n|].
  - erewrite bind_pure by reflexivity. cbn [fst snd].
    erewrite bind_Raise;
      [|apply (read_loop_broken e (length (body response))); lia].
    cbn [result yielded final log set_log set_last_url]. auto.
  - erewrite bind_pure by reflexivity. cbn [fst snd].
    erewrite bind_Raise;
      [|apply (read_loop_broken e (length (body response))); lia].
    cbn [result yielded final log set_log set_last_url]. auto.
Qed.

(** X6. With a negative [max_retries] no attempt is made at all: [stream]
    and [seq_stream] (on a url that splits) raise [MaxRetriesExceeded]
    before any request, and leave the state as it was. *)
Theorem negative_budget_makes_no_request fuel url timeout max_retries st :
  max_retries < 0 ->
  (2 <= fuel)%nat ->
  (forall start,
     stream fuel url timeout max_retries start st = Run [] (Raise MaxRetriesExceeded) st) /\
  (forall split_url,
     urlsplit url = inr split_url ->
     seq_stream fuel url timeout max_retries st = Run [] (Raise MaxRetriesExceeded) st).
Proof.
  intros Hneg Hfuel. destruct fuel as [|[|fuel]]; try lia.
  assert (Hs : forall u start,
            stream (S (S fuel)) u timeout max_retries start st =
            Run [] (Raise MaxRetriesExceeded) st).
  { intros u start. unfold stream.
    rewrite stream_loop_raises with (e := MaxRetriesExceeded);
      rewrite ?attempt_loop_exhausted by lia; reflexivity. }
  split; [apply Hs|].
  intros split_url Hsplit. unfold seq_stream. rewrite Hsplit.
  erewrite bind_pure by reflexivity.
  erewrite bind_Raise; [reflexivity|].
  unfold collect. rewrite Hs. reflexivity.
Qed.


(** The download loop on a server that always gives the same answer,
    when the size the loop compares with stays as it is: round after
    round the body is read again, until the count reaches the size. *)
Lemma stream_loop_rounds url timeout max_retries start response :
  recognized (stream_request url start) = true ->
  0 <= max_retries ->
  (forall history, urlopen history (stream_request url start) timeout = inr response) ->
  failure response = None ->
  forall (k fuel : nat) file_size downloaded st,
    (file_size <> default_range_size \/
     exists v, message_get "Content-Length" (info response) = Some v /\ py_int v = None) ->
    file_size <= downloaded + Z.of_nat k * len (body response) ->
    (forall j, (j < k)%nat -> downloaded + Z.of_nat j * len (body response) < file_size) ->
    (k + length (body response) + 2 <= fuel)%nat ->
    exists st',
      stream_loop fuel url timeout max_retries start file_size downloaded st =
      Run (concat (repeat (chunks (body response)) k)) (Return tt) st' /\
      log st' = log st ++ repeat (stream_request url start, timeout) k.
Proof.
  intros Hrec Hn Hnet Hwhole.
  induction k as [|k IH]; intros fuel file_size downloaded st Hsize Hle Hlt Hfuel;
    (destruct fuel as [|fuel]; [lia|]); rewrite stream_loop_unfold.
  - replace (downloaded <? file_size) with false by (symmetry; apply Z.ltb_ge; lia).
    exists st. cbn. rewrite app_nil_r. auto.
  - pose proof (Hlt 0%nat ltac:(lia)) as H0.
    replace (downloaded <? file_size) with true by (symmetry; apply Z.ltb_lt; lia).
    destruct fuel as [|fuel]; [lia|].
    erewrite bind_pure; cycle 1.
    { rewrite attempt_loop_step by lia. cbn zeta.
      rewrite (attempt_answered _ _ _ _ _ Hrec (Hnet _)). cbn [result final]. reflexivity. }
    match goal with
    | |- context [bind (if file_size =? default_range_size then ?x else ?y) _ ?s] =>
        assert (Hsizes : (if file_size =? default_range_size then x else y) s =
                         Run [] (Return (file_size, downloaded)) s)
    end.
    { destruct (file_size =? default_range_size) eqn:Hd; [|reflexivity].
      apply Z.eqb_eq in Hd. destruct Hsize as [Hne|(v & Hv & Hint)]; [congruence|].
      rewrite Hv, Hint. reflexivity. }
    erewrite bind_pure by exact Hsizes.
    cbn [fst snd]. rewrite Hwhole.
    erewrite bind_Return;
      [|apply (read_loop_run (length (body response))); lia].
    set (st1 := set_log _ _).
    destruct (IH (S fuel) file_size (downloaded + len (body response)) st1)
      as (st' & Hrun & Hlog); try assumption; try lia.
    { intros j Hj. pose proof (Hlt (S j) ltac:(lia)). lia. }
    cbn beta. rewrite Hrun. cbn [yielded result final]. exists st'. split; [reflexivity|].
    rewrite Hlog. subst st1. cbn [log set_log set_last_url repeat].
    rewrite <- app_assoc. reflexivity.
Qed.

Lemma concat_repeat_chunks content k :
  concat (concat (repeat (chunks content) k)) = concat (repeat content k).
Proof.
  induction k as [|k IH]; [reflexivity|].
  cbn [repeat concat]. rewrite concat_app, concat_chunks, IH. reflexivity.
Qed.

(** X7. A body shorter than the length it declares is not resumed but
    fetched again: on a server that always gives the same answer, whose
    declared length [size] is not the initial 9437184, [stream] sends the
    same request [k] times and yields the chunks of the body [k] times
    over, [k] being the first count with [start + k * len(body) >= size]. *)
Theorem stream_short_body_fetched_again fuel url timeout max_retries start response
    size (k : nat) st :
  recognized (stream_request url start) = true ->
  0 <= max_retries ->
  (forall history, urlopen history (stream_request url start) timeout = inr response) ->
  failure response = None ->
  (exists v, message_get "Content-Length" (info response) = Some v /\ py_int v = Some size) ->
  size <> default_range_size ->
  (1 <= k)%nat ->
  size <= start + Z.of_nat k * len (body response) ->
  ((1 < k)%nat -> start + (Z.of_nat k - 1) * len (body response) < size) ->
  (k + length (body response) + 3 <= fuel)%nat ->
  let r := stream fuel url timeout max_retries start st in
  result r = Return tt /\
  yielded r = concat (repeat (chunks (body response)) k) /\
  concat (yielded r) = concat (repeat (body response) k) /\
  log (final r) = log st ++ repeat (stream_request url start, timeout) k.
Proof.
  intros Hrec Hn Hnet Hwhole (v & Hv & Hint) Hne Hk Hle Hlt Hfuel r.
  assert (Hr : exists st',
            stream fuel url timeout max_retries start st =
            Run (concat (repeat (chunks (body response)) k)) (Return tt) st' /\
            log st' = log st ++ repeat (stream_request url start, timeout) k).
  { destruct k as [|k]; [lia|]. destruct fuel as [|[|fuel]]; try lia.
    unfold stream. rewrite stream_loop_unfold.
    change (0 <? default_range_size) with true. cbn match.
    erewrite bind_pure; cycle 1.
    { rewrite attempt_loop_step by lia. cbn zeta.
      rewrite (attempt_answered _ _ _ _ _ Hrec (Hnet _)). cbn [result final]. reflexivity. }
    rewrite Z.eqb_refl, Hv, Hint.
    erewrite bind_pure by reflexivity. cbn [fst snd]. rewrite Hwhole.
    erewrite bind_Return;
      [|apply (read_loop_run (length (body response))); lia].
    set (st1 := set_log _ _).
    destruct (stream_loop_rounds url timeout max_retries start response Hrec Hn Hnet Hwhole
                k (S fuel) size (start + len (body response)) st1)
      as (st' & Hrun & Hlog); try lia.
    { intros j Hj. assert (Hk1 : (1 < S k)%nat) by lia. specialize (Hlt Hk1).
      assert (0 <= len (body response)) by (unfold len; lia). nia. }
    rewrite Hrun. cbn [yielded result final]. exists st'. split; [reflexivity|].
    rewrite Hlog. subst st1. cbn [log set_log set_last_url repeat].
    rewrite <- app_assoc. reflexivity. }
  destruct Hr as (st' & Hrun & Hlog). subst r. rewrite Hrun.
  cbn [yielded result final]. split; [reflexivity|]. split; [reflexivity|].
  split; [apply concat_repeat_chunks|exact Hlog].
Qed.

(** X8. A [Content-Length] that [int] rejects leaves the initial size of
    9437184 bytes in force and the count at 0, whatever the start position:
    on a server that always gives the same answer, [stream] sends the same
    request [k] times and yields the chunks of the body [k] times over,
    [k] being the first count with [k * len(body) >= 9437184]. *)
Theorem stream_unparsable_length fuel url timeout max_retries start response (k : nat) st :
  recognized (stream_request url start) = true ->
  0 <= max_retries ->
  (forall history, urlopen history (stream_request url start) timeout = inr response) ->
  failure response = None ->
  (exists v, message_get "Content-Length" (info response) = Some v /\ py_int v = None) ->
  default_range_size <= Z.of_nat k * len (body response) ->
  (Z.of_nat k - 1) * len (body response) < default_range_size ->
  (k + length (body response) + 2 <= fuel)%nat ->
  let r := stream fuel url timeout max_retries start st in
  result r = Return tt /\
  yielded r = concat (repeat (chunks (body response)) k) /\
  concat (yielded r) = concat (repeat (body response) k) /\
  log (final r) = log st ++ repeat (stream_request url start, timeout) k.
Proof.
  intros Hrec Hn Hnet Hwhole Hbad Hle Hlt Hfuel r.
  destruct (stream_loop_rounds url timeout max_retries start response Hrec Hn Hnet Hwhole
              k fuel default_range_size 0 st)
    as (st' & Hrun & Hlog); try lia.
  { right. exact Hbad. }
  { intros j Hj. assert (0 <= len (body response)) by (unfold len; lia). nia. }
  subst r. unfold stream. rewrite Hrun.
  cbn [yielded result final]. split; [reflexivity|]. split; [reflexivity|].
  split; [apply concat_repeat_chunks|exact Hlog].
Qed.

(** The download loop on a server that answers every request with an
    empty body: the count never moves, and every unit of fuel but the last
    goes into one more request. *)
Lemma stream_loop_spins url timeout max_retries start response :
  recognized (stream_request url start) = true ->
  0 <= max_retries ->
  (forall history, urlopen history (stream_request url start) timeout = inr response) ->
  failure response = None ->
  body response = [] ->
  (exists v, message_get "Content-Length" (info response) = Some v /\
             forall size, py_int v = Some size -> start < size) ->
  forall (fuel : nat) file_size downloaded st,
    downloaded < file_size ->
    let r := stream_loop fuel url timeout max_retries start file_size downloaded st in
    result r = OutOfFuel /\ yielded r = [] /\
    log (final r) = log st ++ repeat (stream_request url start, timeout) (fuel - 1).
Proof.
  intros Hrec Hn Hnet Hwhole Hempty (v & Hv & Hint).
  induction fuel as [|fuel IH]; intros file_size downloaded st Hlt r; subst r.
  - cbn. rewrite app_nil_r. auto.
  - rewrite stream_loop_unfold.
    replace (downloaded <? file_size) with true by (symmetry; apply Z.ltb_lt; lia).
    destruct fuel as [|fuel].
    { cbn. rewrite app_nil_r. auto. }
    erewrite bind_pure; cycle 1.
    { rewrite attempt_loop_step by lia. cbn zeta.
      rewrite (attempt_answered _ _ _ _ _ Hrec (Hnet _)). cbn [result final]. reflexivity. }
    set (st1 := set_log _ _).
    assert (Hsizes : exists file_size' downloaded',
              downloaded' < file_size' /\
              (if file_size =? default_range_size then
                 match message_get "Content-Length" (info response) with
                 | None =>
                     raise (TypeError "int() argument must be a string, a bytes-like object or a real number, not 'NoneType'")
                 | Some content_range =>
                     match py_int content_range with
                     | Some n => ret (n, start)
                     | None => ret (file_size, downloaded)
                     end
                 end
               else ret (file_size, downloaded)) st1 =
              Run [] (Return (file_size', downloaded')) st1).
    { destruct (file_size =? default_range_size).
      - rewrite Hv. destruct (py_int v) as [size|] eqn:Hp.
        + exists size, start. split; [apply Hint; reflexivity|reflexivity].
        + exists file_size, downloaded. split; [exact Hlt|reflexivity].
      - exists file_size, downloaded. split; [exact Hlt|reflexivity]. }
    destruct Hsizes as (file_size' & downloaded' & Hlt' & Hsizes).
    erewrite bind_pure by exact Hsizes. cbn [fst snd].
    rewrite Hwhole, Hempty.
    erewrite bind_pure; cycle 1.
    { rewrite read_loop_unfold, firstn_nil. reflexivity. }
    destruct (IH file_size' downloaded' st1 Hlt') as (Hr & Hy & Hl).
    split; [exact Hr|]. split; [exact Hy|].
    rewrite Hl. subst st1. cbn [log set_log set_last_url].
    rewrite <- app_assoc. replace (S (S fuel) - 1)%nat with (S (S fuel - 1)) by lia.
    reflexivity.
Qed.

(** X9. [stream] never ends on a server that answers every request with
    an empty body and a [Content-Length] that is either unreadable or
    larger than the start position: it neither returns nor raises nor
    yields, and it keeps sending the same request, one per unit of fuel. *)
Theorem stream_empty_body_never_ends url timeout max_retries start response :
  recognized (stream_request url start) = true ->
  0 <= max_retries ->
  (forall history, urlopen history (stream_request url start) timeout = inr response) ->
  failure response = None ->
  body response = [] ->
  (exists v, message_get "Content-Length" (info response) = Some v /\
             forall size, py_int v = Some size -> start < size) ->
  forall fuel st,
    let r := stream fuel url timeout max_retries start st in
    result r = OutOfFuel /\ yielded r = [] /\
    log (final r) = log st ++ repeat (stream_request url start, timeout) (fuel - 1).
Proof.
  intros Hrec Hn Hnet Hwhole Hempty Hlen fuel st.
  apply stream_loop_spins with (response := response); try assumption.
  unfold default_range_size. lia.
Qed.


(** X10. An interrupted download and its resumption rebuild the content:
    when the url is answered with the whole content and the url with the
    range suffix for [offset] with the bytes from [offset] on, each answer
    declaring its length, the first [offset] bytes that [stream] yields
    from position 0 followed by what it yields from position [offset] are
    the content. *)
Theorem stream_resume_completes fuel url timeout max_retries (offset : nat) content
    whole tail st st' :
  recognized (stream_request url 0) = true ->
  recognized (stream_request url (Z.of_nat offset)) = true ->
  urlopen (log st) (stream_request url 0) timeout = inr whole ->
  urlopen (log st') (stream_request url (Z.of_nat offset)) timeout = inr tail ->
  declares_length whole -> body whole = content ->
  declares_length tail -> body tail = skipn offset content ->
  0 <= max_retries ->
  (length content + 3 <= fuel)%nat ->
  firstn offset (concat (yielded (stream fuel url timeout max_retries 0 st))) ++
  concat (yielded (stream fuel url timeout max_retries (Z.of_nat offset) st')) = content.
Proof.
  intros Hrec0 Hrec1 Hnet0 Hnet1 Hlen0 Hbody0 Hlen1 Hbody1 Hn Hfuel.
  destruct fuel as [|[|fuel]]; try lia.
  assert (Htail : (length (body tail) <= length content)%nat).
  { rewrite Hbody1, length_skipn. lia. }
  assert (Hwhole : length (body whole) = length content) by (rewrite Hbody0; reflexivity).
  erewrite (stream_first_response _ url timeout max_retries 0 whole st);
    try eassumption; try lia; cycle 1.
  { rewrite attempt_loop_step by lia. cbn zeta.
    rewrite (attempt_answered _ _ _ _ _ Hrec0 Hnet0). reflexivity. }
  erewrite (stream_first_response _ url timeout max_retries (Z.of_nat offset) tail st');
    try eassumption; try lia; cycle 1.
  { rewrite attempt_loop_step by lia. cbn zeta.
    rewrite (attempt_answered _ _ _ _ _ Hrec1 Hnet1). reflexivity. }
  cbn [yielded]. rewrite !concat_chunks, Hbody0, Hbody1. apply firstn_skipn.
Qed.

End Reader.

(** ** What the operations leave alone *)

Section Frame.
Context {P : Platform}.

Lemma keeps_bind {A B T} (component : State -> T) (m : M A) (k : A -> M B) :
  keeps component m -> (forall a, keeps component (k a)) -> keeps component (bind m k).
Proof.
  intros Hm Hk st. unfold bind. specialize (Hm st).
  destruct (m st) as [ys [a|e|] st1]; cbn in *; try assumption.
  rewrite Hk. exact Hm.
Qed.

Lemma keeps_try_except {A B T} (component : State -> T) (m : M A) (h : exn -> M B)
    (k : A -> M B) :
  keeps component m -> (forall e, keeps component (h e)) ->
  (forall a, keeps component (k a)) -> keeps component (try_except m h k).
Proof.
  intros Hm Hh Hk st. unfold try_except. specialize (Hm st).
  destruct (m st) as [ys [a|e|] st1]; cbn in *; try assumption.
  - rewrite Hk. exact Hm.
  - rewrite Hh. exact Hm.
Qed.

Lemma keeps_ret {A T} (component : State -> T) (a : A) : keeps component (ret a).
Proof. intros st. reflexivity. Qed.

Lemma keeps_raise {A T} (component : State -> T) e : keeps component (@raise A e).
Proof. intros st. reflexivity. Qed.

Lemma keeps_lift {A T} (component : State -> T) (x : exn + A) : keeps component (lift x).
Proof. destruct x; intros st; reflexivity. Qed.

Lemma keeps_int_or_raise {T} (component : State -> T) x : keeps component (int_or_raise x).
Proof. destruct x; intros st; reflexivity. Qed.

Lemma keeps_read_all {T} (component : State -> T) response :
  keeps component (read_all response).
Proof. unfold read_all. destruct (failure response); intros st; reflexivity. Qed.

Lemma keeps_collect {T} (component : State -> T) (m : M unit) :
  keeps component m -> keeps component (collect m).
Proof. intros Hm st. unfold collect. cbn. apply Hm. Qed.

Section Component.
Variables (T : Type) (component : State -> T).
Hypothesis beside_last_url :
  forall url st, component (set_last_url <[get_ident := url]> st) = component st.
Hypothesis beside_log : forall f st, component (set_log f st) = component st.

Lemma keeps_execute_request url method headers data timeout :
  keeps component (_execute_request url method headers data timeout).
Proof.
  intros st. rewrite execute_request_run. cbn zeta.
  destruct (recognized _); cbn [final]; rewrite ?beside_log, ?beside_last_url; reflexivity.
Qed.

Lemma keeps_head url : keeps component (head url).
Proof.
  unfold head. apply keeps_bind; [apply keeps_execute_request|].
  intros response. apply keeps_ret.
Qed.

Lemma keeps_filesize_wrapped url : keeps component (filesize_wrapped url).
Proof.
  unfold filesize_wrapped. apply keeps_bind; [apply keeps_head|].
  intros h. destruct (h !! "content-length"); [apply keeps_int_or_raise|apply keeps_raise].
Qed.

Lemma keeps_attempt_loop fuel url timeout max_retries start :
  forall tries, keeps component (attempt_loop fuel url timeout max_retries start tries).
Proof.
  induction fuel as [|fuel IH]; intros tries; [intros st; reflexivity|].
  change (attempt_loop (S fuel) url timeout max_retries start tries)
    with (if 1 + max_retries <=? tries then raise MaxRetriesExceeded
          else try_except (attempt url timeout start)
                 (fun e =>
                    match e with
                    | URLError socket_timeout =>
                        attempt_loop fuel url timeout max_retries start (tries + 1)
                    | URLError (other_reason _) => raise e
                    | HTTPError _ _ => raise e
                    | IncompleteRead =>
                        attempt_loop fuel url timeout max_retries start (tries + 1)
                    | _ => raise e
                    end)
                 (fun response => ret response)).
  destruct (1 + max_retries <=? tries); [apply keeps_raise|].
  apply keeps_try_except.
  - apply keeps_execute_request.
  - intros e. destruct e as [[|]| | | | | | | | | |]; try apply keeps_raise; apply IH.
  - intros response. apply keeps_ret.
Qed.

Lemma keeps_read_loop fuel broken rest downloaded :
  keeps component (read_loop fuel broken rest downloaded).
Proof. intros st. rewrite read_loop_state. reflexivity. Qed.

Lemma keeps_stream_loop fuel url timeout max_retries start :
  forall file_size downloaded,
    keeps component (stream_loop fuel url timeout max_retries start file_size downloaded).
Proof.
  induction fuel as [|fuel IH]; intros file_size downloaded; [intros st; reflexivity|].
  rewrite stream_loop_unfold. destruct (downloaded <? file_size); [|apply keeps_ret].
  apply keeps_bind; [apply keeps_attempt_loop|]. intros response.
  apply keeps_bind.
  { destruct (file_size =? default_range_size); [|apply keeps_ret].
    destruct (message_get _ _); [|apply keeps_raise].
    destruct (py_int _); apply keeps_ret. }
  intros sizes. apply keeps_bind; [apply keeps_read_loop|].
  intros downloaded'. apply IH.
Qed.

Lemma keeps_stream fuel url timeout max_retries start :
  keeps component (stream fuel url timeout max_retries start).
Proof. apply keeps_stream_loop. Qed.

Lemma keeps_segment_loop fuel base_url timeout max_retries count :
  forall querys seq_num,
    keeps component (segment_loop fuel base_url querys timeout max_retries count seq_num).
Proof.
  induction fuel as [|fuel IH]; intros querys seq_num; [intros st; reflexivity|].
  destruct count as [count|]; [|apply keeps_raise].
  rewrite segment_loop_unfold. destruct (seq_num <=? count); [|apply keeps_ret].
  apply keeps_bind; [apply keeps_stream|]. intros _. apply IH.
Qed.

Lemma keeps_seq_stream fuel url timeout max_retries :
  keeps component (seq_stream fuel url timeout max_retries).
Proof.
  unfold seq_stream. apply keeps_bind; [apply keeps_lift|]. intros split_url.
  apply keeps_bind; [apply keeps_collect, keeps_stream|]. intros segment_data.
  apply keeps_bind; [intros st; rewrite find_segment_count_run; reflexivity|].
  intros count. apply keeps_segment_loop.
Qed.

Lemma keeps_size_loop fuel base_url count :
  forall querys seq_num total,
    keeps component (size_loop fuel base_url querys count seq_num total).
Proof.
  induction fuel as [|fuel IH]; intros querys seq_num total; [intros st; reflexivity|].
  rewrite size_loop_unfold. destruct (seq_num <=? count); [|apply keeps_ret].
  apply keeps_bind; [apply keeps_head|]. intros h.
  destruct (h !! "content-length"); [|apply keeps_raise].
  apply keeps_bind; [apply keeps_int_or_raise|]. intros n. apply IH.
Qed.

Lemma keeps_seq_filesize_wrapped fuel url :
  keeps component (seq_filesize_wrapped fuel url).
Proof.
  unfold seq_filesize_wrapped. apply keeps_bind; [apply keeps_lift|]. intros split_url.
  apply keeps_bind; [apply keeps_execute_request|]. intros response.
  apply keeps_bind; [apply keeps_read_all|]. intros response_value.
  apply keeps_bind; [intros st; rewrite count_segments_run; reflexivity|].
  intros count. destruct (count =? 0); [apply keeps_raise|apply keeps_size_loop].
Qed.

Lemma keeps_get_dns_ip_wrapped fuel domain_name :
  keeps component (get_dns_ip_wrapped fuel domain_name).
Proof.
  unfold get_dns_ip_wrapped. apply keeps_bind.
  { intros st. cbn. apply beside_last_url. }
  intros _. apply keeps_bind.
  { intros st. cbn. apply beside_log. }
  intros res. apply keeps_bind; [apply keeps_read_all|]. intros raw.
  apply keeps_bind; [apply keeps_lift|]. intros text.
  apply keeps_bind; [apply keeps_lift|]. intros json_data.
  intros st. reflexivity.
Qed.



(** A memoised function keeps what its cache is beside and what the
    function it wraps keeps. *)
Lemma keeps_lru_cache {V} (cache : State -> list (string * V)) set_cache wrapped k :
  (forall c st, component (set_cache c st) = component st) ->
  keeps component (wrapped k) ->
  keeps component (lru_cache cache set_cache wrapped k).
Proof.
  intros Hbeside Hwrapped. unfold lru_cache.
  apply keeps_bind; [intros st; reflexivity|]. intros st0.
  destruct (cache_find k (cache st0)).
  - apply keeps_bind; [intros st; cbn; apply Hbeside|]. intros _. apply keeps_ret.
  - apply keeps_bind; [exact Hwrapped|]. intros v.
    apply keeps_bind; [intros st; reflexivity|]. intros st1.
    apply keeps_bind; [intros st; cbn; apply Hbeside|]. intros _. apply keeps_ret.
Qed.


End Component.

(** X11. No operation but [post] changes a header dictionary of a caller:
    [get], [head], [filesize], [stream], [seq_stream] and [seq_filesize]
    leave every dictionary as it was, [post] without a dictionary too, and
    [post] with the dictionary at [l] leaves every other one as it was. *)
Theorem callers_headers_kept url timeout :
  (forall extra_headers, keeps heap (get url extra_headers timeout)) /\
  keeps heap (head url) /\
  keeps heap (filesize url) /\
  (forall fuel max_retries start, keeps heap (stream fuel url timeout max_retries start)) /\
  (forall fuel max_retries, keeps heap (seq_stream fuel url timeout max_retries)) /\
  (forall fuel, keeps heap (seq_filesize fuel url)) /\
  (forall payload, keeps heap (post url None payload timeout)) /\
  (forall payload l l' st,
     l' <> l ->
     heap (final (post url (Some l) payload timeout st)) !! l' = heap st !! l').
Proof.
  assert (Hrest : forall (headers : gmap string string) payload,
            keeps heap
              (response <- _execute_request url None (Some headers) payload timeout ;;
               raw <- read_all response ;;
               lift (decode_utf8 raw))).
  { intros headers payload. apply keeps_bind; [apply keeps_execute_request; reflexivity|].
    intros response. apply keeps_bind; [apply keeps_read_all|]. intros raw.
    apply keeps_lift. }
  split; [|split; [|split; [|split; [|split; [|split; [|split]]]]]].
  - intros extra_headers. unfold get. apply keeps_bind; [|intros; apply Hrest].
    destruct extra_headers; intros st; reflexivity.
  - apply keeps_head; reflexivity.
  - apply keeps_lru_cache; [reflexivity|]. apply keeps_filesize_wrapped; reflexivity.
  - intros fuel max_retries start. apply keeps_stream; reflexivity.
  - intros fuel max_retries. apply keeps_seq_stream; reflexivity.
  - intros fuel. apply keeps_lru_cache; [reflexivity|].
    apply keeps_seq_filesize_wrapped; reflexivity.
  - intros payload. unfold post. apply keeps_bind; [|intros; apply Hrest].
    intros st. reflexivity.
  - intros payload l l' st Hne. unfold post.
    erewrite bind_pure
      by (unfold deref, bind, get_state, modify, ret; cbn; reflexivity).
    rewrite Hrest. cbn. apply lookup_insert_ne. congruence.
Qed.



End Frame.

(** ** The requests of [get], [post] and [head] *)

Section Requests.
Context {P : Platform}.

Lemma base_headers_lookup host k :
  (match host with
   | Some h => <["Host" := h]> (<["User-Agent" := "Mozilla/5.0"]>
                                  (<["accept-language" := "en-US,en"]> ∅))
   | None => <["User-Agent" := "Mozilla/5.0"]> (<["accept-language" := "en-US,en"]> ∅)
   end : gmap string string) !! k = base_header host k.
Proof.
  unfold base_header.
  destruct (String.eqb k "Host") eqn:H1;
    [apply String.eqb_eq in H1; subst k|apply String.eqb_neq in H1];
    (destruct host as [h|];
     [|]).
  - apply lookup_insert_eq.
  - reflexivity.
  - rewrite lookup_insert_ne by congruence.
    destruct (String.eqb k "User-Agent") eqn:H2;
      [apply String.eqb_eq in H2; subst k; apply lookup_insert_eq|apply String.eqb_neq in H2].
    rewrite lookup_insert_ne by congruence.
    destruct (String.eqb k "accept-language") eqn:H3;
      [apply String.eqb_eq in H3; subst k; apply lookup_insert_eq|apply String.eqb_neq in H3].
    rewrite lookup_insert_ne by congruence. apply lookup_empty.
  - destruct (String.eqb k "User-Agent") eqn:H2;
      [apply String.eqb_eq in H2; subst k; apply lookup_insert_eq|apply String.eqb_neq in H2].
    rewrite lookup_insert_ne by congruence.
    destruct (String.eqb k "accept-language") eqn:H3;
      [apply String.eqb_eq in H3; subst k; apply lookup_insert_eq|apply String.eqb_neq in H3].
    rewrite lookup_insert_ne by congruence. apply lookup_empty.
Qed.

(** The headers of a request: an entry of the caller, when there is one
    of that very name, and the base entry otherwise. *)
Lemma build_request_headers url method (hs : gmap string string) payload k :
  headers (build_request url method (Some hs) payload) !! k =
  match hs !! k with
  | Some v => Some v
  | None => base_header (snd (make_fronted_url url)) k
  end.
Proof.
  unfold build_request. destruct (make_fronted_url url) as [front_url host].
  cbn [headers snd]. destruct (decide (hs = ∅)) as [->|Hne].
  - rewrite lookup_empty. apply base_headers_lookup.
  - destruct (hs !! k) as [v|] eqn:Hk.
    + apply lookup_union_Some_l. exact Hk.
    + rewrite lookup_union_r by exact Hk. apply base_headers_lookup.
Qed.

Lemma build_request_parts url verb hs payload :
  full_url (build_request url verb hs payload) = fst (make_fronted_url url) /\
  method (build_request url verb hs payload) = verb /\
  data (build_request url verb hs payload) =
    if truthy payload then
      match payload with
      | DataBytes _ => payload
      | DataJson j => DataBytes (b (json_dumps j))
      end
    else payload.
Proof. unfold build_request. destruct (make_fronted_url url). auto. Qed.

(** X13. [get] with a header dictionary sends one request without a method
    and without data to the fronted url; its headers are the entries of
    the caller laid over [User-Agent: Mozilla/5.0],
    [accept-language: en-US,en] and the [Host] of the fronting; when the
    answer arrives whole, [get] returns its body decoded. *)
Theorem get_request_and_result url (l : loc) (hs : gmap string string) timeout
    response st :
  heap st !! l = Some hs ->
  accepts url = true ->
  urlopen (log st) (build_request url None (Some hs) (DataJson JNull)) timeout
    = inr response ->
  failure response = None ->
  let r := get url (Some l) timeout st in
  let request := build_request url None (Some hs) (DataJson JNull) in
  result r = match decode_utf8 (body response) with
             | inr text => Return text
             | inl e => Raise e
             end /\
  yielded r = [] /\
  log (final r) = log st ++ [(request, timeout)] /\
  full_url request = fst (make_fronted_url url) /\
  method request = None /\
  data request = DataJson JNull /\
  (forall k, headers request !! k =
             match hs !! k with
             | Some v => Some v
             | None => base_header (snd (make_fronted_url url)) k
             end).
Proof.
  intros Hl Hacc Hnet Hwhole r request. subst r request.
  destruct (build_request_parts url None (Some hs) (DataJson JNull)) as (Hu & Hm & Hd).
  unfold get.
  erewrite bind_pure
    by (unfold deref, bind, get_state, ret; cbn; rewrite Hl; reflexivity).
  change (default ∅ (Some hs)) with hs.
  erewrite bind_pure; cycle 1.
  { rewrite execute_request_opened by (rewrite recognized_build_request; exact Hacc).
    rewrite Hnet. reflexivity. }
  erewrite bind_pure by (unfold read_all; rewrite Hwhole; reflexivity).
  split; [destruct (decode_utf8 (body response)); reflexivity|].
  split; [destruct (decode_utf8 (body response)); reflexivity|].
  split; [destruct (decode_utf8 (body response)); reflexivity|].
  split; [exact Hu|]. split; [exact Hm|]. split; [exact Hd|].
  intros k. apply build_request_headers.
Qed.


Lemma lower_char_twice c : lower_char (lower_char c) = lower_char c.
Proof. destruct c as [[] [] [] [] [] [] [] []]; reflexivity. Qed.

Lemma lower_twice s : lower (lower s) = lower s.
Proof.
  induction s as [|c s IH]; [reflexivity|].
  cbn [lower]. rewrite lower_char_twice, IH. reflexivity.
Qed.

Lemma lowercase_keys_rev fields :
  lowercase_keys fields =
  fold_right (fun kv d => <[lower (fst kv) := snd kv]> d) (∅ : gmap string string)
             (rev fields).
Proof. unfold lowercase_keys. rewrite fold_left_rev_right. reflexivity. Qed.

(** The dictionary [head] builds: under a lowered name, the last field
    of that name; under a name that is not lowered, nothing. *)
Lemma lowercase_keys_lookup fields name :
  lowercase_keys fields !! lower name = message_get name (rev fields).
Proof.
  rewrite lowercase_keys_rev. induction (rev fields) as [|[k v] l IH]; [reflexivity|].
  cbn [fold_right fst snd message_get].
  destruct (String.eqb (lower k) (lower name)) eqn:Hk.
  - apply String.eqb_eq in Hk. rewrite Hk. apply lookup_insert_eq.
  - apply String.eqb_neq in Hk. rewrite lookup_insert_ne by exact Hk. exact IH.
Qed.

Lemma lowercase_keys_lowered fields k :
  is_Some (lowercase_keys fields !! k) -> lower k = k.
Proof.
  rewrite lowercase_keys_rev. induction (rev fields) as [|[k' v] l IH].
  - cbn. rewrite lookup_empty. intros [x Hx]. discriminate.
  - cbn [fold_right fst snd]. destruct (decide (lower k' = k)) as [<-|Hne].
    + intros _. apply lower_twice.
    + rewrite lookup_insert_ne by exact Hne. exact IH.
Qed.

Lemma head_answered url response st :
  recognized (head_request url) = true ->
  urlopen (log st) (head_request url) _GLOBAL_DEFAULT_TIMEOUT = inr response ->
  head url st =
  Run [] (Return (lowercase_keys (info response)))
      (set_log (fun l => l ++ [(head_request url, _GLOBAL_DEFAULT_TIMEOUT)])
               (set_last_url <[get_ident := url]> st)).
Proof.
  intros Hrec Hnet. unfold head.
  erewrite bind_pure; [reflexivity|].
  rewrite execute_request_opened by exact Hrec.
  fold (head_request url). rewrite Hnet. reflexivity.
Qed.

(** X15. The dictionary [head] returns has lower-case keys only, and holds
    under the lowered form of a name the value of the last response field
    of that name in any letter case (the [Content-Length] that [stream]
    reads from the same fields is the first one). *)
Theorem head_keeps_last_field url response st :
  recognized (head_request url) = true ->
  urlopen (log st) (head_request url) _GLOBAL_DEFAULT_TIMEOUT = inr response ->
  exists h,
    result (head url st) = Return h /\
    (forall name, h !! lower name = message_get name (rev (info response))) /\
    (forall k, is_Some (h !! k) -> lower k = k) /\
    log (final (head url st)) = log st ++ [(head_request url, _GLOBAL_DEFAULT_TIMEOUT)].
Proof.
  intros Hrec Hnet. rewrite (head_answered url response st Hrec Hnet).
  exists (lowercase_keys (info response)). cbn [result final].
  split; [reflexivity|]. split; [intros name; apply lowercase_keys_lookup|].
  split; [intros k; apply lowercase_keys_lowered|reflexivity].
Qed.

End Requests.

(** ** The memoised functions *)

Section Memo.
Context {P : Platform}.

Lemma cache_find_head {V} k (v : V) c : cache_find k ((k, v) :: c) = Some v.
Proof. cbn. rewrite String.eqb_refl. reflexivity. Qed.

Lemma lru_cache_hit {V} (cache : State -> list (string * V)) set_cache wrapped k v st :
  cache_find k (cache st) = Some v ->
  lru_cache cache set_cache wrapped k st =
  Run [] (Return v) (set_cache ((k, v) :: cache_drop k (cache st)) st).
Proof.
  intros Hhit. unfold lru_cache. erewrite bind_pure by reflexivity. rewrite Hhit.
  reflexivity.
Qed.

Lemma lru_cache_miss {V} (cache : State -> list (string * V)) set_cache wrapped k st :
  cache_find k (cache st) = None ->
  lru_cache cache set_cache wrapped k st =
  let r := wrapped k st in
  match result r with
  | Return v =>
      Run (yielded r) (Return v)
          (set_cache (firstn lru_maxsize ((k, v) :: cache (final r))) (final r))
  | Raise e => Run (yielded r) (Raise e) (final r)
  | OutOfFuel => Run (yielded r) OutOfFuel (final r)
  end.
Proof.
  intros Hmiss. unfold lru_cache. erewrite bind_pure by reflexivity. rewrite Hmiss.
  unfold bind. cbn zeta.
  destruct (wrapped k st) as [ys [v|e|] st1]; cbn; rewrite ?app_nil_r; reflexivity.
Qed.

(** A call that returns leaves its result at the head of the table. *)
Lemma lru_cache_stores {V} (cache : State -> list (string * V)) set_cache wrapped k v st :
  (forall c s, cache (set_cache c s) = c) ->
  result (lru_cache cache set_cache wrapped k st) = Return v ->
  exists rest, cache (final (lru_cache cache set_cache wrapped k st)) = (k, v) :: rest.
Proof.
  intros Hget Hres. destruct (cache_find k (cache st)) as [w|] eqn:Hfind.
  - rewrite (lru_cache_hit _ _ _ _ _ _ Hfind) in *. cbn in *.
    inversion Hres; subst. rewrite Hget. eexists. reflexivity.
  - rewrite (lru_cache_miss _ _ _ _ _ Hfind) in *. cbn zeta in *.
    destruct (wrapped k st) as [ys [w|e|] st1]; cbn in *; try discriminate.
    inversion Hres; subst. rewrite Hget. eexists. reflexivity.
Qed.

Lemma lru_cache_again {V} (cache : State -> list (string * V)) set_cache
    (wrapped wrapped' : string -> M V) k v st :
  (forall c s, cache (set_cache c s) = c) ->
  (forall c s, log (set_cache c s) = log s) ->
  result (lru_cache cache set_cache wrapped k st) = Return v ->
  let st1 := final (lru_cache cache set_cache wrapped k st) in
  let r := lru_cache cache set_cache wrapped' k st1 in
  result r = Return v /\ yielded r = [] /\ log (final r) = log st1.
Proof.
  intros Hget Hlog Hres st1 r.
  destruct (lru_cache_stores cache set_cache wrapped k v st Hget Hres) as (rest & Hc).
  fold st1 in Hc. subst r.
  rewrite (lru_cache_hit cache set_cache wrapped' k v st1)
    by (rewrite Hc; apply cache_find_head).
  cbn. rewrite Hlog. auto.
Qed.

(** X16. The memoised functions answer a repeated call from their table:
    once [filesize], [seq_filesize] or [get_dns_ip] has returned a value
    for an argument, the next call with that argument returns the same
    value and sends no request, whatever the network would answer now. *)
Theorem memoised_call_repeats k st :
  (forall v,
     result (filesize k st) = Return v ->
     let r := filesize k (final (filesize k st)) in
     result r = Return v /\ yielded r = [] /\ log (final r) = log (final (filesize k st))) /\
  (forall fuel fuel' v,
     result (seq_filesize fuel k st) = Return v ->
     let r := seq_filesize fuel' k (final (seq_filesize fuel k st)) in
     result r = Return v /\ yielded r = [] /\
     log (final r) = log (final (seq_filesize fuel k st))) /\
  (forall fuel fuel' v,
     result (get_dns_ip fuel k st) = Return v ->
     let r := get_dns_ip fuel' k (final (get_dns_ip fuel k st)) in
     result r = Return v /\ yielded r = [] /\
     log (final r) = log (final (get_dns_ip fuel k st))).
Proof.
  split; [|split].
  - intros v Hres. apply lru_cache_again; auto.
  - intros fuel fuel' v Hres. unfold seq_filesize. apply lru_cache_again; auto.
  - intros fuel fuel' v Hres. unfold get_dns_ip. apply lru_cache_again; auto.
Qed.

(** X17. [filesize] at a url it has not cached sends one [HEAD] request and
    reads the last [Content-Length] field of the answer, in any letter
    case: without such a field it raises [KeyError], with one that [int]
    rejects [ValueError], and in both cases stores nothing; otherwise it
    returns the number and stores it. *)
Theorem filesize_reads_last_content_length url response st :
  cache_find url (filesize_cache st) = None ->
  recognized (head_request url) = true ->
  urlopen (log st) (head_request url) _GLOBAL_DEFAULT_TIMEOUT = inr response ->
  let r := filesize url st in
  log (final r) = log st ++ [(head_request url, _GLOBAL_DEFAULT_TIMEOUT)] /\
  match message_get "content-length" (rev (info response)) with
  | None =>
      result r = Raise (KeyError "content-length") /\
      filesize_cache (final r) = filesize_cache st
  | Some v =>
      match py_int v with
      | Some n =>
          result r = Return n /\
          cache_find url (filesize_cache (final r)) = Some n
      | None =>
          (exists msg, result r = Raise (ValueError msg)) /\
          filesize_cache (final r) = filesize_cache st
      end
  end.
Proof.
  intros Hmiss Hrec Hnet r. subst r.
  unfold filesize. rewrite (lru_cache_miss _ _ _ _ _ Hmiss). cbn zeta.
  unfold filesize_wrapped.
  erewrite bind_pure by (apply head_answered; eassumption).
  assert (Hlast : lowercase_keys (info response) !! "content-length" =
                  message_get "content-length" (rev (info response)))
    by exact (lowercase_keys_lookup (info response) "content-length").
  rewrite Hlast.
  destruct (message_get "content-length" (rev (info response))) as [v|];
    [destruct (py_int v) as [n|]|]; cbn.
  - rewrite String.eqb_refl. auto.
  - split; [reflexivity|]. split; [eexists; reflexivity|reflexivity].
  - auto.
Qed.

Lemma cache_drop_length {V} k (c : list (string * V)) :
  (length (cache_drop k c) <= length c)%nat.
Proof. unfold cache_drop. apply filter_length_le. Qed.

Lemma cache_find_length {V} k (v : V) c :
  cache_find k c = Some v -> (S (length (cache_drop k c)) <= length c)%nat.
Proof.
  induction c as [|[k' v'] c IH]; [discriminate|].
  unfold cache_drop in *. cbn [cache_find List.filter fst].
  destruct (String.eqb k k'); cbn [negb length].
  - intros _. pose proof (cache_drop_length k c) as H. unfold cache_drop in H. lia.
  - intros H. specialize (IH H). lia.
Qed.

(** A memoised call keeps its table within the bound. *)
Lemma lru_cache_bounded {V} (cache : State -> list (string * V)) set_cache wrapped k st :
  (forall c s, cache (set_cache c s) = c) ->
  keeps cache (wrapped k) ->
  (length (cache st) <= lru_maxsize)%nat ->
  (length (cache (final (lru_cache cache set_cache wrapped k st))) <= lru_maxsize)%nat.
Proof.
  intros Hget Hkeeps Hb. destruct (cache_find k (cache st)) as [v|] eqn:Hfind.
  - rewrite (lru_cache_hit _ _ _ _ _ _ Hfind). cbn [final]. rewrite Hget.
    pose proof (cache_find_length k v _ Hfind). cbn [length]. lia.
  - rewrite (lru_cache_miss _ _ _ _ _ Hfind). cbn zeta. specialize (Hkeeps st).
    destruct (wrapped k st) as [ys [v|e|] st1]; cbn [result final] in *;
      try (rewrite Hkeeps; exact Hb).
    rewrite Hget. apply firstn_le_length.
Qed.

(** X18. The memo tables are bounded: when the tables of [get_dns_ip],
    [filesize] and [seq_filesize] hold at most 128 entries each, they
    still do after a call of any of the three, so from the empty tables
    of a fresh module no table ever holds more. A full table forgets its
    least recently used entry: when the table of [filesize] holds 128
    urls and a call for a url outside it returns, the new result is at
    the head of the table and the entry that was last is gone. *)
Theorem memo_tables_bounded fuel k st :
  caches_bounded st ->
  caches_bounded (final (filesize k st)) /\
  caches_bounded (final (seq_filesize fuel k st)) /\
  caches_bounded (final (get_dns_ip fuel k st)) /\
  (forall rest oldest v,
     filesize_cache st = rest ++ [oldest] ->
     length (filesize_cache st) = lru_maxsize ->
     cache_find k (filesize_cache st) = None ->
     result (filesize k st) = Return v ->
     filesize_cache (final (filesize k st)) = (k, v) :: rest).
Proof.
  intros (Hd & Hf & Hs).
  assert (Hw1 : forall T (c : State -> T),
            (forall u st, c (set_last_url <[get_ident := u]> st) = c st) ->
            (forall f st, c (set_log f st) = c st) ->
            keeps c (filesize_wrapped k) /\ keeps c (seq_filesize_wrapped fuel k) /\
            keeps c (get_dns_ip_wrapped fuel k)).
  { intros T c H1 H2. split; [|split].
    - apply keeps_filesize_wrapped; assumption.
    - apply keeps_seq_filesize_wrapped; assumption.
    - apply keeps_get_dns_ip_wrapped; assumption. }
  destruct (Hw1 _ dns_cache ltac:(reflexivity) ltac:(reflexivity)) as (Hd1 & Hd2 & Hd3).
  destruct (Hw1 _ filesize_cache ltac:(reflexivity) ltac:(reflexivity)) as (Hf1 & Hf2 & Hf3).
  destruct (Hw1 _ seq_filesize_cache ltac:(reflexivity) ltac:(reflexivity))
    as (Hs1 & Hs2 & Hs3).
  assert (Hbounded : caches_bounded (final (filesize k st)) /\
                     caches_bounded (final (seq_filesize fuel k st)) /\
                     caches_bounded (final (get_dns_ip fuel k st))).
  { unfold caches_bounded, filesize, seq_filesize, get_dns_ip.
    repeat split;
      first [ apply lru_cache_bounded; auto; fail
            | match goal with
              | |- (length (?c (final (lru_cache ?cache ?set ?w k st))) <= _)%nat =>
                  replace (c (final (lru_cache cache set w k st))) with (c st);
                  [assumption|symmetry; apply (keeps_lru_cache _ c); auto]
              end ]. }
  destruct Hbounded as (H1 & H2 & H3).
  split; [exact H1|]. split; [exact H2|]. split; [exact H3|].
  intros rest oldest v Hc Hfull Hmiss Hres. unfold filesize in *.
  rewrite (lru_cache_miss _ _ _ _ _ Hmiss) in *. cbn zeta in *.
  specialize (Hf1 st).
  destruct (filesize_wrapped k st) as [ys [w|e|] st1]; cbn [result final] in *;
    try discriminate.
  inversion Hres; subst w. cbn [filesize_cache set_filesize_cache].
  rewrite Hf1, Hc. rewrite Hc, length_app in Hfull. cbn [length] in Hfull.
  change (firstn lru_maxsize ((k, v) :: rest ++ [oldest]))
    with ((k, v) :: firstn (pred lru_maxsize) (rest ++ [oldest])).
  f_equal. rewrite firstn_app.
  replace (pred lru_maxsize - length rest)%nat with 0%nat by lia.
  rewrite firstn_all2 by lia. cbn. apply app_nil_r.
Qed.

End Memo.

(** ** The address override on other urls *)

Section Override.
Context {P : Platform}.

Lemma doh_url_is_lookup domain_name : contains "/resolve" (doh_url domain_name) = true.
Proof. reflexivity. Qed.

Lemma doh_url_nonempty domain_name : String.eqb (doh_url domain_name) "" = false.
Proof. reflexivity. Qed.

(** X19. The override fails open: when the current thread has recorded no
    url, or one that holds neither ['/resolve'] nor ['googlevideo.com'],
    the answer of the platform resolver, or its exception, is passed on
    as it is; nothing but the platform lookup happens. *)
Theorem override_passes_other_urls fuel host port family type proto flags st :
  (forall url, last_url st !! get_ident = Some url ->
     contains "/resolve" url = false /\ contains "googlevideo.com" url = false) ->
  _patched_getaddrinfo fuel host port family type proto flags st =
  Run [] (match _orig_getaddrinfo host port family type proto flags with
          | inl e => Raise e
          | inr res => Return res
          end)
      (set_lookups (fun l => l ++ [(host, port)]) st).
Proof.
  intros Hurl. unfold _patched_getaddrinfo, do_getaddrinfo.
  destruct (_orig_getaddrinfo host port family type proto flags) as [e|res];
    [reflexivity|].
  unfold bind, lift, ret, get_state, modify. cbn.
  destruct (last_url st !! get_ident) as [url|]; [|reflexivity].
  destruct (Hurl url eq_refl) as [H1 H2].
  destruct (String.eqb url ""); [reflexivity|]. rewrite H1, H2. reflexivity.
Qed.

(** The override on the url of a media host, up to the DoH lookup. *)
Lemma override_media_host fuel host port family type proto flags st url entry others
    domain domains :
  last_url st !! get_ident = Some url ->
  contains "/resolve" url = false ->
  contains "googlevideo.com" url = true ->
  _orig_getaddrinfo host port family type proto flags = inr (entry :: others) ->
  split_redirector_url url = domain :: domains ->
  _patched_getaddrinfo fuel host port family type proto flags st =
  bind (get_dns_ip fuel domain) (fun addr => ret (readdress entry addr))
       (set_lookups (fun l => l ++ [(host, port)]) st).
Proof.
  intros Hurl Hprobe Hmedia Hres Hsplit.
  unfold _patched_getaddrinfo, do_getaddrinfo. rewrite Hres.
  erewrite bind_pure by reflexivity. erewrite bind_pure by reflexivity.
  change (final (lift (inr (entry :: others))
            (final (modify (set_lookups (fun l => l ++ [(host, port)])) st))))
    with (set_lookups (fun l => l ++ [(host, port)]) st).
  cbn [last_url set_lookups]. rewrite Hurl.
  rewrite (contains_nonempty "googlevideo.com" url) by (congruence || assumption).
  rewrite Hprobe, Hmedia, Hsplit. reflexivity.
Qed.

(** X20. With the address of the media host in the table of [get_dns_ip],
    the override sends nothing: it returns the first entry of the
    platform resolver with that address and port 443 in place of its own,
    and leaves the recorded url as it was. *)
Theorem override_uses_cached_address fuel host port family type proto flags st url
    entry others domain domains addr :
  last_url st !! get_ident = Some url ->
  contains "/resolve" url = false ->
  contains "googlevideo.com" url = true ->
  _orig_getaddrinfo host port family type proto flags = inr (entry :: others) ->
  split_redirector_url url = domain :: domains ->
  cache_find domain (dns_cache st) = Some addr ->
  let r := _patched_getaddrinfo fuel host port family type proto flags st in
  result r =
    Return [mkAddrinfo (ai_family entry) (ai_type entry) (ai_proto entry)
                       (ai_canonname entry) (addr2 addr 443)] /\
  log (final r) = log st /\
  last_url (final r) = last_url st.
Proof.
  intros Hurl Hprobe Hmedia Hres Hsplit Hhit r. subst r.
  rewrite (override_media_host _ _ _ _ _ _ _ _ _ _ _ _ _ Hurl Hprobe Hmedia Hres Hsplit).
  unfold get_dns_ip. erewrite bind_pure by (apply lru_cache_hit; exact Hhit).
  cbn. auto.
Qed.

(** A DoH lookup that the resolver answers. *)
Lemma get_dns_ip_wrapped_run fuel domain response text json_data st :
  urlopen (log st) (doh_request domain) _GLOBAL_DEFAULT_TIMEOUT = inr response ->
  failure response = None ->
  decode_utf8 (body response) = inr text ->
  json_loads text = inr json_data ->
  get_dns_ip_wrapped fuel domain st =
  Run [] (_read_ip_from_dns_answer fuel json_data)
      (set_log (fun l => l ++ [(doh_request domain, _GLOBAL_DEFAULT_TIMEOUT)])
               (set_last_url <[get_ident := doh_url domain]> st)).
Proof.
  intros Hnet Hwhole Hdecode Hjson. unfold get_dns_ip_wrapped.
  fold (doh_url domain). fold (doh_request domain).
  erewrite bind_pure by reflexivity.
  erewrite bind_pure; cycle 1.
  { unfold do_urlopen. cbn [log set_last_url]. rewrite Hnet. reflexivity. }
  erewrite bind_pure by (unfold read_all; rewrite Hwhole; reflexivity).
  rewrite Hdecode. erewrite bind_pure by reflexivity.
  rewrite Hjson. erewrite bind_pure by reflexivity. reflexivity.
Qed.

Lemma override_miss_run fuel host port family type proto flags st url entry others
    domain domains response text json_data addr :
  last_url st !! get_ident = Some url ->
  contains "/resolve" url = false ->
  contains "googlevideo.com" url = true ->
  _orig_getaddrinfo host port family type proto flags = inr (entry :: others) ->
  split_redirector_url url = domain :: domains ->
  cache_find domain (dns_cache st) = None ->
  urlopen (log st) (doh_request domain) _GLOBAL_DEFAULT_TIMEOUT = inr response ->
  failure response = None ->
  decode_utf8 (body response) = inr text ->
  json_loads text = inr json_data ->
  _read_ip_from_dns_answer fuel json_data = Return addr ->
  _patched_getaddrinfo fuel host port family type proto flags st =
  Run [] (Return (readdress entry addr))
      (set_dns_cache (firstn lru_maxsize ((domain, addr) :: dns_cache st))
         (set_log (fun l => l ++ [(doh_request domain, _GLOBAL_DEFAULT_TIMEOUT)])
            (set_last_url <[get_ident := doh_url domain]>
               (set_lookups (fun l => l ++ [(host, port)]) st)))).
Proof.
  intros Hurl Hprobe Hmedia Hres Hsplit Hmiss Hnet Hwhole Hdecode Hjson Hip.
  rewrite (override_media_host _ _ _ _ _ _ _ _ _ _ _ _ _ Hurl Hprobe Hmedia Hres Hsplit).
  erewrite bind_pure; [reflexivity|].
  unfold get_dns_ip. rewrite lru_cache_miss by exact Hmiss. cbn zeta.
  rewrite (get_dns_ip_wrapped_run fuel domain response text json_data)
    by assumption.
  cbn [result yielded final]. rewrite Hip. reflexivity.
Qed.

(** X21. Without the address of the media host in the table, the override
    asks the DoH resolver once: one request for
    [https://www.google.com/resolve?name=<domain>] with the [Host] header
    of the public resolver, no method and no data; the address read from
    the answer replaces that of the first platform entry, with port 443,
    and is stored in the table. *)
Theorem override_resolves_media_host fuel host port family type proto flags st url
    entry others domain domains response text json_data addr :
  last_url st !! get_ident = Some url ->
  contains "/resolve" url = false ->
  contains "googlevideo.com" url = true ->
  _orig_getaddrinfo host port family type proto flags = inr (entry :: others) ->
  split_redirector_url url = domain :: domains ->
  cache_find domain (dns_cache st) = None ->
  urlopen (log st) (doh_request domain) _GLOBAL_DEFAULT_TIMEOUT = inr response ->
  failure response = None ->
  decode_utf8 (body response) = inr text ->
  json_loads text = inr json_data ->
  _read_ip_from_dns_answer fuel json_data = Return addr ->
  let r := _patched_getaddrinfo fuel host port family type proto flags st in
  result r =
    Return [mkAddrinfo (ai_family entry) (ai_type entry) (ai_proto entry)
                       (ai_canonname entry) (addr2 addr 443)] /\
  log (final r) = log st ++ [(doh_request domain, _GLOBAL_DEFAULT_TIMEOUT)] /\
  full_url (doh_request domain) = "https://www.google.com/resolve?name=" +:+ domain /\
  headers (doh_request domain) !! "Host" = Some "google-public-dns-a.google.com" /\
  method (doh_request domain) = None /\
  cache_find domain (dns_cache (final r)) = Some addr.
Proof.
  intros Hurl Hprobe Hmedia Hres Hsplit Hmiss Hnet Hwhole Hdecode Hjson Hip r. subst r.
  rewrite (override_miss_run fuel host port family type proto flags st url entry others
             domain domains response text json_data addr) by assumption.
  cbn [result final log dns_cache set_dns_cache set_log set_last_url set_lookups].
  split; [reflexivity|]. split; [reflexivity|]. split; [reflexivity|].
  split; [reflexivity|]. split; [reflexivity|].
  change (firstn lru_maxsize ((domain, addr) :: dns_cache st))
    with ((domain, addr) :: firstn (pred lru_maxsize) (dns_cache st)).
  apply cache_find_head.
Qed.

(** X22. A DoH lookup made inside the override replaces the url the thread
    had recorded by the lookup url: until the executor records a url
    again, a further resolution by this thread, for whatever host, is
    sent to the fixed address 216.239.36.36 and not to an address of the
    media host. *)
Theorem override_after_lookup_is_fixed fuel host port family type proto flags st url
    entry others domain domains response text json_data addr
    fuel' host' port' family' type' proto' flags' entry' others' :
  last_url st !! get_ident = Some url ->
  contains "/resolve" url = false ->
  contains "googlevideo.com" url = true ->
  _orig_getaddrinfo host port family type proto flags = inr (entry :: others) ->
  split_redirector_url url = domain :: domains ->
  cache_find domain (dns_cache st) = None ->
  urlopen (log st) (doh_request domain) _GLOBAL_DEFAULT_TIMEOUT = inr response ->
  failure response = None ->
  decode_utf8 (body response) = inr text ->
  json_loads text = inr json_data ->
  _read_ip_from_dns_answer fuel json_data = Return addr ->
  _orig_getaddrinfo host' port' family' type' proto' flags' = inr (entry' :: others') ->
  let st1 := final (_patched_getaddrinfo fuel host port family type proto flags st) in
  last_url st1 !! get_ident = Some (doh_url domain) /\
  result (_patched_getaddrinfo fuel' host' port' family' type' proto' flags' st1) =
    Return [mkAddrinfo (ai_family entry') (ai_type entry') (ai_proto entry')
                       (ai_canonname entry') (addr2 "216.239.36.36" 443)].
Proof.
  intros Hurl Hprobe Hmedia Hres Hsplit Hmiss Hnet Hwhole Hdecode Hjson Hip Hres' st1.
  subst st1.
  rewrite (override_miss_run fuel host port family type proto flags st url entry others
             domain domains response text json_data addr) by assumption.
  cbn [final].
  split; [cbn; apply lookup_insert_eq|].
  unfold _patched_getaddrinfo, do_getaddrinfo. rewrite Hres'.
  erewrite bind_pure by reflexivity. erewrite bind_pure by reflexivity.
  match goal with
  | |- context [final (lift (inr ?res) (final (modify ?f ?s)))] =>
      change (final (lift (inr res) (final (modify f s)))) with (f s)
  end.
  cbn [final last_url set_dns_cache set_log set_last_url set_lookups].
  rewrite lookup_insert_eq, doh_url_nonempty, doh_url_is_lookup. reflexivity.
Qed.

(** X23. The override fails closed for a media host: when the DoH lookup
    raises (the resolver cannot be reached, its answer is no JSON or has
    no [Answer]), the override raises the same exception although the
    platform resolver had answered, and stores nothing in the table. *)
Theorem override_lookup_failure_propagates fuel host port family type proto flags st url
    entry others domain domains e :
  last_url st !! get_ident = Some url ->
  contains "/resolve" url = false ->
  contains "googlevideo.com" url = true ->
  _orig_getaddrinfo host port family type proto flags = inr (entry :: others) ->
  split_redirector_url url = domain :: domains ->
  cache_find domain (dns_cache st) = None ->
  result (get_dns_ip_wrapped fuel domain (set_lookups (fun l => l ++ [(host, port)]) st))
    = Raise e ->
  let r := _patched_getaddrinfo fuel host port family type proto flags st in
  result r = Raise e /\
  dns_cache (final r) = dns_cache st /\
  log (final r) =
    log (final (get_dns_ip_wrapped fuel domain
                  (set_lookups (fun l => l ++ [(host, port)]) st))).
Proof.
  intros Hurl Hprobe Hmedia Hres Hsplit Hmiss Hfail r. subst r.
  rewrite (override_media_host _ _ _ _ _ _ _ _ _ _ _ _ _ Hurl Hprobe Hmedia Hres Hsplit).
  set (st0 := set_lookups (fun l => l ++ [(host, port)]) st) in *.
  pose proof (keeps_get_dns_ip_wrapped _ dns_cache ltac:(reflexivity) ltac:(reflexivity)
                fuel domain st0) as Hkeeps.
  destruct (get_dns_ip_wrapped fuel domain st0) as [ys [v|e'|] st1] eqn:Hw;
    cbn [result final] in *; try discriminate.
  inversion Hfail; subst e'.
  assert (Hrun : get_dns_ip fuel domain st0 = Run ys (Raise e) st1).
  { unfold get_dns_ip. rewrite lru_cache_miss by exact Hmiss. cbn zeta.
    rewrite Hw. reflexivity. }
  rewrite (bind_Raise _ _ _ _ _ _ Hrun). cbn [result final].
  split; [reflexivity|]. split; [exact Hkeeps|reflexivity].
Qed.

Lemma scan_answers_unnamed answers ip :
  (forall answer, In answer answers -> name answer <> ip) ->
  scan_answers answers ip false = (ip, false).
Proof.
  unfold scan_answers. induction answers as [|a answers IH]; intros Hn; [reflexivity|].
  cbn [fold_left fst].
  replace (String.eqb ip (name a)) with false.
  - apply IH. intros x Hx. apply Hn. right. exact Hx.
  - symmetry. apply String.eqb_neq. intros ->. apply (Hn a); [left|]; reflexivity.
Qed.

Lemma scan_answers_matched answers :
  forall ip search,
    search = true -> snd (scan_answers answers ip search) = true.
Proof.
  unfold scan_answers. induction answers as [|a answers IH]; intros ip search Hs;
    [exact Hs|].
  cbn [fold_left fst]. destruct (String.eqb ip (name a)); apply IH; [reflexivity|exact Hs].
Qed.

Lemma scan_answers_quiet answers :
  forall ip,
    snd (scan_answers answers ip false) = false ->
    fst (scan_answers answers ip false) = ip /\
    forall answer, In answer answers -> name answer <> ip.
Proof.
  unfold scan_answers. induction answers as [|a answers IH]; intros ip Hq.
  - split; [reflexivity|intros ? []].
  - cbn [fold_left fst] in *. destruct (String.eqb ip (name a)) eqn:Heq.
    + pose proof (scan_answers_matched answers (data_ a) true eq_refl) as Ht.
      unfold scan_answers in Ht. congruence.
    + destruct (IH ip Hq) as [Hf Hn]. split; [exact Hf|].
      apply String.eqb_neq in Heq.
      intros x [<-|Hx]; [congruence|apply Hn; exact Hx].
Qed.

Lemma follow_answers_terminal answers fuel :
  forall ip resolved,
    follow_answers fuel answers ip = Return resolved ->
    forall answer, In answer answers -> name answer <> resolved.
Proof.
  induction fuel as [|fuel IH]; intros ip resolved H; [discriminate|].
  cbn in H. pose proof (scan_answers_quiet answers ip) as Hq.
  destruct (scan_answers answers ip false) as [ip' [|]]; cbn in *.
  - eapply IH. exact H.
  - inversion H; subst. destruct (Hq eq_refl) as [-> Hn]. exact Hn.
Qed.

(** X24. Whatever [_read_ip_from_dns_answer] returns is a name that no
    entry of the answer carries, cyclic or not; and it is the name of the
    question itself exactly when no entry carries that name, in which
    case one pass over the entries is enough. *)
Theorem read_ip_result_is_terminal fuel json_data ip questions answers resolved :
  Question json_data = Some (ip :: questions) ->
  Answer json_data = Some answers ->
  _read_ip_from_dns_answer (S fuel) json_data = Return resolved ->
  (forall answer, In answer answers -> name answer <> resolved) /\
  (resolved = ip <-> forall answer, In answer answers -> name answer <> ip).
Proof.
  intros Hq Ha Hr. unfold _read_ip_from_dns_answer in Hr. rewrite Hq, Ha in Hr.
  pose proof (follow_answers_terminal answers (S fuel) ip resolved Hr) as Hterm.
  split; [exact Hterm|]. split.
  - intros ->. exact Hterm.
  - intros Hn. cbn in Hr. rewrite (scan_answers_unnamed answers ip Hn) in Hr.
    congruence.
Qed.

(** X25. Answers that are not well formed: without a [Question] the
    function raises [KeyError], with an empty one [IndexError], without
    an [Answer] [KeyError]; with an [Answer] in which nothing carries the
    name of the question (an empty one, say) it returns that name. *)
Theorem read_ip_edge_cases fuel json_data :
  (Question json_data = None ->
   _read_ip_from_dns_answer fuel json_data = Raise (KeyError "Question")) /\
  (Question json_data = Some [] ->
   exists msg, _read_ip_from_dns_answer fuel json_data = Raise (IndexError msg)) /\
  (forall ip questions,
     Question json_data = Some (ip :: questions) ->
     (Answer json_data = None ->
      _read_ip_from_dns_answer fuel json_data = Raise (KeyError "Answer")) /\
     (forall answers,
        Answer json_data = Some answers ->
        (forall answer, In answer answers -> name answer <> ip) ->
        (1 <= fuel)%nat ->
        _read_ip_from_dns_answer fuel json_data = Return ip)).
Proof.
  unfold _read_ip_from_dns_answer. split; [|split].
  - intros ->. reflexivity.
  - intros ->. eexists. reflexivity.
  - intros ip questions ->. split.
    + intros ->. reflexivity.
    + intros answers -> Hn Hfuel. destruct fuel as [|fuel]; [lia|].
      cbn. rewrite (scan_answers_unnamed answers ip Hn). reflexivity.
Qed.

End Override.

(** ** Segmented payloads, further *)

Section Further.
Context {P : Platform}.

Lemma len_flat_map_bodies (responses : nat -> Response) (l : list nat) :
  len (flat_map (fun k => body (responses k)) l) =
  fold_right Z.add 0 (map (fun k => len (body (responses k))) l).
Proof.
  induction l as [|k l IH]; [reflexivity|].
  cbn [flat_map map fold_right]. rewrite <- IH. unfold len. rewrite length_app. lia.
Qed.

(** The run of [seq_stream] on a well-served segmented url. *)
Lemma seq_stream_run fuel url split_url timeout max_retries
    (responses : nat -> Response) (count : nat) st :
  urlsplit url = inr split_url ->
  0 <= max_retries ->
  (forall k, (k <= count)%nat ->
     answers_get (seq_url split_url (Z.of_nat k)) timeout (responses k) /\
     declares_length (responses k)) ->
  segment_count_in (body (responses 0%nat)) = Some (Z.of_nat count) ->
  (forall k, (k <= count)%nat -> (length (body (responses k)) + count + 4 <= fuel)%nat) ->
  exists st',
    seq_stream fuel url timeout max_retries st =
    Run (flat_map (fun k => chunks (body (responses k))) (seq 0 (S count)))
        (Return tt) st' /\
    log st' = log st ++ map (fun k => (get_request (seq_url split_url (Z.of_nat k)), timeout))
                             (seq 0 (S count)).
Proof.
  intros Hsplit Hn Hserved Hcount Hfuel.
  unfold seq_stream. rewrite Hsplit. erewrite bind_pure by reflexivity.
  fold (seq_url split_url 0).
  destruct (Hserved 0%nat) as [Hget Hlen]; [lia|].
  change (Z.of_nat 0) with 0 in Hget.
  pose proof (Hfuel 0%nat ltac:(lia)) as Hf0.
  erewrite bind_Return; cycle 1.
  { unfold collect.
    rewrite (stream_whole fuel _ timeout max_retries (responses 0%nat))
      by (try eassumption; lia).
    cbn [yielded result final]. rewrite concat_chunks. reflexivity. }
  erewrite bind_pure by apply find_segment_count_run.
  rewrite last_marker_split, Hcount.
  assert (Hsized : forall k, (k <= count)%nat ->
                     (length (body (responses k)) + 3 <= fuel - count - 1)%nat).
  { intros k Hk. pose proof (Hfuel k Hk). lia. }
  destruct (segment_loop_run split_url timeout max_retries responses count
              (fuel - count - 1) Hn Hserved Hsized count 1%nat fuel (QInt 0)
              (set_log (fun l => l ++ [(get_request (seq_url split_url 0), timeout)])
                       (set_last_url <[get_ident := seq_url split_url 0]> st)))
    as (st' & Hrun & Hlog); [lia|lia|].
  change (Z.of_nat 1) with 1 in Hrun. rewrite Hrun.
  cbn [yielded result final]. eexists. split; [reflexivity|].
  rewrite Hlog. cbn [log set_log set_last_url seq map].
  rewrite <- app_assoc. reflexivity.
Qed.

(** X26. The size prober and the segment reader agree: on a server that
    answers every segment url with a body of the length it declares,
    whose segment 0 announces [count > 0] segments, and whose [HEAD]
    answers declare the lengths of those bodies, [seq_filesize] returns
    the number of bytes that [seq_stream] yields. *)
Theorem seq_filesize_counts_streamed_bytes fuel url split_url timeout max_retries
    (responses heads : nat -> Response) (count : nat) st st' :
  urlsplit url = inr split_url ->
  0 <= max_retries ->
  (0 < count)%nat ->
  (forall k, (k <= count)%nat ->
     answers_get (seq_url split_url (Z.of_nat k)) timeout (responses k) /\
     declares_length (responses k)) ->
  answers_get (seq_url split_url 0) _GLOBAL_DEFAULT_TIMEOUT (responses 0%nat) ->
  segment_count_in (body (responses 0%nat)) = Some (Z.of_nat count) ->
  (forall k, (1 <= k <= count)%nat ->
     answers_head (seq_url split_url (Z.of_nat k)) (heads k) /\
     declared_size (heads k) (len (body (responses k)))) ->
  cache_find url (seq_filesize_cache st') = None ->
  (forall k, (k <= count)%nat -> (length (body (responses k)) + count + 4 <= fuel)%nat) ->
  result (seq_filesize fuel url st') =
  Return (len (concat (yielded (seq_stream fuel url timeout max_retries st)))).
Proof.
  intros Hsplit Hn Hpos Hserved Hget0 Hcount Hheads Hmiss Hfuel.
  destruct (seq_stream_run fuel url split_url timeout max_retries responses count st
              Hsplit Hn Hserved Hcount Hfuel) as (st1 & Hrun & _).
  rewrite Hrun. cbn [yielded]. rewrite concat_flat_map_chunks, len_flat_map_bodies.
  destruct (seq_filesize_miss fuel url st' Hmiss) as [Hres _]. rewrite Hres.
  destruct (Hserved 0%nat) as [_ (Hwhole & _)]; [lia|].
  rewrite (seq_filesize_wrapped_start fuel url split_url (responses 0%nat) st' Hsplit Hget0
             Hwhole).
  cbn zeta. rewrite Hcount. cbn [default from_option id].
  replace (Z.of_nat count =? 0) with false by (symmetry; apply Z.eqb_neq; lia).
  pose proof (Hfuel 0%nat ltac:(lia)) as Hf0.
  destruct (size_loop_run split_url heads (fun k => len (body (responses k))) count Hheads
              count 1%nat fuel (QInt 0) (0 + len (body (responses 0%nat)))
              (set_log (fun l => l ++ [(get_request (seq_url split_url 0),
                                        _GLOBAL_DEFAULT_TIMEOUT)])
                       (set_last_url <[get_ident := seq_url split_url 0]> st')))
    as (st2 & Hsize & _); [lia|lia|lia|].
  change (Z.of_nat 1) with 1 in Hsize. rewrite Hsize. cbn [result seq map fold_right].
  f_equal.
Qed.

(** The segments before [failing] are streamed, then the request for
    segment [failing] fails with an exception that is not retried. *)
Lemma segment_loop_stops split_url timeout max_retries (responses : nat -> Response)
    (count failing enough : nat) e :
  0 <= max_retries ->
  (forall k, (k < failing)%nat ->
     answers_get (seq_url split_url (Z.of_nat k)) timeout (responses k) /\
     declares_length (responses k)) ->
  (forall k, (k < failing)%nat -> (length (body (responses k)) + 3 <= enough)%nat) ->
  (failing <= count)%nat ->
  recognized (get_request (seq_url split_url (Z.of_nat failing))) = true ->
  (forall history,
     urlopen history (get_request (seq_url split_url (Z.of_nat failing))) timeout = inl e) ->
  ~ transient e ->
  forall (k seq_num fuel : nat) (v : qvalue) st,
    (seq_num + k = failing)%nat ->
    (k + enough + 3 <= fuel)%nat ->
    exists st',
      segment_loop fuel (base_url_of split_url) (dict_set "sq" v (querys_of split_url)) timeout
                   max_retries (Some (Z.of_nat count)) (Z.of_nat seq_num) st =
      Run (flat_map (fun j => chunks (body (responses j))) (seq seq_num k)) (Raise e) st' /\
      log st' =
      log st ++ map (fun j => (get_request (seq_url split_url (Z.of_nat j)), timeout))
                    (seq seq_num (S k)).
Proof.
  intros Hn Hserved Hsized Hle Hrec Hnet He.
  induction k as [|k IH]; intros seq_num fuel v st Hk Hfuel;
    (destruct fuel as [|fuel]; [lia|]); rewrite segment_loop_unfold;
    (replace (Z.of_nat seq_num <=? Z.of_nat count) with true
       by (symmetry; apply Z.leb_le; lia));
    rewrite dict_set_twice; fold (seq_url split_url (Z.of_nat seq_num)).
  - assert (seq_num = failing) by lia. subst seq_num.
    destruct fuel as [|[|fuel]]; try lia.
    assert (Ha : attempt_loop (S fuel) (seq_url split_url (Z.of_nat failing)) timeout
                   max_retries 0 0 st =
                 Run [] (Raise e)
                     (set_log (fun l => l ++ [(get_request (seq_url split_url (Z.of_nat failing)),
                                               timeout)])
                        (set_last_url <[get_ident := seq_url split_url (Z.of_nat failing)]> st))).
    { rewrite attempt_loop_step by lia. cbn zeta.
      rewrite (attempt_failed _ _ _ e) by (rewrite ?stream_request_zero; auto).
      cbn [result final]. rewrite stream_request_zero.
      change (range_suffix 0) with "". rewrite append_empty.
      destruct e as [[|]| | | | | | | | | |]; try reflexivity;
        exfalso; apply He; unfold transient; auto. }
    erewrite bind_Raise; cycle 1.
    { unfold stream. rewrite stream_loop_raises with (e := e);
        rewrite ?Ha; reflexivity. }
    eexists. split; reflexivity.
  - destruct (Hserved seq_num) as [Hget Hlen]; [lia|].
    pose proof (Hsized seq_num ltac:(lia)) as Hsize.
    erewrite bind_Return; [|apply stream_whole; try eassumption; lia].
    replace (Z.of_nat seq_num + 1) with (Z.of_nat (S seq_num)) by lia.
    edestruct (IH (S seq_num) fuel (QInt (Z.of_nat seq_num))) as (st' & Hrun & Hlog);
      [lia|lia|].
    rewrite Hrun. cbn [yielded result final]. exists st'. split; [reflexivity|].
    rewrite Hlog. cbn [log set_log set_last_url seq map].
    rewrite <- app_assoc. reflexivity.
Qed.

(** X27. A segment that cannot be fetched ends [seq_stream] after the
    segments before it: when segment 0 announces [count] segments, the
    segments below [failing] (with [1 <= failing <= count]) are served and
    the request for segment [failing] fails with an exception that is not
    retried, the chunks of the segments 0 to [failing - 1] are yielded in
    order, and then that exception is raised. *)
Theorem seq_stream_stops_at_failing_segment fuel url split_url timeout max_retries
    (responses : nat -> Response) (count failing : nat) e st :
  urlsplit url = inr split_url ->
  0 <= max_retries ->
  (1 <= failing <= count)%nat ->
  (forall k, (k < failing)%nat ->
     answers_get (seq_url split_url (Z.of_nat k)) timeout (responses k) /\
     declares_length (responses k)) ->
  segment_count_in (body (responses 0%nat)) = Some (Z.of_nat count) ->
  recognized (get_request (seq_url split_url (Z.of_nat failing))) = true ->
  (forall history,
     urlopen history (get_request (seq_url split_url (Z.of_nat failing))) timeout = inl e) ->
  ~ transient e ->
  (forall k, (k < failing)%nat -> (length (body (responses k)) + failing + 6 <= fuel)%nat) ->
  let r := seq_stream fuel url timeout max_retries st in
  result r = Raise e /\
  yielded r = flat_map (fun k => chunks (body (responses k))) (seq 0 failing) /\
  log (final r) =
    log st ++ map (fun k => (get_request (seq_url split_url (Z.of_nat k)), timeout))
                  (seq 0 (S failing)).
Proof.
  intros Hsplit Hn Hf Hserved Hcount Hrec Hnet He Hfuel r. subst r.
  unfold seq_stream. rewrite Hsplit. erewrite bind_pure by reflexivity.
  fold (seq_url split_url 0).
  destruct (Hserved 0%nat) as [Hget Hlen]; [lia|].
  change (Z.of_nat 0) with 0 in Hget.
  pose proof (Hfuel 0%nat ltac:(lia)) as Hf0.
  erewrite bind_Return; cycle 1.
  { unfold collect.
    rewrite (stream_whole fuel _ timeout max_retries (responses 0%nat))
      by (try eassumption; lia).
    cbn [yielded result final]. rewrite concat_chunks. reflexivity. }
  erewrite bind_pure by apply find_segment_count_run.
  rewrite last_marker_split, Hcount.
  assert (Hsized : forall k, (k < failing)%nat ->
                     (length (body (responses k)) + 3 <= fuel - failing - 3)%nat).
  { intros k Hk. pose proof (Hfuel k Hk). lia. }
  destruct failing as [|failing]; [lia|].
  destruct (segment_loop_stops split_url timeout max_retries responses count (S failing)
              (fuel - S failing - 3) e Hn Hserved Hsized ltac:(lia) Hrec Hnet He
              failing 1%nat fuel (QInt 0)
              (set_log (fun l => l ++ [(get_request (seq_url split_url 0), timeout)])
                       (set_last_url <[get_ident := seq_url split_url 0]> st)))
    as (st' & Hrun & Hlog); [lia|lia|].
  change (Z.of_nat 1) with 1 in Hrun. rewrite Hrun.
  cbn [yielded result final]. split; [reflexivity|]. split; [reflexivity|].
  rewrite Hlog. cbn [log set_log set_last_url seq map].
  rewrite <- app_assoc. reflexivity.
Qed.








End Further.

(** ** The exceptions of the library *)

Section ExceptionFacts.
Import Exceptions.

Lemma prefix_append s p q : String.prefix (s +:+ p) (s +:+ q) = String.prefix p q.
Proof.
  induction s as [|c s IH]; [reflexivity|].
  change (String.prefix (String c (s +:+ p)) (String c (s +:+ q)) = String.prefix p q).
  cbn [String.prefix]. destruct (ascii_dec c c) as [_|Hne]; [exact IH|congruence].
Qed.

Lemma prefix_space s q : String.prefix (s +:+ " ") (s +:+ String " " q) = true.
Proof. rewrite prefix_append. destruct q; reflexivity. Qed.

(** X29. Every exception made for a video says what its class says: for
    [VideoUnavailable] and each class derived from it, the constructor
    stores the video id, and the message of the exception, what [str]
    prints, is the [error_string] of that very class, which begins with
    the video id followed by a space. [UnknownVideoError] logs six
    warnings on the way, the second naming the video id; the other
    classes log nothing. *)
Theorem video_error_message c arguments e warnings :
  issubclass c VideoUnavailable = true ->
  new c arguments = Some (e, warnings) ->
  exists video_id others message,
    arguments = video_id :: others /\
    class_of e = c /\
    attributes e !! "video_id" = Some video_id /\
    error_string e = Some message /\
    str e = Some message /\
    startswith message (format video_id +:+ " ") = true /\
    (c <> UnknownVideoError -> warnings = []) /\
    (c = UnknownVideoError ->
     length warnings = 6%nat /\ warnings !! 1%nat = Some ("Video ID: " +:+ format video_id)).
Proof.
  intros Hsub Hnew.
  destruct c; try discriminate Hsub;
    destruct arguments as [|v [|a1 [|a2 [|a3 [|a4 rest]]]]]; try discriminate Hnew;
    cbn in Hnew; inversion Hnew; subst; clear Hnew;
    eexists v, _, _; (split; [reflexivity|]); (split; [reflexivity|]);
    (split; [reflexivity|]); (split; [reflexivity|]); (split; [reflexivity|]);
    (split; [apply prefix_space|]);
    (split; [intros Hc; try reflexivity; congruence
            |intros Hc; try discriminate Hc; split; reflexivity]).
Qed.

(** X30. What an [except] clause catches: every class of the module
    derives from [PytubeError]; [VideoUnavailable] has thirteen classes
    below or equal to it, among which there is neither
    [MaxRetriesExceeded], which [stream] raises, nor [RegexMatchError],
    which [seq_filesize] raises and which is an [ExtractError]; and
    deriving is reflexive and transitive. *)
Theorem exception_hierarchy :
  (forall c, issubclass c PytubeError = true) /\
  (forall c, issubclass c VideoUnavailable = true <->
             In c [VideoUnavailable; AgeRestrictedError; LiveStreamError; VideoPrivate;
                   RecordingUnavailable; BotDetection; PoTokenRequired; LoginRequired;
                   MembersOnly; VideoRegionBlocked; AgeCheckRequiredError;
                   AgeCheckRequiredAccountError; UnknownVideoError]) /\
  (forall d, issubclass MaxRetriesExceeded d = true <->
             d = MaxRetriesExceeded \/ d = PytubeError) /\
  (forall d, issubclass RegexMatchError d = true <->
             d = RegexMatchError \/ d = ExtractError \/ d = PytubeError) /\
  (forall c, issubclass c c = true) /\
  (forall c d e, issubclass c d = true -> issubclass d e = true -> issubclass c e = true).
Proof.
  split; [intros c; destruct c; reflexivity|].
  split.
  { intros c. split.
    - destruct c; intros H; try discriminate H; cbn; tauto.
    - intros H. cbn in H.
      repeat (destruct H as [<-|H]; [reflexivity|]). destruct H. }
  split.
  { intros d. split.
    - destruct d; intros H; try discriminate H; auto.
    - intros [->| ->]; reflexivity. }
  split.
  { intros d. split.
    - destruct d; intros H; try discriminate H; auto.
    - intros [->|[->| ->]]; reflexivity. }
  split; [intros c; destruct c; reflexivity|].
  intros c d e. destruct c, d; intros H1; try discriminate H1;
    destruct e; intros H2; try discriminate H2; reflexivity.
Qed.

End ExceptionFacts.

(** * Scenarios

    The properties above, run on the test double. *)

Section Scenarios.

Import Mock.

(** With [max_retries = 2], three attempts, then [MaxRetriesExceeded]. *)
Lemma stream_retry_exhaustion_witness :
  let r := @stream timing_out 5 video_url (seconds 2) 2 0 init_state in
  result r = Raise MaxRetriesExceeded /\
  yielded r = [] /\
  log (final r) =
    log init_state ++ repeat (@stream_request timing_out video_url 0, seconds 2)
                             (Z.to_nat (2 + 1)) /\
  len (log (final r)) = len (log init_state) + (2 + 1).
Proof.
  apply (@stream_retry_exhaustion timing_out 5 video_url (seconds 2) 2 0 init_state).
  - lia.
  - reflexivity.
  - intros history. reflexivity.
  - vm_compute. lia.
Defined.

(** A refused request is not retried: [HTTPError] 403 leaves at once. *)
Lemma stream_transient_errors_witness :
  let st := init_state in
  let failed :=
    final (@_execute_request refusing (video_url +:+ @range_suffix 0) (Some "GET")
             None (DataJson JNull) _GLOBAL_DEFAULT_TIMEOUT st) in
  (HTTPError 403 "Forbidden" = URLError socket_timeout \/
   HTTPError 403 "Forbidden" = IncompleteRead ->
   @attempt_loop refusing 4 video_url _GLOBAL_DEFAULT_TIMEOUT 2 0 0 st =
   @attempt_loop refusing 3 video_url _GLOBAL_DEFAULT_TIMEOUT 2 0 (0 + 1) failed) /\
  (HTTPError 403 "Forbidden" <> URLError socket_timeout ->
   HTTPError 403 "Forbidden" <> IncompleteRead ->
   @attempt_loop refusing 4 video_url _GLOBAL_DEFAULT_TIMEOUT 2 0 0 st =
   Run [] (Raise (HTTPError 403 "Forbidden")) failed) /\
  (forall fuel0 st0 file_size downloaded,
     @attempt_loop refusing fuel0 video_url _GLOBAL_DEFAULT_TIMEOUT 2 0 0 st0 =
     @attempt_loop refusing 4 video_url _GLOBAL_DEFAULT_TIMEOUT 2 0 0 st ->
     downloaded < file_size ->
     HTTPError 403 "Forbidden" <> URLError socket_timeout ->
     HTTPError 403 "Forbidden" <> IncompleteRead ->
     @stream_loop refusing (S fuel0) video_url _GLOBAL_DEFAULT_TIMEOUT 2 0
                  file_size downloaded st0 =
     Run [] (Raise (HTTPError 403 "Forbidden")) failed).
Proof.
  apply (@stream_transient_errors refusing 3 video_url _GLOBAL_DEFAULT_TIMEOUT 2 0 0
           init_state (HTTPError 403 "Forbidden")).
  - lia.
  - reflexivity.
Defined.

(** The [try] block holds the request only: an [IncompleteRead] raised
    while the chunks are read ends the generator after one request, with
    two retries left. *)
Lemma read_failure_not_retried :
  let r := @stream broken_link 10 video_url _GLOBAL_DEFAULT_TIMEOUT 2 0 init_state in
  yielded r = [b "0123"] /\
  result r = Raise IncompleteRead /\
  length (log (final r)) = 1%nat.
Proof. vm_compute. repeat split. Qed.

(** The request of a resumed download: the offset is in the url, and no
    header of the request is a range. *)
Lemma stream_range_header_absent :
  let r := @stream plain 5 video_url _GLOBAL_DEFAULT_TIMEOUT 0 5 init_state in
  result r = Return tt /\
  map (fun ex => (full_url (fst ex), has_range_header (fst ex))) (log (final r)) =
  [("http://example.com/v?x=1&range=5-99999999999", false)].
Proof. vm_compute. split; reflexivity. Qed.

Lemma stream_range_in_url_witness :
  (5 <> 0 ->
   video_url +:+ @range_suffix 5 =
   video_url +:+ "&range=" +:+ str_of_int 5 +:+ "-99999999999") /\
  (forall k, lower k = "range" -> headers (@stream_request plain video_url 5) !! k = None).
Proof.
  destruct (@stream_range_in_url plain 5 video_url _GLOBAL_DEFAULT_TIMEOUT 0 5 init_state)
    as (_ & _ & _ & Hh & Hs & _).
  split; [exact Hs|exact Hh].
Defined.

Lemma segments_served k :
  (k <= 3)%nat ->
  @answers_get segments (@seq_url segments video_split (Z.of_nat k)) (seconds 2)
               (segment_response k) /\
  declares_length (segment_response k).
Proof.
  intros Hk.
  do 4 (destruct k as [|k];
        [split; [split; [reflexivity|intros history; reflexivity]
                |split; [reflexivity|eexists; split; reflexivity]]|]).
  lia.
Defined.

(** Segment 0 announces three segments; the four bodies come out in
    order. *)
Lemma seq_stream_reassembles_witness :
  let r := @seq_stream segments 40 video_url (seconds 2) 0 init_state in
  result r = Return tt /\
  yielded r = flat_map (fun k => chunks (body (segment_response k))) (seq 0 4) /\
  concat (yielded r) = flat_map (fun k => body (segment_response k)) (seq 0 4) /\
  log (final r) =
    log init_state ++
    map (fun k => (@get_request segments (@seq_url segments video_split (Z.of_nat k)),
                   seconds 2))
        (seq 0 4).
Proof.
  apply (@seq_stream_reassembles segments 40 video_url video_split (seconds 2) 0
           segment_response 3%nat init_state).
  - reflexivity.
  - lia.
  - exact segments_served.
  - exists (b "Segment-Count: 3"). split; [left; reflexivity|reflexivity].
  - intros line m [<-|[<-|[]]]; vm_compute; intros [=]; congruence.
  - intros k Hk. do 4 (destruct k as [|k]; [vm_compute; lia|]). lia.
Defined.

(** A first segment of fourteen bytes without a marker: one chunk, then
    the failure. *)
Lemma seq_stream_without_marker_raises_witness :
  let r := @seq_stream silent 20 video_url _GLOBAL_DEFAULT_TIMEOUT 0 init_state in
  yielded r = chunks (b "no marker here") /\
  result r = Raise (UnboundLocalError "segment_count") /\
  result r <> Return tt.
Proof.
  apply (@seq_stream_without_marker_raises silent 20 video_url video_split
           _GLOBAL_DEFAULT_TIMEOUT 0
           (mkResponse [("Content-Length", "14")] (b "no marker here") None) init_state).
  - reflexivity.
  - lia.
  - split; [reflexivity|intros history; reflexivity].
  - split; [reflexivity|eexists; split; reflexivity].
  - intros line [<-|[]]. reflexivity.
  - vm_compute. lia.
Defined.

(** The same run, computed: the chunk is the whole body. *)
Lemma seq_stream_without_marker_run :
  let r := @seq_stream silent 20 video_url _GLOBAL_DEFAULT_TIMEOUT 0 init_state in
  yielded r = [b "no marker here"] /\
  result r = Raise (UnboundLocalError "segment_count") /\
  map (fun ex => full_url (fst ex)) (log (final r)) = ["http://example.com//v?x=1&sq=0"].
Proof. vm_compute. repeat split. Qed.

(** A body that announces zero segments carries a count, and the size
    prober still raises the pattern-not-found error. *)
Lemma seq_filesize_zero_count_raises :
  segment_count_in (b "Segment-Count: 0") = Some 0 /\
  result (@seq_filesize zero 10 video_url init_state) =
  Raise (RegexMatchError "seq_filesize" segment_regex).
Proof. vm_compute. split; reflexivity. Qed.

Lemma heads_served k :
  (1 <= k <= 3)%nat ->
  @answers_head segments (@seq_url segments video_split (Z.of_nat k)) (segment_head k) /\
  declared_size (segment_head k) (len (segment_body k)).
Proof.
  intros Hk.
  destruct k as [|k]; [lia|].
  do 3 (destruct k as [|k];
        [split; [split; [reflexivity|intros history; reflexivity]
                |eexists; split; reflexivity]|]).
  lia.
Defined.

(** 24 bytes of segment 0 and 5 + 6 + 5 bytes declared by the others. *)
Lemma seq_filesize_sums_witness :
  let r := @seq_filesize segments 10 video_url init_state in
  result r = Return (len (segment_body 0) + sum_sizes (fun k => len (segment_body k)) 3) /\
  log (final r) =
    log init_state ++
    (@get_request segments (@seq_url segments video_split 0), _GLOBAL_DEFAULT_TIMEOUT)
    :: map (fun k => (@head_request segments (@seq_url segments video_split (Z.of_nat k)),
                      _GLOBAL_DEFAULT_TIMEOUT))
           (seq 1 3).
Proof.
  destruct (@seq_filesize_sums segments 10 video_url video_split (segment_response 0)
              init_state) as (_ & Hsum & _).
  - reflexivity.
  - reflexivity.
  - split; [reflexivity|intros history; reflexivity].
  - reflexivity.
  - apply (Hsum 3%nat segment_head (fun k => len (segment_body k))).
    + reflexivity.
    + lia.
    + exact heads_served.
    + lia.
Defined.

(** ["not-a-url"] is refused by all seven operations. *)
Lemma invalid_url_rejected_witness :
  refused init_state (@get refusing "not-a-url" None _GLOBAL_DEFAULT_TIMEOUT init_state) /\
  refused init_state
    (@post refusing "not-a-url" None (DataJson JNull) _GLOBAL_DEFAULT_TIMEOUT init_state) /\
  refused init_state (@head refusing "not-a-url" init_state) /\
  refused init_state (@filesize refusing "not-a-url" init_state) /\
  refused init_state
    (@stream refusing 2 "not-a-url" _GLOBAL_DEFAULT_TIMEOUT 0 0 init_state) /\
  refused init_state
    (@seq_stream refusing 2 "not-a-url" _GLOBAL_DEFAULT_TIMEOUT 0 init_state) /\
  refused init_state (@seq_filesize refusing 2 "not-a-url" init_state).
Proof.
  destruct (@invalid_url_rejected refusing "not-a-url" init_state) as (H1 & H2 & H3).
  destruct (H1 eq_refl) as (Hget & Hpost & Hhead & Hsize).
  destruct (H3 (mkSplit "" "" "not-a-url" "" "") eq_refl eq_refl) as (Hseq & Hseqsize).
  split; [apply Hget|]. split; [apply Hpost|]. split; [exact Hhead|].
  split; [apply Hsize; reflexivity|].
  split; [apply H2; [reflexivity|lia|lia]|].
  split; [apply Hseq; lia|].
  apply Hseqsize. reflexivity.
Defined.

(** A url whose scheme is neither http nor https, but which begins with
    the letters of http, passes the executor's test: [get] hands it to
    [urlopen] and raises what [urlopen] raises, not the invalid-request
    error. *)
Lemma unrecognized_scheme_reaches_urlopen :
  let r := @get strict "httpx://example.com/" None _GLOBAL_DEFAULT_TIMEOUT init_state in
  plain_urlsplit "httpx://example.com/" = inr (mkSplit "httpx" "example.com" "/" "" "") /\
  result r = Raise (URLError (other_reason "unknown url type: httpx")) /\
  result r <> Raise (ValueError "Invalid URL") /\
  map (fun ex => full_url (fst ex)) (log (final r)) = ["httpx://example.com/"].
Proof. vm_compute. repeat split. discriminate. Qed.

(** The operations do not refuse the same urls: with a space in front,
    the url of the segmented file is refused by [get], while [seq_stream]
    rebuilds it from its parts and downloads the four segments. *)
Lemma leading_space_refused_unevenly :
  let url := " http://example.com/v?x=1" in
  let r := @seq_stream segments 40 url _GLOBAL_DEFAULT_TIMEOUT 0 init_state in
  refused init_state (@get segments url None _GLOBAL_DEFAULT_TIMEOUT init_state) /\
  result r = Return tt /\
  length (log (final r)) = 4%nat.
Proof. vm_compute. repeat split. Qed.

(** The lookup url of the resolver itself is sent to the fixed address. *)
Lemma probe_resolves_to_fixed_address_witness :
  let r := @_patched_getaddrinfo plain 3 "www.google.com" 443 0 1 6 0 probe_state in
  result r = Return [mkAddrinfo 2 1 6 "" (addr2 "216.239.36.36" 443)] /\
  final r = set_lookups (fun l => l ++ [("www.google.com", 443)]) probe_state /\
  log (final r) = log probe_state /\
  dns_cache (final r) = dns_cache probe_state.
Proof.
  apply (@probe_resolves_to_fixed_address plain 3 "www.google.com" 443 0 1 6 0 probe_state
           "https://www.google.com/resolve?name=r1.example"
           (mkAddrinfo 2 1 6 "" (addr2 "142.250.0.1" 443)) []).
  - reflexivity.
  - reflexivity.
  - reflexivity.
Defined.

(** The override has asked the platform resolver for the host before it
    substitutes the fixed address. *)
Lemma probe_lookup_still_made :
  let r := @_patched_getaddrinfo plain 3 "www.google.com" 443 0 1 6 0 probe_state in
  lookups probe_state = [] /\
  lookups (final r) = [("www.google.com", 443)].
Proof. vm_compute. split; reflexivity. Qed.

(** An alias and its address: two links, then the address. *)
Lemma dns_chain_terminates_witness :
  exists resolved,
    (forall fuel, (answer_rank "r1.example." < fuel)%nat ->
       _read_ip_from_dns_answer fuel aliased = Return resolved) /\
    chain [mkEntry "r1.example." "r1.l.example."; mkEntry "r1.l.example." "203.0.113.7"]
          "r1.example." resolved /\
    (forall answer,
       In answer [mkEntry "r1.example." "r1.l.example.";
                  mkEntry "r1.l.example." "203.0.113.7"] ->
       name answer <> resolved).
Proof.
  apply (dns_chain_terminates aliased "r1.example." []
           [mkEntry "r1.example." "r1.l.example."; mkEntry "r1.l.example." "203.0.113.7"]
           answer_rank).
  - reflexivity.
  - reflexivity.
  - intros answer [<-|[<-|[]]]; vm_compute; lia.
Defined.

(** An entry that points at itself: no amount of fuel ends the loop. *)
Lemma dns_chain_self_reference_diverges :
  ~ exists fuel resolved, _read_ip_from_dns_answer fuel self_referring = Return resolved.
Proof.
  intros (fuel & resolved & H). unfold _read_ip_from_dns_answer in H. cbn in H.
  rewrite follow_self_reference in H. discriminate H.
Qed.

(** The caller's dictionary has the content type after the call. *)
Lemma post_mutates_caller_headers_witness :
  let r := @post plain video_url (Some 0%nat) (DataJson JNull) _GLOBAL_DEFAULT_TIMEOUT
                 caller_state in
  heap (final r) !! 0%nat =
    Some (<["Content-Type" := "application/json"]> ({[ "X-Client" := "1" ]} : gmap string string)) /\
  (({[ "X-Client" := "1" ]} : gmap string string) !! "Content-Type"
     <> Some "application/json" ->
   heap (final r) !! 0%nat <> Some ({[ "X-Client" := "1" ]} : gmap string string)).
Proof.
  apply (@post_mutates_caller_headers plain video_url 0%nat {[ "X-Client" := "1" ]}
           (DataJson JNull) _GLOBAL_DEFAULT_TIMEOUT caller_state).
  reflexivity.
Defined.

(** A resumed download: the five bytes from position 5, in one request. *)
Lemma stream_one_request_witness :
  let r := @stream plain 10 video_url _GLOBAL_DEFAULT_TIMEOUT 0 5 init_state in
  result r = Return tt /\
  yielded r = chunks (b "56789") /\
  concat (yielded r) = b "56789" /\
  log (final r) = log init_state ++ [(@stream_request plain video_url 5, _GLOBAL_DEFAULT_TIMEOUT)].
Proof.
  apply (@stream_one_request plain 10 video_url _GLOBAL_DEFAULT_TIMEOUT 0 5
           (mkResponse [("Content-Length", "5")] (b "56789") None) init_state).
  - reflexivity.
  - reflexivity.
  - split; [reflexivity|eexists; split; reflexivity].
  - lia.
  - lia.
  - vm_compute. lia.
Defined.

(** Two timeouts, then the file: three requests, no trace in the output. *)
Lemma stream_recovers_witness :
  let r := @stream recovering 20 video_url _GLOBAL_DEFAULT_TIMEOUT 2 0 init_state in
  result r = Return tt /\
  yielded r = chunks (b "0123456789") /\
  concat (yielded r) = b "0123456789" /\
  log (final r) =
    log init_state ++ repeat (@stream_request recovering video_url 0, _GLOBAL_DEFAULT_TIMEOUT) 3.
Proof.
  apply (@stream_recovers recovering 20 video_url _GLOBAL_DEFAULT_TIMEOUT 2 0
           (mkResponse [("Content-Length", "10")] (b "0123456789") None) 2%nat init_state).
  - reflexivity.
  - lia.
  - intros i Hi. exists (URLError socket_timeout). split; [left; reflexivity|].
    destruct i as [|[|i]]; [reflexivity|reflexivity|lia].
  - reflexivity.
  - split; [reflexivity|eexists; split; reflexivity].
  - lia.
  - vm_compute. lia.
Defined.

Lemma stream_without_content_length_witness :
  let r := @stream bare 5 video_url _GLOBAL_DEFAULT_TIMEOUT 3 0 init_state in
  (exists msg, result r = Raise (TypeError msg)) /\
  yielded r = [] /\
  log (final r) = log init_state ++ [(@stream_request bare video_url 0, _GLOBAL_DEFAULT_TIMEOUT)].
Proof.
  apply (@stream_without_content_length bare 5 video_url _GLOBAL_DEFAULT_TIMEOUT 3 0
           (mkResponse [] (b "0123456789") None) init_state).
  - reflexivity.
  - reflexivity.
  - reflexivity.
  - lia.
  - lia.
Defined.

(** The connection breaks after four bytes; three retries are left
    unused. *)
Lemma stream_read_failure_propagates_witness :
  let r := @stream broken_link 10 video_url _GLOBAL_DEFAULT_TIMEOUT 3 0 init_state in
  result r = Raise IncompleteRead /\
  yielded r = chunks (b "0123") /\
  log (final r) =
    log init_state ++ [(@stream_request broken_link video_url 0, _GLOBAL_DEFAULT_TIMEOUT)].
Proof.
  apply (@stream_read_failure_propagates broken_link 10 video_url _GLOBAL_DEFAULT_TIMEOUT 3 0
           (mkResponse [("Content-Length", "10")] (b "0123") (Some IncompleteRead))
           IncompleteRead "10" init_state).
  - reflexivity.
  - reflexivity.
  - reflexivity.
  - reflexivity.
  - lia.
  - vm_compute. lia.
Defined.

(** Ten bytes declared, four delivered: three requests, twelve bytes. *)
Lemma stream_short_body_fetched_again_witness :
  let r := @stream short 12 video_url _GLOBAL_DEFAULT_TIMEOUT 0 0 init_state in
  result r = Return tt /\
  yielded r = concat (repeat (chunks (b "0123")) 3) /\
  concat (yielded r) = concat (repeat (b "0123") 3) /\
  log (final r) =
    log init_state ++ repeat (@stream_request short video_url 0, _GLOBAL_DEFAULT_TIMEOUT) 3.
Proof.
  apply (@stream_short_body_fetched_again short 12 video_url _GLOBAL_DEFAULT_TIMEOUT 0 0
           (mkResponse [("Content-Length", "10")] (b "0123") None) 10 3%nat init_state).
  - reflexivity.
  - lia.
  - intros history. reflexivity.
  - reflexivity.
  - eexists. split; reflexivity.
  - unfold default_range_size. lia.
  - lia.
  - vm_compute. discriminate.
  - intros _. vm_compute. reflexivity.
  - vm_compute. lia.
Defined.

(** No fuel is enough: with seven units, six requests and no end. *)
Lemma stream_empty_body_never_ends_witness :
  let r := @stream stalling 7 video_url _GLOBAL_DEFAULT_TIMEOUT 0 0 init_state in
  result r = OutOfFuel /\ yielded r = [] /\
  log (final r) =
    log init_state ++ repeat (@stream_request stalling video_url 0, _GLOBAL_DEFAULT_TIMEOUT)
                             (7 - 1).
Proof.
  apply (@stream_empty_body_never_ends stalling video_url _GLOBAL_DEFAULT_TIMEOUT 0 0
           (mkResponse [("Content-Length", "10")] [] None)).
  - reflexivity.
  - lia.
  - intros history. reflexivity.
  - reflexivity.
  - reflexivity.
  - exists "10". split; [reflexivity|]. intros size H. vm_compute in H.
    inversion H. lia.
Defined.

Lemma negative_budget_makes_no_request_witness :
  (forall start,
     @stream plain 2 video_url _GLOBAL_DEFAULT_TIMEOUT (-1) start init_state =
     Run [] (Raise MaxRetriesExceeded) init_state) /\
  (forall split_url,
     plain_urlsplit video_url = inr split_url ->
     @seq_stream plain 2 video_url _GLOBAL_DEFAULT_TIMEOUT (-1) init_state =
     Run [] (Raise MaxRetriesExceeded) init_state).
Proof.
  apply (@negative_budget_makes_no_request plain 2 video_url _GLOBAL_DEFAULT_TIMEOUT (-1)
           init_state).
  - lia.
  - lia.
Defined.

(** The file of ten bytes, interrupted after five and resumed. *)
Lemma stream_resume_completes_witness :
  firstn 5 (concat (yielded (@stream plain 13 video_url _GLOBAL_DEFAULT_TIMEOUT 0 0
                                     init_state))) ++
  concat (yielded (@stream plain 13 video_url _GLOBAL_DEFAULT_TIMEOUT 0 (Z.of_nat 5)
                           init_state)) =
  b "0123456789".
Proof.
  apply (@stream_resume_completes plain 13 video_url _GLOBAL_DEFAULT_TIMEOUT 0 5%nat
           (b "0123456789")
           (mkResponse [("Content-Length", "10")] (b "0123456789") None)
           (mkResponse [("Content-Length", "5")] (b "56789") None) init_state init_state).
  - reflexivity.
  - reflexivity.
  - reflexivity.
  - reflexivity.
  - split; [reflexivity|eexists; split; reflexivity].
  - reflexivity.
  - split; [reflexivity|eexists; split; reflexivity].
  - reflexivity.
  - lia.
  - vm_compute. lia.
Defined.

(** Four bytes under a length that is no number: the body is fetched
    until 9437184 bytes are counted, 2359296 times. *)
Lemma stream_unparsable_length_witness :
  let k := Z.to_nat 2359296 in
  let r := @stream unreadable (k + 6) video_url _GLOBAL_DEFAULT_TIMEOUT 0 0 init_state in
  result r = Return tt /\
  yielded r = concat (repeat (chunks (b "0123")) k) /\
  concat (yielded r) = concat (repeat (b "0123") k) /\
  log (final r) =
    log init_state ++ repeat (@stream_request unreadable video_url 0, _GLOBAL_DEFAULT_TIMEOUT) k.
Proof.
  intros k.
  assert (Hlen : len (b "0123") = 4) by reflexivity.
  assert (Hk : Z.of_nat k = 2359296) by (subst k; apply Z2Nat.id; lia).
  apply (@stream_unparsable_length unreadable (k + 6) video_url _GLOBAL_DEFAULT_TIMEOUT 0 0
           (mkResponse [("Content-Length", "ten")] (b "0123") None) k init_state).
  - reflexivity.
  - lia.
  - intros history. reflexivity.
  - reflexivity.
  - exists "ten". split; reflexivity.
  - cbn [body]. rewrite Hlen, Hk. unfold default_range_size. lia.
  - cbn [body]. rewrite Hlen, Hk. unfold default_range_size. lia.
  - cbn [body]. change (length (b "0123")) with 4%nat. lia.
Defined.


(** The caller's [X-Client] travels beside the two fixed headers. *)
Lemma get_request_and_result_witness :
  let r := @get plain video_url (Some 0%nat) _GLOBAL_DEFAULT_TIMEOUT caller_state in
  let request :=
    @build_request plain video_url None (Some {[ "X-Client" := "1" ]}) (DataJson JNull) in
  result r = Return "0123456789" /\
  log (final r) = log caller_state ++ [(request, _GLOBAL_DEFAULT_TIMEOUT)] /\
  headers request !! "X-Client" = Some "1" /\
  headers request !! "User-Agent" = Some "Mozilla/5.0" /\
  headers request !! "Host" = None.
Proof.
  destruct (@get_request_and_result plain video_url 0%nat {[ "X-Client" := "1" ]}
              _GLOBAL_DEFAULT_TIMEOUT
              (mkResponse [("Content-Length", "10")] (b "0123456789") None) caller_state)
    as (Hres & _ & Hlog & _ & _ & _ & Hh).
  - reflexivity.
  - reflexivity.
  - reflexivity.
  - reflexivity.
  - split; [exact Hres|]. split; [exact Hlog|].
    split; [rewrite Hh; reflexivity|]. split; rewrite Hh; reflexivity.
Defined.


(** Two length fields: [head] keeps the second. *)
Lemma head_keeps_last_field_witness :
  exists h,
    result (@head doubled video_url init_state) = Return h /\
    h !! "content-length" = Some "20" /\
    h !! "Content-Length" = None.
Proof.
  destruct (@head_keeps_last_field doubled video_url
              (mkResponse [("Content-Length", "10"); ("content-length", "20")] [] None)
              init_state) as (h & Hres & Hlast & Hlow & _).
  - reflexivity.
  - reflexivity.
  - exists h. split; [exact Hres|]. split.
    + apply (Hlast "Content-Length").
    + destruct (h !! "Content-Length") as [v|] eqn:Hv; [|reflexivity].
      assert (Hk : lower "Content-Length" = "Content-Length")
        by (apply Hlow; rewrite Hv; eexists; reflexivity).
      discriminate Hk.
Defined.

(** The same answer sized: 20, the last field, where [stream] takes the
    first. *)
Lemma filesize_reads_last_content_length_witness :
  let r := @filesize doubled video_url init_state in
  result r = Return 20 /\
  cache_find video_url (filesize_cache (final r)) = Some 20.
Proof.
  destruct (@filesize_reads_last_content_length doubled video_url
              (mkResponse [("Content-Length", "10"); ("content-length", "20")] [] None)
              init_state) as (_ & H).
  - reflexivity.
  - reflexivity.
  - reflexivity.
  - exact H.
Defined.

(** The table is full; the url of entry 127, the oldest, leaves it. *)
Lemma memo_tables_bounded_witness :
  caches_bounded (final (@filesize plain video_url full_state)) /\
  filesize_cache (final (@filesize plain video_url full_state)) =
  (video_url, 10) :: firstn 127 full_cache.
Proof.
  destruct (@memo_tables_bounded plain 5 video_url full_state) as (Hb & _ & _ & He).
  - split; [|split]; vm_compute; lia.
  - split; [exact Hb|].
    apply (He (firstn 127 full_cache) ("http://example.com/127", 7) 10);
      vm_compute; reflexivity.
Defined.

(** A thread without a recorded url gets the platform's answer. *)
Lemma override_passes_other_urls_witness :
  @_patched_getaddrinfo plain 3 "example.com" 80 0 1 6 0 init_state =
  Run [] (Return [mkAddrinfo 2 1 6 "" (addr2 "142.250.0.1" 80)])
      (set_lookups (fun l => l ++ [("example.com", 80)]) init_state).
Proof.
  apply (@override_passes_other_urls plain 3 "example.com" 80 0 1 6 0 init_state).
  intros url H. vm_compute in H. discriminate H.
Defined.

Lemma override_uses_cached_address_witness :
  let r := @_patched_getaddrinfo resolving 3 "r1.googlevideo.com" 443 0 1 6 0 media_cached in
  result r = Return [mkAddrinfo 2 1 6 "" (addr2 "203.0.113.7" 443)] /\
  log (final r) = log media_cached /\
  last_url (final r) = last_url media_cached.
Proof.
  apply (@override_uses_cached_address resolving 3 "r1.googlevideo.com" 443 0 1 6 0
           media_cached media_url (mkAddrinfo 2 1 6 "" (addr2 "142.250.0.1" 443)) []
           "r1.googlevideo.com" [] "203.0.113.7").
  - reflexivity.
  - reflexivity.
  - reflexivity.
  - reflexivity.
  - reflexivity.
  - reflexivity.
Defined.

(** One DoH request; the alias is followed to the address. *)
Lemma override_resolves_media_host_witness :
  let r := @_patched_getaddrinfo resolving 3 "r1.googlevideo.com." 443 0 1 6 0 media_state in
  result r = Return [mkAddrinfo 2 1 6 "" (addr2 "203.0.113.7" 443)] /\
  log (final r) =
    log media_state ++ [(doh_request "r1.googlevideo.com", _GLOBAL_DEFAULT_TIMEOUT)] /\
  cache_find "r1.googlevideo.com" (dns_cache (final r)) = Some "203.0.113.7".
Proof.
  destruct (@override_resolves_media_host resolving 3 "r1.googlevideo.com." 443 0 1 6 0
              media_state media_url (mkAddrinfo 2 1 6 "" (addr2 "142.250.0.1" 443)) []
              "r1.googlevideo.com" [] (mkResponse [] (b media_text) None) media_text
              media_answer "203.0.113.7")
    as (Hres & Hlog & _ & _ & _ & Hcache).
  - reflexivity.
  - reflexivity.
  - reflexivity.
  - reflexivity.
  - reflexivity.
  - reflexivity.
  - reflexivity.
  - reflexivity.
  - reflexivity.
  - reflexivity.
  - reflexivity.
  - split; [exact Hres|]. split; [exact Hlog|exact Hcache].
Defined.

(** After that lookup the thread's next resolution, here for the media
    host again, gets the address of the resolver. *)
Lemma override_after_lookup_is_fixed_witness :
  let st1 :=
    final (@_patched_getaddrinfo resolving 3 "r1.googlevideo.com" 443 0 1 6 0 media_state) in
  last_url st1 !! 0%nat = Some "https://www.google.com/resolve?name=r1.googlevideo.com" /\
  result (@_patched_getaddrinfo resolving 3 "r1.googlevideo.com" 443 0 1 6 0 st1) =
    Return [mkAddrinfo 2 1 6 "" (addr2 "216.239.36.36" 443)].
Proof.
  apply (@override_after_lookup_is_fixed resolving 3 "r1.googlevideo.com" 443 0 1 6 0
           media_state media_url (mkAddrinfo 2 1 6 "" (addr2 "142.250.0.1" 443)) []
           "r1.googlevideo.com" [] (mkResponse [] (b media_text) None) media_text
           media_answer "203.0.113.7"
           3%nat "r1.googlevideo.com" 443 0 1 6 0
           (mkAddrinfo 2 1 6 "" (addr2 "142.250.0.1" 443)) []).
  - reflexivity.
  - reflexivity.
  - reflexivity.
  - reflexivity.
  - reflexivity.
  - reflexivity.
  - reflexivity.
  - reflexivity.
  - reflexivity.
  - reflexivity.
  - reflexivity.
  - reflexivity.
Defined.

(** The resolver answers 404: no address for the media host. *)
Lemma override_lookup_failure_propagates_witness :
  let r := @_patched_getaddrinfo unreachable 3 "r1.googlevideo.com" 443 0 1 6 0 media_state in
  result r = Raise (HTTPError 404 "Not Found") /\
  dns_cache (final r) = dns_cache media_state /\
  log (final r) =
    log (final (@get_dns_ip_wrapped unreachable 3 media_url
                  (set_lookups (fun l => l ++ [("r1.googlevideo.com", 443)]) media_state))).
Proof.
  apply (@override_lookup_failure_propagates unreachable 3 "r1.googlevideo.com" 443 0 1 6 0
           media_state media_url (mkAddrinfo 2 1 6 "" (addr2 "142.250.0.1" 443)) []
           media_url [] (HTTPError 404 "Not Found")).
  - reflexivity.
  - reflexivity.
  - reflexivity.
  - reflexivity.
  - reflexivity.
  - reflexivity.
  - reflexivity.
Defined.

(** The address at the end of the alias is no name of the answer, and is
    not the name asked for, which the answer does carry. *)
Lemma read_ip_result_is_terminal_witness :
  (forall answer,
     In answer [mkEntry "r1.example." "r1.l.example."; mkEntry "r1.l.example." "203.0.113.7"] ->
     name answer <> "203.0.113.7") /\
  ("203.0.113.7" = "r1.example." <->
   forall answer,
     In answer [mkEntry "r1.example." "r1.l.example."; mkEntry "r1.l.example." "203.0.113.7"] ->
     name answer <> "r1.example.").
Proof.
  apply (read_ip_result_is_terminal 2 aliased "r1.example." []
           [mkEntry "r1.example." "r1.l.example."; mkEntry "r1.l.example." "203.0.113.7"]
           "203.0.113.7").
  - reflexivity.
  - reflexivity.
  - reflexivity.
Defined.

Lemma segments_served_by_default k :
  (k <= 3)%nat ->
  @answers_get segments (@seq_url segments video_split (Z.of_nat k)) _GLOBAL_DEFAULT_TIMEOUT
               (segment_response k) /\
  declares_length (segment_response k).
Proof.
  intros Hk.
  do 4 (destruct k as [|k];
        [split; [split; [reflexivity|intros history; reflexivity]
                |split; [reflexivity|eexists; split; reflexivity]]|]).
  lia.
Defined.

(** The four segments: 40 bytes counted, 40 bytes yielded. *)
Lemma seq_filesize_counts_streamed_bytes_witness :
  result (@seq_filesize segments 40 video_url init_state) =
  Return (len (concat (yielded (@seq_stream segments 40 video_url _GLOBAL_DEFAULT_TIMEOUT 0
                                            init_state)))).
Proof.
  apply (@seq_filesize_counts_streamed_bytes segments 40 video_url video_split
           _GLOBAL_DEFAULT_TIMEOUT 0 segment_response segment_head 3%nat init_state
           init_state).
  - reflexivity.
  - lia.
  - lia.
  - exact segments_served_by_default.
  - apply (segments_served_by_default 0). lia.
  - reflexivity.
  - exact heads_served.
  - reflexivity.
  - intros k Hk. do 4 (destruct k as [|k]; [vm_compute; lia|]). lia.
Defined.

(** Segment 2 of 3 is not found: the first two bodies, then the error. *)
Lemma seq_stream_stops_at_failing_segment_witness :
  let r := @seq_stream halved 40 video_url _GLOBAL_DEFAULT_TIMEOUT 0 init_state in
  result r = Raise (HTTPError 404 "Not Found") /\
  yielded r = flat_map (fun k => chunks (body (segment_response k))) (seq 0 2) /\
  log (final r) =
    log init_state ++
    map (fun k => (@get_request halved (@seq_url halved video_split (Z.of_nat k)),
                   _GLOBAL_DEFAULT_TIMEOUT))
        (seq 0 3).
Proof.
  apply (@seq_stream_stops_at_failing_segment halved 40 video_url video_split
           _GLOBAL_DEFAULT_TIMEOUT 0 segment_response 3%nat 2%nat
           (HTTPError 404 "Not Found") init_state).
  - reflexivity.
  - lia.
  - lia.
  - intros k Hk.
    do 2 (destruct k as [|k];
          [split; [split; [reflexivity|intros history; reflexivity]
                  |split; [reflexivity|eexists; split; reflexivity]]|]).
    lia.
  - reflexivity.
  - reflexivity.
  - intros history. reflexivity.
  - intros [H|H]; discriminate H.
  - intros k Hk. do 2 (destruct k as [|k]; [vm_compute; lia|]). lia.
Defined.

(** [UnknownVideoError('abc', reason='gone')]. *)
Lemma video_error_message_witness :
  let e :=
    Exceptions.mkInstance Exceptions.UnknownVideoError
      (<["developer_message" := Exceptions.NoneValue]>
         (<["reason" := Exceptions.Str "gone"]>
            (<["status" := Exceptions.NoneValue]>
               (<["video_id" := Exceptions.Str "abc"]> ∅))))
      [Exceptions.Str "abc has an unknown error, check logs for more info"] in
  exists video_id others message,
    [Exceptions.Str "abc"; Exceptions.NoneValue; Exceptions.Str "gone"] = video_id :: others /\
    Exceptions.class_of e = Exceptions.UnknownVideoError /\
    Exceptions.attributes e !! "video_id" = Some video_id /\
    Exceptions.error_string e = Some message /\
    Exceptions.str e = Some message /\
    startswith message (Exceptions.format video_id +:+ " ") = true /\
    (Exceptions.UnknownVideoError <> Exceptions.UnknownVideoError -> 
     [ "Unknown Video Error"; "Video ID: abc"; "Status: None"; "Reason: gone";
       "Developer Message: None";
       "Please open an issue at https://github.com/JuanBindez/pytubefix/issues and provide the above log output." ] = []) /\
    (Exceptions.UnknownVideoError = Exceptions.UnknownVideoError ->
     length [ "Unknown Video Error"; "Video ID: abc"; "Status: None"; "Reason: gone";
              "Developer Message: None";
              "Please open an issue at https://github.com/JuanBindez/pytubefix/issues and provide the above log output." ] = 6%nat /\
     [ "Unknown Video Error"; "Video ID: abc"; "Status: None"; "Reason: gone";
       "Developer Message: None";
       "Please open an issue at https://github.com/JuanBindez/pytubefix/issues and provide the above log output." ] !! 1%nat
     = Some ("Video ID: " +:+ Exceptions.format video_id)).
Proof.
  apply (video_error_message Exceptions.UnknownVideoError
           [Exceptions.Str "abc"; Exceptions.NoneValue; Exceptions.Str "gone"]).
  - reflexivity.
  - reflexivity.
Defined.

(** A second call after the first has returned: the table answers. *)
Lemma memoised_call_repeats_witness :
  let st1 := final (@filesize plain video_url init_state) in
  let r := @filesize plain video_url st1 in
  result r = Return 10 /\ yielded r = [] /\ log (final r) = log st1.
Proof.
  destruct (@memoised_call_repeats plain video_url init_state) as (H & _ & _).
  apply (H 10). reflexivity.
Defined.

(** An answer with no entry gives the name back. *)
Lemma read_ip_edge_cases_witness :
  _read_ip_from_dns_answer 1 (mkDns (Some ["r1.example."]) (Some [])) = Return "r1.example.".
Proof.
  destruct (read_ip_edge_cases 1 (mkDns (Some ["r1.example."]) (Some []))) as (_ & _ & H).
  destruct (H "r1.example." [] eq_refl) as (_ & Hret).
  apply (Hret [] eq_refl); [intros answer []|lia].
Defined.


End Scenarios.
